(** * RegOptionsMgr: registry-backed option storage

    A shallow embedding of [Src/Common/RegOptionsMgr.cpp]: the value codec
    ([SaveValueToReg], [LoadValueFromBuf]), the key-handle cache ([OpenKey],
    [CloseKey], [CloseKeys]), the synchronous operations ([Read], [Remove],
    [InitOption], [RemoveOption]), the asynchronous writer ([WriteAsync],
    [AsyncWriterThreadProc]) and the export/import of unloaded values.

    The Windows registry, the thread message queue and the private-profile
    (INI) API are the environment of the program; they are modelled by small
    in-memory structures whose operations follow the documented behaviour of
    the corresponding API calls. *)

From Stdlib Require Import ZArith Lia List.
From stdpp Require Import base option list gmap strings sorting.
Import ListNotations.

Local Open Scope Z_scope.
#[local] Set Warnings "-register-all".


(* ================================================================== *)
(** * Characters, strings and bytes *)
(* ================================================================== *)

(** A [tchar_t] is one code unit, a [BYTE] one octet; both are kept as
    integers.  A [String] is the sequence of its code units. *)
Abbreviation tchar_t := Z (only parsing).
Abbreviation BYTE := Z (only parsing).
Abbreviation String := (list Z) (only parsing).

(** The [_T("...")] macro: a literal as a sequence of code units. *)
Definition _T (s : string) : String :=
  map (fun a => Z.of_N (Ascii.N_of_ascii a)) (String.list_ascii_of_string s).

Definition DWORD_MOD : Z := 2 ^ 32.

(** Conversion to [DWORD] (unsigned 32 bit) and to [int] (signed 32 bit). *)
Definition to_DWORD (z : Z) : Z := z mod DWORD_MOD.
Definition to_int (z : Z) : Z :=
  let u := z mod DWORD_MOD in
  if u <? 2 ^ 31 then u else u - DWORD_MOD.

(** [n] bytes of [v], least significant first, and the value of a byte
    sequence read the same way. *)
Fixpoint le_bytes (n : nat) (v : Z) : list BYTE :=
  match n with
  | O => []
  | S k => (v mod 256) :: le_bytes k (v / 256)
  end.

Fixpoint le_value (bs : list BYTE) : Z :=
  match bs with
  | [] => 0
  | b :: r => b + 256 * le_value r
  end.

(** [CopyMemory(&dwordValue, &data[0], sizeof(DWORD))]: the first four bytes
    of a buffer as a [DWORD].  The buffers handed to it hold at least four
    bytes; bytes missing from a shorter list read as zero. *)
Definition read_DWORD (data : list BYTE) : Z :=
  le_value (take 4 (data ++ [0; 0; 0; 0])).

(* ------------------------------------------------------------------ *)
(** ** Windows constants *)

Definition ERROR_SUCCESS : Z := 0.
Definition ERROR_FILE_NOT_FOUND : Z := 2.
Definition ERROR_INVALID_HANDLE : Z := 6.
Definition ERROR_MORE_DATA : Z := 234.
Definition ERROR_NO_MORE_ITEMS : Z := 259.
Definition ERROR_KEY_DELETED : Z := 1018.

Definition REG_SZ : Z := 1.
Definition REG_DWORD : Z := 4.

Definition MAX_PATH : Z := 260.

Definition chr_slash : tchar_t := 47.
Definition chr_backslash : tchar_t := 92.

(* ------------------------------------------------------------------ *)
(** ** varprop::VariantValue and COption result codes *)

(** Modelled from the spec: [varprop::VariantValue] is declared outside the
    source file; it is a tagged union over Null, Int (32-bit signed), Bool
    and String, Null being the unset value a fresh object holds. *)
Inductive VariantValue :=
| VNull
| VInt (i : Z)
| VBool (b : bool)
| VString (s : String).

Inductive VT_TYPE := VT_NULL | VT_BOOL | VT_INT | VT_STRING.

Definition GetType (v : VariantValue) : VT_TYPE :=
  match v with
  | VNull => VT_NULL
  | VInt _ => VT_INT
  | VBool _ => VT_BOOL
  | VString _ => VT_STRING
  end.

Definition SetInt (i : Z) : VariantValue := VInt (to_int i).
Definition SetBool (b : bool) : VariantValue := VBool b.
Definition SetString (s : String) : VariantValue := VString s.

(** Modelled from the spec: the result codes of [COption], a closed
    enumeration Ok, GenericError, NotFound, WrongType, UnknownType. *)
Inductive OptResult :=
| OPT_OK
| OPT_ERR
| OPT_WRONG_TYPE
| OPT_UNKNOWN_TYPE
| OPT_NOTFOUND.

#[global] Instance VT_TYPE_eq_dec : EqDecision VT_TYPE.
Proof. solve_decision. Defined.

#[global] Instance OptResult_eq_dec : EqDecision OptResult.
Proof. solve_decision. Defined.

(* ------------------------------------------------------------------ *)
(** ** COptionsMgr::SplitName *)

Definition has_slash (s : String) : bool := existsb (Z.eqb chr_slash) s.

(** Modelled from the spec: [COptionsMgr::SplitName] is defined outside the
    source file.  The segment after the last ['/'] is the value name and the
    rest, without that separator, is the key path; a name without ['/'] is a
    value name with an empty key path. *)
Fixpoint SplitName (strName : String) : String * String :=
  match strName with
  | [] => ([], [])
  | c :: rest =>
      if has_slash rest then
        let '(strPath, strValueName) := SplitName rest in
        (c :: strPath, strValueName)
      else if c =? chr_slash then ([], rest)
      else ([], c :: rest)
  end.

(* ------------------------------------------------------------------ *)
(** ** std::basic_string::find *)

Fixpoint starts_with (pat s : String) : bool :=
  match pat, s with
  | [], _ => true
  | _ :: _, [] => false
  | a :: pat', b :: s' => (a =? b) && starts_with pat' s'
  end.

(** [s.find(pat)]: the position of the first occurrence of [pat] in [s]
    counted from [pos], [None] standing for [npos]. *)
Fixpoint str_find_from (pos : nat) (pat s : String) : option nat :=
  if starts_with pat s then Some pos
  else match s with
       | [] => None
       | _ :: r => str_find_from (S pos) pat r
       end.

Definition str_find (pat s : String) : option nat := str_find_from 0 pat s.

(* ================================================================== *)
(** * The registry (environment model) *)
(* ================================================================== *)

(** A value of a key: its type tag and its raw data. *)
Record RegValue := { rv_type : Z; rv_data : list BYTE }.

(** A key holds named values and named subkeys, both in enumeration
    order. *)
Inductive RegKey :=
| MkKey (values : list (String * RegValue)) (subkeys : list (String * RegKey)).

Definition key_values (k : RegKey) : list (String * RegValue) :=
  match k with MkKey vs _ => vs end.
Definition key_subkeys (k : RegKey) : list (String * RegKey) :=
  match k with MkKey _ ss => ss end.

Definition empty_key : RegKey := MkKey [] [].

(** Association lists: first match wins; an update replaces the first
    match in place and appends when there is none. *)
Fixpoint assoc_find {A} (n : String) (l : list (String * A)) : option A :=
  match l with
  | [] => None
  | (m, a) :: r => if decide (m = n) then Some a else assoc_find n r
  end.

Fixpoint assoc_set {A} (n : String) (a : A) (l : list (String * A)) : list (String * A) :=
  match l with
  | [] => [(n, a)]
  | (m, b) :: r => if decide (m = n) then (n, a) :: r else (m, b) :: assoc_set n a r
  end.

Fixpoint assoc_del {A} (n : String) (l : list (String * A)) : list (String * A) :=
  match l with
  | [] => []
  | (m, b) :: r => if decide (m = n) then assoc_del n r else (m, b) :: assoc_del n r
  end.

(** A key path as the registry reads it: components separated by
    backslashes, empty components dropped (so a trailing backslash is
    harmless). *)
Fixpoint split_path_aux (cur : String) (s : String) : list String :=
  match s with
  | [] => match cur with [] => [] | _ => [rev cur] end
  | c :: r =>
      if c =? chr_backslash then
        match cur with
        | [] => split_path_aux [] r
        | _ => rev cur :: split_path_aux [] r
        end
      else split_path_aux (c :: cur) r
  end.

Definition split_path (s : String) : list String := split_path_aux [] s.

Fixpoint find_key (p : list String) (k : RegKey) : option RegKey :=
  match p with
  | [] => Some k
  | c :: p' =>
      match assoc_find c (key_subkeys k) with
      | Some k' => find_key p' k'
      | None => None
      end
  end.

(** Creates every missing key along [p]. *)
Fixpoint create_key (p : list String) (k : RegKey) : RegKey :=
  match p with
  | [] => k
  | c :: p' =>
      let child := default empty_key (assoc_find c (key_subkeys k)) in
      MkKey (key_values k) (assoc_set c (create_key p' child) (key_subkeys k))
  end.

(** Applies [f] to the key at [p]; nothing changes when it does not exist. *)
Fixpoint update_key (p : list String) (f : RegKey -> RegKey) (k : RegKey) : RegKey :=
  match p with
  | [] => f k
  | c :: p' =>
      match assoc_find c (key_subkeys k) with
      | Some k' => MkKey (key_values k) (assoc_set c (update_key p' f k') (key_subkeys k))
      | None => k
      end
  end.

(** An [HKEY]: the null pointer, the predefined hive, or an open handle. *)
Inductive HKEY :=
| nullptr
| HKEY_CURRENT_USER
| Handle (n : nat).

#[global] Instance HKEY_eq_dec : EqDecision HKEY.
Proof. solve_decision. Defined.

(** What the system keeps for an open handle: the path it was opened with
    (relative to the hive) and whether the key it designates still exists.
    The handle of a deleted key stays dead even when a key of the same
    path is created again. *)
Record HandleInfo := { h_path : String; h_alive : bool }.

Record Registry := {
  reg_hive : RegKey;                    (* the tree under HKEY_CURRENT_USER *)
  reg_handles : gmap nat HandleInfo;    (* open handles *)
  reg_next : nat;                       (* next handle to hand out *)
  reg_calls : nat                       (* RegCreateKeyEx/RegOpenKeyEx calls made *)
}.

(** The components of the key an [HKEY] designates. *)
Definition resolve (h : HKEY) (r : Registry) : Z + list String :=
  match h with
  | nullptr => inl ERROR_INVALID_HANDLE
  | HKEY_CURRENT_USER => inr []
  | Handle n =>
      match reg_handles r !! n with
      | None => inl ERROR_INVALID_HANDLE
      | Some hi => if h_alive hi then inr (split_path (h_path hi))
                   else inl ERROR_KEY_DELETED
      end
  end.

Definition path_of (h : HKEY) (r : Registry) : String :=
  match h with
  | Handle n => match reg_handles r !! n with Some hi => h_path hi | None => [] end
  | _ => []
  end.

Definition sub_path (parent sub : String) : String :=
  match parent with
  | [] => sub
  | _ => parent ++ chr_backslash :: sub
  end.

Definition alloc_handle (path : String) (hive : RegKey) (r : Registry) : HKEY * Registry :=
  (Handle (reg_next r),
   {| reg_hive := hive;
      reg_handles := <[reg_next r := {| h_path := path; h_alive := true |}]> (reg_handles r);
      reg_next := S (reg_next r);
      reg_calls := S (reg_calls r) |}).

Definition count_call (r : Registry) : Registry :=
  {| reg_hive := reg_hive r; reg_handles := reg_handles r;
     reg_next := reg_next r; reg_calls := S (reg_calls r) |}.

Definition with_hive (hive : RegKey) (r : Registry) : Registry :=
  {| reg_hive := hive; reg_handles := reg_handles r;
     reg_next := reg_next r; reg_calls := reg_calls r |}.

(** [RegCreateKeyEx]: opens the key, creating it and its missing ancestors. *)
Definition RegCreateKeyEx (hKey : HKEY) (lpSubKey : String) (r : Registry)
  : Z * HKEY * Registry :=
  match resolve hKey r with
  | inl e => (e, nullptr, count_call r)
  | inr p =>
      let full := sub_path (path_of hKey r) lpSubKey in
      let '(h, r') := alloc_handle full (create_key (p ++ split_path lpSubKey) (reg_hive r)) r in
      (ERROR_SUCCESS, h, r')
  end.

(** [RegOpenKeyEx]: opens an existing key. *)
Definition RegOpenKeyEx (hKey : HKEY) (lpSubKey : String) (r : Registry)
  : Z * HKEY * Registry :=
  match resolve hKey r with
  | inl e => (e, nullptr, count_call r)
  | inr p =>
      match find_key (p ++ split_path lpSubKey) (reg_hive r) with
      | None => (ERROR_FILE_NOT_FOUND, nullptr, count_call r)
      | Some _ =>
          let '(h, r') := alloc_handle (sub_path (path_of hKey r) lpSubKey) (reg_hive r) r in
          (ERROR_SUCCESS, h, r')
      end
  end.

Definition RegCloseKey (hKey : HKEY) (r : Registry) : Registry :=
  match hKey with
  | Handle n =>
      {| reg_hive := reg_hive r; reg_handles := delete n (reg_handles r);
         reg_next := reg_next r; reg_calls := reg_calls r |}
  | _ => r
  end.

(** The key a handle designates, when the handle is valid. *)
Definition key_at (h : HKEY) (r : Registry) : Z + (list String * RegKey) :=
  match resolve h r with
  | inl e => inl e
  | inr p =>
      match find_key p (reg_hive r) with
      | None => inl ERROR_KEY_DELETED
      | Some k => inr (p, k)
      end
  end.

Definition set_value (n : String) (v : RegValue) (k : RegKey) : RegKey :=
  MkKey (assoc_set n v (key_values k)) (key_subkeys k).

Definition del_value (n : String) (k : RegKey) : RegKey :=
  MkKey (assoc_del n (key_values k)) (key_subkeys k).

(** [RegSetValueEx(hKey, name, 0, type, lpData, cbData)]; [data] is the
    [cbData] bytes found at [lpData]. *)
Definition RegSetValueEx (hKey : HKEY) (name : String) (type : Z) (data : list BYTE)
  (r : Registry) : Z * Registry :=
  match key_at hKey r with
  | inl e => (e, r)
  | inr (p, _) =>
      (ERROR_SUCCESS,
       with_hive (update_key p (set_value name {| rv_type := type; rv_data := data |}) (reg_hive r)) r)
  end.

(** Writing [data] at the start of a buffer, the rest of it unchanged. *)
Definition overwrite (data buf : list BYTE) : list BYTE :=
  data ++ drop (length data) buf.

(** [RegQueryValueEx(hKey, name, 0, &type, buf, &size)] with a buffer of
    [size] bytes: result code, type, buffer and size afterwards. *)
Definition RegQueryValueEx (hKey : HKEY) (name : String) (type : Z) (buf : list BYTE)
  (size : Z) (r : Registry) : Z * Z * list BYTE * Z :=
  match key_at hKey r with
  | inl e => (e, type, buf, size)
  | inr (_, k) =>
      match assoc_find name (key_values k) with
      | None => (ERROR_FILE_NOT_FOUND, type, buf, size)
      | Some v =>
          let need := Z.of_nat (length (rv_data v)) in
          if size <? need then (ERROR_MORE_DATA, rv_type v, buf, need)
          else (ERROR_SUCCESS, rv_type v, overwrite (rv_data v) buf, need)
      end
  end.

Definition RegDeleteValue (hKey : HKEY) (name : String) (r : Registry) : Z * Registry :=
  match key_at hKey r with
  | inl e => (e, r)
  | inr (p, k) =>
      match assoc_find name (key_values k) with
      | None => (ERROR_FILE_NOT_FOUND, r)
      | Some _ => (ERROR_SUCCESS, with_hive (update_key p (del_value name) (reg_hive r)) r)
      end
  end.

Fixpoint is_prefix (p q : list String) : bool :=
  match p, q with
  | [], _ => true
  | _ :: _, [] => false
  | a :: p', b :: q' => if decide (a = b) then is_prefix p' q' else false
  end.

Definition strict_below (p q : list String) : bool :=
  is_prefix p q && negb (length q =? length p)%nat.

Definition kill_below (p : list String) (hi : HandleInfo) : HandleInfo :=
  if strict_below p (split_path (h_path hi))
  then {| h_path := h_path hi; h_alive := false |}
  else hi.

(** [RegDeleteTree(hKey, nullptr)] (and [SHDeleteKey(hKey, nullptr)]): the
    values and the subkeys of the key are deleted, the key itself stays;
    handles open on a deleted subkey become dead. *)
Definition RegDeleteTree (hKey : HKEY) (r : Registry) : Z * Registry :=
  match key_at hKey r with
  | inl e => (e, r)
  | inr (p, _) =>
      (ERROR_SUCCESS,
       {| reg_hive := update_key p (fun _ => empty_key) (reg_hive r);
          reg_handles := kill_below p <$> reg_handles r;
          reg_next := reg_next r;
          reg_calls := reg_calls r |})
  end.

(* ================================================================== *)
(** * CRegOptionsMgr::IOHandler *)
(* ================================================================== *)

(** The data members of [IOHandler].  The critical section and the thread
    and event handles have no data of their own here: the lock is the
    atomicity of the guarded regions and the thread is the worker of the
    transition system further down. *)
Record IOHandler := {
  m_registryRoot : String;
  m_bCloseHandle : bool;
  m_hKeys : gmap String HKEY;
  m_dwQueueCount : Z
}.

(** The handler together with the registry it works on. *)
Record Sys := { io : IOHandler; reg : Registry }.

(** State passing for the member functions. *)
Definition M (A : Type) : Type := Sys -> A * Sys.

Definition ret {A} (a : A) : M A := fun s => (a, s).
Definition bind {A B} (c : M A) (k : A -> M B) : M B :=
  fun s => let '(a, s') := c s in k a s'.

Notation "'let*' x := c 'in' k" := (bind c (fun x => k))
  (at level 10, x pattern, c at level 100, k at level 200, only parsing).
Notation "c ;; k" := (bind c (fun _ => k))
  (at level 100, k at level 200, right associativity, only parsing).

(** A registry API call made from a member function. *)
Definition reg_call {A} (f : Registry -> A * Registry) : M A :=
  fun s => let '(a, r) := f (reg s) in (a, {| io := io s; reg := r |}).

(** A registry API call that only reads. *)
Definition reg_read {A} (f : Registry -> A) : M A :=
  fun s => (f (reg s), s).

Definition get_io : M IOHandler := fun s => (io s, s).

Definition with_hKeys (m : gmap String HKEY) (h : IOHandler) : IOHandler :=
  {| m_registryRoot := m_registryRoot h;
     m_bCloseHandle := m_bCloseHandle h;
     m_hKeys := m;
     m_dwQueueCount := m_dwQueueCount h |}.

Definition with_registryRoot (root : String) (h : IOHandler) : IOHandler :=
  {| m_registryRoot := root;
     m_bCloseHandle := m_bCloseHandle h;
     m_hKeys := m_hKeys h;
     m_dwQueueCount := m_dwQueueCount h |}.

Definition set_hKeys (m : gmap String HKEY) : M unit :=
  fun s => (tt, {| io := with_hKeys m (io s); reg := reg s |}).

Definition set_registryRoot (root : String) : M unit :=
  fun s => (tt, {| io := with_registryRoot root (io s); reg := reg s |}).

Definition set_QueueCount (c : Z) (h : IOHandler) : IOHandler :=
  {| m_registryRoot := m_registryRoot h;
     m_bCloseHandle := m_bCloseHandle h;
     m_hKeys := m_hKeys h;
     m_dwQueueCount := c |}.

(** [InterlockedIncrement] and [InterlockedDecrement] on the [DWORD]
    counter. *)
Definition InterlockedIncrement (h : IOHandler) : IOHandler :=
  set_QueueCount (to_DWORD (m_dwQueueCount h + 1)) h.
Definition InterlockedDecrement (h : IOHandler) : IOHandler :=
  set_QueueCount (to_DWORD (m_dwQueueCount h - 1)) h.

Definition OpenKey (strPath : String) (bAlwaysCreate : bool) : M HKEY :=
  let* this := get_io in
  let strRegPath := m_registryRoot this ++ strPath in
  match m_hKeys this !! strPath with
  | None =>
      let* (retValReg, hKey) :=
        (if bAlwaysCreate
         then reg_call (RegCreateKeyEx HKEY_CURRENT_USER strRegPath)
         else reg_call (RegOpenKeyEx HKEY_CURRENT_USER strRegPath)) in
      if decide (retValReg <> ERROR_SUCCESS) then ret nullptr
      else
        set_hKeys (<[strPath := hKey]> (m_hKeys this)) ;;
        ret hKey
  | Some hKey => ret hKey
  end.

Definition CloseKey (hKey : HKEY) (strPath : String) : M unit :=
  let* this := get_io in
  if m_bCloseHandle this then
    (if decide (hKey <> nullptr)
     then reg_call (fun r => (tt, RegCloseKey hKey r))
     else ret tt) ;;
    let* this := get_io in
    set_hKeys (delete strPath (m_hKeys this))
  else ret tt.

Definition CloseKeys : M unit :=
  let* this := get_io in
  reg_call (fun r => (tt, map_fold (fun _ hKey r => RegCloseKey hKey r) r (m_hKeys this))) ;;
  set_hKeys ∅.

Section Codec.

(** [sizeof(tchar_t)]: the declaration of [tchar_t] is outside the source
    file, so its size in bytes is left open (1 for a narrow build, 2 for a
    wide one). *)
Variable sizeof_tchar_t : positive.

Definition tchar_size : nat := Pos.to_nat sizeof_tchar_t.

(** The bytes of one code unit and of a character array in memory. *)
Definition tchar_bytes (c : tchar_t) : list BYTE := le_bytes tchar_size c.
Definition tchars_bytes (s : String) : list BYTE := flat_map tchar_bytes s.

(** The memory [c_str()] points to: the characters and a terminator. *)
Definition c_str (s : String) : list BYTE := tchars_bytes (s ++ [0]).

(** [(tchar_t * )&data[0]] read as a terminated string: the code units up
    to the first zero unit.  A buffer without terminator is read to its
    end (in the program that read runs past the buffer). *)
Fixpoint read_tchars (fuel : nat) (buf : list BYTE) : String :=
  match fuel with
  | O => []
  | S f =>
      let unit := take tchar_size buf in
      if (length unit <? tchar_size)%nat then []
      else
        let c := le_value unit in
        if c =? 0 then [] else c :: read_tchars f (drop tchar_size buf)
  end.

Definition read_c_str (buf : list BYTE) : String := read_tchars (length buf) buf.

Definition GetString (v : VariantValue) : String :=
  match v with VString s => s | _ => [] end.
Definition GetInt (v : VariantValue) : Z :=
  match v with VInt i => i | _ => 0 end.
Definition GetBool (v : VariantValue) : bool :=
  match v with VBool b => b | _ => false end.

(** The [cbData] argument of the string write,
    [(DWORD)(strVal.length() + 1) * sizeof(tchar_t)], as the [DWORD]
    parameter receives it. *)
Definition string_cbData (strVal : String) : Z :=
  to_DWORD (to_DWORD (Z.of_nat (length strVal) + 1) * Z.pos sizeof_tchar_t).

(** The value type and the data bytes [SaveValueToReg] hands to
    [RegSetValueEx], when the value has a registry encoding. *)
Definition encode_value (value : VariantValue) : option (Z * list BYTE) :=
  match GetType value with
  | VT_STRING =>
      let strVal := GetString value in
      if (0 <? length strVal)%nat
      then Some (REG_SZ, take (Z.to_nat (string_cbData strVal)) (c_str strVal))
      else Some (REG_SZ, take (Z.to_nat (1 * Z.pos sizeof_tchar_t)) (tchars_bytes [0]))
  | VT_INT =>
      let dwordVal := to_DWORD (GetInt value) in
      Some (REG_DWORD, le_bytes 4 dwordVal)
  | VT_BOOL =>
      let dwordVal := if GetBool value then 1 else 0 in
      Some (REG_DWORD, le_bytes 4 dwordVal)
  | VT_NULL => None
  end.

Definition SaveValueToReg (hKey : HKEY) (strValueName : String) (value : VariantValue)
  : M OptResult :=
  let* (retValReg, retVal) :=
    match encode_value value with
    | Some (type, data) =>
        let* retValReg := reg_call (RegSetValueEx hKey strValueName type data) in
        ret (retValReg, OPT_OK)
    | None => ret (0, OPT_UNKNOWN_TYPE)
    end in
  if decide (retValReg <> ERROR_SUCCESS) then ret OPT_ERR else ret retVal.

(** [std::vector::resize]: truncation, or growth by zero bytes. *)
Definition vec_resize (n : Z) (buf : list BYTE) : list BYTE :=
  resize (Z.to_nat n) 0 buf.

Definition vec_set0 (b : BYTE) (buf : list BYTE) : list BYTE :=
  match buf with
  | [] => []
  | _ :: r => b :: r
  end.

(** [Read]: result code, data buffer and value type.  The whole body runs
    inside the critical section. *)
Definition Read (name : String) (dataBuf : list BYTE) : M (Z * list BYTE * Z) :=
  let '(strPath, strValueName) := SplitName name in
  let* hKey := OpenKey strPath false in
  let dataBuf := if (length dataBuf <? 256)%nat then vec_resize 256 dataBuf else dataBuf in
  let type := 0 in
  let size := to_DWORD (Z.of_nat (length dataBuf)) in
  let* (retValReg, type, dataBuf, size) :=
    (if decide (hKey <> nullptr)
     then reg_read (RegQueryValueEx hKey strValueName type (vec_set0 0 dataBuf) size)
     else ret (ERROR_FILE_NOT_FOUND, type, dataBuf, size)) in
  let* (retValReg, type, dataBuf) :=
    (if decide (retValReg = ERROR_FILE_NOT_FOUND) then ret (retValReg, type, dataBuf)
     else if decide (retValReg = ERROR_SUCCESS) then ret (retValReg, type, dataBuf)
     else if decide (retValReg = ERROR_MORE_DATA) then
       let dataBuf := vec_resize size dataBuf in
       let* (retValReg, type, dataBuf, _) :=
          reg_read (RegQueryValueEx hKey strValueName type dataBuf size) in
       ret (retValReg, type, dataBuf)
     else ret (retValReg, type, dataBuf)) in
  CloseKey hKey strPath ;;
  ret (retValReg, dataBuf, type).

(** The exit test of the wait loops of [Remove] and [WaitForQueueFlush]:
    [InterlockedCompareExchange(&m_dwQueueCount, 0, 0) != 0] keeps the loop
    spinning. *)
Definition queue_is_empty (this : IOHandler) : bool := m_dwQueueCount this =? 0.

(** The critical section of [Remove], entered once the wait loop is left. *)
Definition Remove_locked (name : String) : M OptResult :=
  let retVal := OPT_OK in
  let '(strPath, strValueName) := SplitName name in
  let* hKey := OpenKey strPath true in
  (if decide (strValueName = [])
   then reg_call (RegDeleteTree hKey)
   else reg_call (RegDeleteValue hKey strValueName)) ;;
  CloseKey hKey strPath ;;
  ret retVal.

(** [Remove] run with no other thread making progress: the wait loop is
    left only when the counter is zero, otherwise the call does not
    return. *)
Definition Remove (name : String) (s : Sys) : option (OptResult * Sys) :=
  if queue_is_empty (io s) then Some (Remove_locked name s) else None.

Definition WaitForQueueFlush (s : Sys) : option (OptResult * Sys) :=
  if queue_is_empty (io s) then Some (OPT_OK, s) else None.

(** The root path [SetRegRootKey] stores: the prefix is inserted unless
    [keyname.find(_T("Software"))] is 0. *)
Definition root_key_name (key : String) : String :=
  let ind := str_find (_T "Software") key in
  if decide (ind <> Some 0%nat)
  then _T "Software\" ++ key
  else key.

Definition SetRegRootKey (key : String) : M OptResult :=
  let keyname := root_key_name key in
  set_registryRoot keyname ;;
  let* this := get_io in
  let* (retValReg, hKey) :=
    reg_call (RegCreateKeyEx HKEY_CURRENT_USER (m_registryRoot this)) in
  if decide (retValReg = ERROR_SUCCESS)
  then reg_call (fun r => (tt, RegCloseKey hKey r)) ;; ret OPT_OK
  else ret OPT_ERR.

(** The constructor [IOHandler(path)], run on the registry [r]: the counter
    is zero, handles are kept open, no key is cached; then the root is
    set. *)
Definition IOHandler_new (path : String) (r : Registry) : Sys :=
  snd (SetRegRootKey path
         {| io := {| m_registryRoot := []; m_bCloseHandle := false;
                     m_hKeys := ∅; m_dwQueueCount := 0 |};
            reg := r |}).

End Codec.

(* ================================================================== *)
(** * COptionsMgr: the in-memory option table *)
(* ================================================================== *)

(** Modelled from the spec: the option table [m_optionsMap] and the base
    class [COptionsMgr] are declared outside the source file.  The table maps
    an option name to its value; [Get] yields Null for an unknown name. *)
Abbreviation OptionsMap := (gmap String VariantValue).

Definition Get (name : String) (m : OptionsMap) : VariantValue :=
  default VNull (m !! name).

(** Modelled from the spec: [Set(name, value) -> Ok | WrongType | NotFound];
    the value of a known option is replaced when the types agree. *)
Definition Set_ (name : String) (value : VariantValue) (m : OptionsMap)
  : OptResult * OptionsMap :=
  match m !! name with
  | None => (OPT_NOTFOUND, m)
  | Some old =>
      if decide (GetType old = GetType value)
      then (OPT_OK, <[name := value]> m)
      else (OPT_WRONG_TYPE, m)
  end.

(** Modelled from the spec: [Add(name, value) -> Ok | Err]; the option is
    entered with the given value, a Null value being refused. *)
Definition AddOption (name : String) (defaultValue : VariantValue) (m : OptionsMap)
  : OptResult * OptionsMap :=
  if decide (GetType defaultValue = VT_NULL) then (OPT_ERR, m)
  else (OPT_OK, <[name := defaultValue]> m).

(** Modelled from the spec: [COptionsMgr::RemoveOption], the removal of a
    single option from the table, NotFound when it is not there. *)
Definition COptionsMgr_RemoveOption (name : String) (m : OptionsMap)
  : OptResult * OptionsMap :=
  match m !! name with
  | None => (OPT_NOTFOUND, m)
  | Some _ => (OPT_OK, delete name m)
  end.

(* ================================================================== *)
(** * CRegOptionsMgr *)
(* ================================================================== *)

Record CRegOptionsMgr := {
  m_serializing : bool;
  m_optionsMap : OptionsMap;
  m_pIOHandler : Sys
}.

Section Manager.

Variable sizeof_tchar_t : positive.

(** [LoadValueFromBuf]: the result code and the option table afterwards.
    [value] arrives holding the expected type. *)
Definition LoadValueFromBuf (strName : String) (type : Z) (data : list BYTE)
  (value : VariantValue) (m : OptionsMap) : OptResult * OptionsMap :=
  let valType := GetType value in
  if decide (type = REG_SZ /\ valType = VT_STRING) then
    let value := SetString (read_c_str sizeof_tchar_t data) in
    Set_ strName value m
  else if decide (type = REG_DWORD) then
    if decide (valType = VT_INT) then
      let dwordValue := read_DWORD data in
      let value := SetInt dwordValue in
      Set_ strName value m
    else if decide (valType = VT_BOOL) then
      let dwordValue := read_DWORD data in
      let value := SetBool (if 0 <? dwordValue then true else false) in
      Set_ strName value m
    else (OPT_WRONG_TYPE, m)
  else (OPT_WRONG_TYPE, m).

Definition with_map (m : OptionsMap) (this : CRegOptionsMgr) : CRegOptionsMgr :=
  {| m_serializing := m_serializing this; m_optionsMap := m;
     m_pIOHandler := m_pIOHandler this |}.

Definition with_handler (s : Sys) (this : CRegOptionsMgr) : CRegOptionsMgr :=
  {| m_serializing := m_serializing this; m_optionsMap := m_optionsMap this;
     m_pIOHandler := s |}.

(** [InitOption(name, defaultValue)] for a variant default. *)
Definition InitOption (name : String) (defaultValue : VariantValue) (this : CRegOptionsMgr)
  : OptResult * CRegOptionsMgr :=
  let valType := GetType defaultValue in
  if decide (valType = VT_NULL) then (OPT_ERR, this)
  else if negb (m_serializing this) then
    let '(retVal, m) := AddOption name defaultValue (m_optionsMap this) in
    (retVal, with_map m this)
  else
    let '(retVal, m) := AddOption name defaultValue (m_optionsMap this) in
    let this := with_map m this in
    if decide (retVal = OPT_OK) then
      let dataBuf := replicate 256 0 in
      let '(retValReg, dataBuf, type, s) := Read name dataBuf (m_pIOHandler this) in
      let this := with_handler s this in
      if decide (retValReg = ERROR_SUCCESS) then
        let value := defaultValue in
        let '(retVal, m) := LoadValueFromBuf name type dataBuf value (m_optionsMap this) in
        (retVal, with_map m this)
      else (retVal, this)
    else (retVal, this).

(** [InitOption(name, int defaultValue, bool serializable)]. *)
Definition InitOption_int (name : String) (defaultValue : Z) (serializable : bool)
  (this : CRegOptionsMgr) : OptResult * CRegOptionsMgr :=
  let defValue := SetInt defaultValue in
  if serializable then InitOption name defValue this
  else
    let '(_, m) := AddOption name defValue (m_optionsMap this) in
    (OPT_OK, with_map m this).

(** The test of the erase loop of [RemoveOption]:
    [key.find(strPath) == 0 && key.length() > strPath.length() &&
     key[strPath.length()] == '/']. *)
Definition under_key_path (strPath key : String) : bool :=
  bool_decide (str_find strPath key = Some 0%nat)
  && (length strPath <? length key)%nat
  && bool_decide (key !! length strPath = Some chr_slash).

(** The part of [RemoveOption] that works on the option table, up to the
    call of [IOHandler::Remove]. *)
Definition RemoveOption_table (name : String) (m : OptionsMap) : OptResult * OptionsMap :=
  let '(strPath, strValueName) := SplitName name in
  if decide (strValueName <> []) then COptionsMgr_RemoveOption name m
  else (OPT_OK, filter (fun kv => under_key_path strPath kv.1 = false) m).

(** [RemoveOption] run with no other thread making progress; it returns
    when [IOHandler::Remove] does. *)
Definition RemoveOption (name : String) (this : CRegOptionsMgr)
  : option (OptResult * CRegOptionsMgr) :=
  let '(retVal, m) := RemoveOption_table name (m_optionsMap this) in
  let this := with_map m this in
  match Remove name (m_pIOHandler this) with
  | None => None
  | Some (_, s) => Some (retVal, with_handler s this)
  end.

(** [CRegOptionsMgr(path)]. *)
Definition CRegOptionsMgr_new (path : String) (r : Registry) : CRegOptionsMgr :=
  {| m_serializing := true; m_optionsMap := ∅; m_pIOHandler := IOHandler_new path r |}.

End Manager.

(* ================================================================== *)
(** * Text conversions and the private-profile file *)
(* ================================================================== *)

(** Modelled from the spec: [strutils::to_str] on an [int], decimal text
    with a leading minus sign for negative numbers.  [fuel] bounds the
    number of digits. *)
Fixpoint digits_of (fuel : nat) (n : Z) (acc : String) : String :=
  match fuel with
  | O => acc
  | S f =>
      let acc' := (48 + n mod 10) :: acc in
      if n / 10 =? 0 then acc' else digits_of f (n / 10) acc'
  end.

Definition to_str (i : Z) : String :=
  if i <? 0 then 45 :: digits_of 10 (- i) [] else digits_of 10 i [].

Definition digit_value (base : Z) (c : tchar_t) : option Z :=
  let d := if (48 <=? c) && (c <=? 57) then Some (c - 48)
           else if (97 <=? c) && (c <=? 122) then Some (c - 97 + 10)
           else if (65 <=? c) && (c <=? 90) then Some (c - 65 + 10)
           else None in
  match d with
  | Some v => if v <? base then Some v else None
  | None => None
  end.

Fixpoint parse_digits (base : Z) (s : String) (acc : Z) : Z :=
  match s with
  | [] => acc
  | c :: r =>
      match digit_value base c with
      | Some d => parse_digits base r (acc * base + d)
      | None => acc
      end
  end.

Definition is_space (c : tchar_t) : bool := (c =? 32) || ((9 <=? c) && (c <=? 13)).

Fixpoint skip_spaces (s : String) : String :=
  match s with
  | [] => []
  | c :: r => if is_space c then skip_spaces r else s
  end.

Definition parse_sign (s : String) : bool * String :=
  match s with
  | [] => (false, [])
  | c :: r => if c =? 45 then (true, r) else if c =? 43 then (false, r) else (false, s)
  end.

Definition skip_0x (base : Z) (s : String) : String :=
  if base =? 16 then
    match s with
    | c0 :: cx :: c :: r =>
        if (c0 =? 48) && ((cx =? 120) || (cx =? 88)) && bool_decide (digit_value 16 c <> None)
        then c :: r else s
    | _ => s
    end
  else s.

Definition clamp (lo hi z : Z) : Z := Z.max lo (Z.min hi z).

(** Modelled from the spec: [tc::tcstoll(text, &endptr, base)], the C
    library conversion: leading white space, an optional sign, for base 16
    an optional [0x], then digits up to the first character that is none;
    the result saturates at the bounds of [long long]. *)
Definition tcstoll (s : String) (base : Z) : Z :=
  let s := skip_spaces s in
  let '(neg, s) := parse_sign s in
  let s := skip_0x base s in
  let v := parse_digits base s 0 in
  clamp (- 2 ^ 63) (2 ^ 63 - 1) (if neg then - v else v).

(** Modelled from the spec: [tc::ttoi], the decimal conversion to [int]. *)
Definition ttoi (s : String) : Z :=
  let s := skip_spaces s in
  let '(neg, s) := parse_sign s in
  let v := parse_digits 10 s 0 in
  clamp (- 2 ^ 31) (2 ^ 31 - 1) (if neg then - v else v).

Definition to_lower (c : tchar_t) : tchar_t :=
  if (65 <=? c) && (c <=? 90) then c + 32 else c.

(** [tc::tcsicmp(a, b) == 0]: equality up to the case of letters. *)
Definition tcsicmp_eq (a b : String) : bool :=
  bool_decide (map to_lower a = map to_lower b).

(** The order of [std::map<String, ...>]: lexicographic on code units. *)
Fixpoint String_leb (a b : String) : bool :=
  match a, b with
  | [], _ => true
  | _ :: _, [] => false
  | x :: a', y :: b' => (x <? y) || ((x =? y) && String_leb a' b')
  end.

Definition entry_le {A} (x y : String * A) : Prop := String_leb x.1 y.1 = true.

#[global] Instance entry_le_dec {A} (x y : String * A) : Decision (entry_le x y).
Proof. unfold entry_le. apply _. Defined.

(** The entries of a [std::map] in the order a range-for visits them. *)
Definition map_entries {A} (m : gmap String A) : list (String * A) :=
  merge_sort entry_le (map_to_list m).

(** The private-profile file, by section and key. *)
Abbreviation IniFile := (gmap String (gmap String String)).

(** [WritePrivateProfileString(section, key, value, filename)] on the
    content of the file; a null [value] deletes the key. *)
Definition WritePrivateProfileString (section key : String) (value : option String)
  (f : IniFile) : IniFile :=
  match value with
  | Some v => <[section := <[key := v]> (default ∅ (f !! section))]> f
  | None =>
      match f !! section with
      | Some sec => <[section := delete key sec]> f
      | None => f
      end
  end.

Section Transfer.

Variable sizeof_tchar_t : positive.

(** A value stored into a [tchar_t]. *)
Definition to_tchar (z : Z) : tchar_t := z mod 2 ^ (8 * Z.pos sizeof_tchar_t).

Definition needs_escape (ch : tchar_t) : bool :=
  (ch =? 0) || (ch =? 27) || (ch =? 13) || (ch =? 10).

(** Modelled from the spec: [EscapeValue], defined outside the source
    file.  The characters that would break a record of the file (NUL, CR,
    LF) and the escape character itself are written as ESC followed by the
    character shifted into the printable range. *)
Fixpoint EscapeValue (text : String) : String :=
  match text with
  | [] => []
  | ch :: r =>
      if needs_escape ch then 27 :: to_tchar (ch + 64) :: EscapeValue r
      else ch :: EscapeValue r
  end.

(** Modelled from the spec: the inverse unescape on import. *)
Fixpoint UnescapeValue (text : String) : String :=
  match text with
  | [] => []
  | ch :: r =>
      if ch =? 27 then
        match r with
        | [] => [ch]
        | ch2 :: r2 => to_tchar (ch2 - 64) :: UnescapeValue r2
        end
      else ch :: UnescapeValue r
  end.

(** Modelled from the spec: [ReadIniFile(filename, section)], defined
    outside the source file: the keys of one section of the file with their
    unescaped texts. *)
Definition ReadIniFile (f : IniFile) (section : String) : gmap String String :=
  UnescapeValue <$> default ∅ (f !! section).

(** [RegEnumValue] at the index of [entry], with room for [cchValueName]
    characters of name and [cbData] bytes of data: result code, data
    buffer and [cbData] afterwards.  On success the name and the type
    returned are those of [entry]. *)
Definition RegEnumValue (entry : String * RegValue) (cchValueName : Z)
  (data : list BYTE) (cbData : Z) : Z * list BYTE * Z :=
  let need := Z.of_nat (length (rv_data entry.2)) in
  if (cchValueName <=? Z.of_nat (length entry.1)) || (cbData <? need)
  then (ERROR_MORE_DATA, data, need)
  else (ERROR_SUCCESS, overwrite (rv_data entry.2) data, need).

(** The two or three [WritePrivateProfileString] calls made for one value
    that is not in the option table. *)
Definition export_value (strName : String) (dwType : Z) (data : list BYTE)
  (file : IniFile) : IniFile :=
  if decide (dwType = REG_DWORD) then
    let file := WritePrivateProfileString (_T "WinMerge") strName
                  (Some (to_str (to_int (read_DWORD data)))) file in
    WritePrivateProfileString (_T "WinMerge.TypeInfo") strName (Some (_T "int")) file
  else if decide (dwType = REG_SZ) then
    let file := WritePrivateProfileString (_T "WinMerge") strName None file in
    let file := WritePrivateProfileString (_T "WinMerge") strName
                  (Some (EscapeValue (read_c_str sizeof_tchar_t data))) file in
    WritePrivateProfileString (_T "WinMerge.TypeInfo") strName (Some (_T "string")) file
  else file.

(** The first loop of [ExportAllUnloadedValues(hKey, strPath, ...)].  The
    loop visits the values of the key by increasing [dwIndex]; [values]
    are the values from [dwIndex] on, the head being the one
    [RegEnumValue] reports at [dwIndex] and the empty list standing for
    [ERROR_NO_MORE_ITEMS].  The result is [None] where the function
    returns [OPT_ERR] from inside the loop. *)
Fixpoint export_values (values : list (String * RegValue)) (strPath : String)
  (optionsMap : OptionsMap) (data : list BYTE) (file : IniFile)
  : option unit * IniFile :=
  match values with
  | [] => (Some tt, file)
  | entry :: rest =>
      let cbValueName := MAX_PATH in
      let cbData := to_DWORD (Z.of_nat (length data)) in
      let '(result, data, cbData) := RegEnumValue entry cbValueName data cbData in
      let '(result, data, cbData) :=
        if decide (result = ERROR_MORE_DATA) then
          let cbValueName := MAX_PATH in
          let cbData := to_DWORD (cbData * 2) in
          let data := vec_resize cbData data in
          RegEnumValue entry cbValueName data cbData
        else (result, data, cbData) in
      if decide (result = ERROR_SUCCESS) then
        let strName := strPath ++ _T "/" ++ entry.1 in
        let file :=
          if decide (optionsMap !! strName = None)
          then export_value strName (rv_type entry.2) data file
          else file in
        export_values rest strPath optionsMap data file
      else if decide (result = ERROR_NO_MORE_ITEMS) then (Some tt, file)
      else (None, file)
  end.

(** The second loop of [ExportAllUnloadedValues(hKey, strPath, ...)],
    [recurse] standing for the recursive call.  The subkeys are visited
    like the values in the first loop; [RegEnumKeyEx] has room for
    [MAX_PATH] characters of name, and the subkey it reports is opened for
    reading and closed after the recursive call. *)
Fixpoint export_subkeys (recurse : RegKey -> String -> IniFile -> OptResult * IniFile)
  (strPath : String) (subkeys : list (String * RegKey)) (file : IniFile)
  : OptResult * IniFile :=
  match subkeys with
  | [] => (OPT_OK, file)
  | sub :: rest =>
      if MAX_PATH <=? Z.of_nat (length sub.1) then (OPT_ERR, file)
      else
        let '(retVal, file) :=
          recurse sub.2
            (if decide (strPath = []) then sub.1 else strPath ++ _T "\" ++ sub.1)
            file in
        if decide (retVal <> OPT_OK) then (retVal, file)
        else export_subkeys recurse strPath rest file
  end.

(** [ExportAllUnloadedValues(hKey, strPath, filename, optionsMap)], [hKey]
    being a handle on the key [k]. *)
Fixpoint ExportAllUnloadedValues_key (k : RegKey) (strPath : String)
  (optionsMap : OptionsMap) (file : IniFile) {struct k} : OptResult * IniFile :=
  match k with
  | MkKey values subkeys =>
      match export_values values strPath optionsMap (replicate (Z.to_nat MAX_PATH) 0) file with
      | (None, file) => (OPT_ERR, file)
      | (Some _, file) =>
          export_subkeys
            (fun hSubKey strPath file =>
               ExportAllUnloadedValues_key hSubKey strPath optionsMap file)
            strPath subkeys file
      end
  end.

(** [ExportAllUnloadedValues(filename, optionsMap)]: the root key is
    opened for reading and closed again, the handle cache is not used. *)
Definition ExportAllUnloadedValues (optionsMap : OptionsMap) (file : IniFile) (s : Sys)
  : OptResult * IniFile :=
  match find_key (split_path (m_registryRoot (io s))) (reg_hive (reg s)) with
  | None => (OPT_ERR, file)
  | Some k => ExportAllUnloadedValues_key k (_T "") optionsMap file
  end.

(** The value [ImportAllUnloadedValues] builds from a text and its type
    name. *)
Definition import_value (strType strValue : String) : VariantValue :=
  let value := VNull in
  if tcsicmp_eq strType (_T "bool") then SetBool (negb (ttoi strValue =? 0))
  else if tcsicmp_eq strType (_T "int") then
    let uval := to_DWORD (tcstoll strValue
                  (if (2 <=? length strValue)%nat && bool_decide (strValue !! 1%nat = Some 120)
                   then 16 else 10)) in
    SetInt uval
  else if tcsicmp_eq strType (_T "string") then SetString strValue
  else value.

(** The body of the loop of [ImportAllUnloadedValues] for one entry. *)
Definition import_entry (optionsMap : OptionsMap) (iniFileKeyTypes : gmap String String)
  (key strValue : String) : M unit :=
  if decide (optionsMap !! key = None /\ iniFileKeyTypes !! key <> None) then
    let '(strPath, strValueName) := SplitName key in
    let* hKey := OpenKey strPath true in
    if decide (hKey <> nullptr) then
      let strType := default [] (iniFileKeyTypes !! key) in
      let value := import_value strType strValue in
      let* _ := SaveValueToReg sizeof_tchar_t hKey strValueName value in
      CloseKey hKey strPath
    else ret tt
  else ret tt.

Fixpoint import_entries (optionsMap : OptionsMap) (iniFileKeyTypes : gmap String String)
  (entries : list (String * String)) : M unit :=
  match entries with
  | [] => ret tt
  | (key, strValue) :: rest =>
      import_entry optionsMap iniFileKeyTypes key strValue ;;
      import_entries optionsMap iniFileKeyTypes rest
  end.

Definition ImportAllUnloadedValues (file : IniFile) (optionsMap : OptionsMap) : M OptResult :=
  let iniFileKeyValues := ReadIniFile file (_T "WinMerge") in
  let iniFileKeyTypes := ReadIniFile file (_T "WinMerge.TypeInfo") in
  import_entries optionsMap iniFileKeyTypes (map_entries iniFileKeyValues) ;;
  ret OPT_OK.

End Transfer.

(* ================================================================== *)
(** * The writer thread and its callers *)
(* ================================================================== *)

Record AsyncWriterThreadParams := { p_name : String; p_value : VariantValue }.

(** Where the calling thread stands.  Between two calls it is [Idle]; the
    other states are the points inside [WriteAsync], [Remove] and
    [WaitForQueueFlush] at which the worker may run in between. *)
Inductive CallerPC :=
| Idle
| WriteAsync_posting (pParam : AsyncWriterThreadParams)
    (* counter incremented, PostThreadMessage not yet called *)
| WriteAsync_failed (pParam : AsyncWriterThreadParams)
    (* PostThreadMessage returned FALSE *)
| Remove_waiting (name : String)
    (* in the wait loop *)
| Remove_entering (name : String)
    (* wait loop left, critical section not yet entered *)
| Flush_waiting.

(** Where the worker stands in the loop of [AsyncWriterThreadProc]. *)
Inductive WorkerPC :=
| Worker_idle
    (* in GetMessage *)
| Worker_got (pParam : AsyncWriterThreadParams)
    (* message taken, critical section not yet entered *)
| Worker_applied (pParam : AsyncWriterThreadParams)
    (* critical section left, counter not yet decremented *).

Record World := {
  w_sys : Sys;
  w_queue : list AsyncWriterThreadParams;   (* WM_USER messages posted, oldest first *)
  w_caller : CallerPC;
  w_worker : WorkerPC
}.

(** The atomic steps of the two threads.  A critical section is one step. *)
Inductive Event :=
| E_WriteAsync_inc (pParam : AsyncWriterThreadParams)
    (* new AsyncWriterThreadParams; InterlockedIncrement *)
| E_WriteAsync_posted
    (* PostThreadMessage succeeded; WriteAsync returns *)
| E_WriteAsync_refused
    (* PostThreadMessage failed *)
| E_WriteAsync_dropped
    (* delete pParam; InterlockedDecrement; WriteAsync returns *)
| E_Worker_get
    (* GetMessage hands out the oldest message *)
| E_Worker_apply
    (* EnterCriticalSection ... LeaveCriticalSection *)
| E_Worker_done
    (* delete pParam; InterlockedDecrement *)
| E_Remove_call (name : String)
| E_Remove_spin
    (* counter read non-zero; Sleep(0) *)
| E_Remove_pass
    (* counter read zero *)
| E_Remove_return
    (* the critical section of Remove; Remove returns *)
| E_Flush_call
| E_Flush_spin
| E_Flush_return
| E_Read (name : String) (dataBuf : list BYTE)
| E_CloseKeys.

Definition is_worker_event (e : Event) : bool :=
  match e with
  | E_Worker_get | E_Worker_apply | E_Worker_done => true
  | _ => false
  end.

Section Threads.

Variable sizeof_tchar_t : positive.

(** The number of messages the queue of the worker thread takes before
    [PostThreadMessage] fails. *)
Variable queue_limit : nat.

(** The critical section of the worker for one message. *)
Definition Worker_write (pParam : AsyncWriterThreadParams) : M unit :=
  let '(strPath, strValueName) := SplitName (p_name pParam) in
  let* hKey := OpenKey strPath true in
  let* _ := SaveValueToReg sizeof_tchar_t hKey strValueName (p_value pParam) in
  CloseKey hKey strPath.

Definition with_sys (s : Sys) (w : World) : World :=
  {| w_sys := s; w_queue := w_queue w; w_caller := w_caller w; w_worker := w_worker w |}.
Definition with_io (f : IOHandler -> IOHandler) (w : World) : World :=
  with_sys {| io := f (io (w_sys w)); reg := reg (w_sys w) |} w.
Definition with_queue (q : list AsyncWriterThreadParams) (w : World) : World :=
  {| w_sys := w_sys w; w_queue := q; w_caller := w_caller w; w_worker := w_worker w |}.
Definition with_caller (c : CallerPC) (w : World) : World :=
  {| w_sys := w_sys w; w_queue := w_queue w; w_caller := c; w_worker := w_worker w |}.
Definition with_worker (c : WorkerPC) (w : World) : World :=
  {| w_sys := w_sys w; w_queue := w_queue w; w_caller := w_caller w; w_worker := c |}.

(** One step: the world after the event, or [None] when the event cannot
    happen in this world.  [PostThreadMessage] can fail at any time and can
    succeed only while the queue has room. *)
Definition step (e : Event) (w : World) : option World :=
  match e, w_caller w, w_worker w with
  | E_WriteAsync_inc pParam, Idle, _ =>
      Some (with_caller (WriteAsync_posting pParam) (with_io InterlockedIncrement w))
  | E_WriteAsync_posted, WriteAsync_posting pParam, _ =>
      if (length (w_queue w) <? queue_limit)%nat
      then Some (with_caller Idle (with_queue (w_queue w ++ [pParam]) w))
      else None
  | E_WriteAsync_refused, WriteAsync_posting pParam, _ =>
      Some (with_caller (WriteAsync_failed pParam) w)
  | E_WriteAsync_dropped, WriteAsync_failed pParam, _ =>
      Some (with_caller Idle (with_io InterlockedDecrement w))
  | E_Worker_get, _, Worker_idle =>
      match w_queue w with
      | [] => None
      | pParam :: q => Some (with_worker (Worker_got pParam) (with_queue q w))
      end
  | E_Worker_apply, _, Worker_got pParam =>
      Some (with_worker (Worker_applied pParam)
              (with_sys (Worker_write pParam (w_sys w)).2 w))
  | E_Worker_done, _, Worker_applied pParam =>
      Some (with_worker Worker_idle (with_io InterlockedDecrement w))
  | E_Remove_call name, Idle, _ =>
      Some (with_caller (Remove_waiting name) w)
  | E_Remove_spin, Remove_waiting name, _ =>
      if queue_is_empty (io (w_sys w)) then None else Some w
  | E_Remove_pass, Remove_waiting name, _ =>
      if queue_is_empty (io (w_sys w))
      then Some (with_caller (Remove_entering name) w) else None
  | E_Remove_return, Remove_entering name, _ =>
      Some (with_caller Idle (with_sys (Remove_locked name (w_sys w)).2 w))
  | E_Flush_call, Idle, _ =>
      Some (with_caller Flush_waiting w)
  | E_Flush_spin, Flush_waiting, _ =>
      if queue_is_empty (io (w_sys w)) then None else Some w
  | E_Flush_return, Flush_waiting, _ =>
      if queue_is_empty (io (w_sys w)) then Some (with_caller Idle w) else None
  | E_Read name dataBuf, Idle, _ =>
      Some (with_sys (Read name dataBuf (w_sys w)).2 w)
  | E_CloseKeys, Idle, _ =>
      Some (with_sys (CloseKeys (w_sys w)).2 w)
  | _, _, _ => None
  end.

(** A run: the events in the order they happen. *)
Fixpoint run (tr : list Event) (w : World) : option World :=
  match tr with
  | [] => Some w
  | e :: tr' =>
      match step e w with
      | Some w' => run tr' w'
      | None => None
      end
  end.

(** The world once the constructor has returned: the worker waits in
    [GetMessage] on an empty queue. *)
Definition World_new (path : String) (r : Registry) : World :=
  {| w_sys := IOHandler_new path r; w_queue := []; w_caller := Idle;
     w_worker := Worker_idle |}.

(** The writes under way: counted by [WriteAsync] and neither dropped nor
    completed by the worker. *)
Definition in_flight (w : World) : nat :=
  (match w_caller w with
   | WriteAsync_posting _ | WriteAsync_failed _ => 1
   | _ => 0
   end
   + length (w_queue w)
   + match w_worker w with
     | Worker_idle => 0
     | _ => 1
     end)%nat.

Definition count_events (f : Event -> bool) (tr : list Event) : nat :=
  length (filter (fun e => f e = true) tr).

Definition is_inc (e : Event) : bool :=
  match e with E_WriteAsync_inc _ => true | _ => false end.
Definition is_posted (e : Event) : bool :=
  match e with E_WriteAsync_posted => true | _ => false end.
Definition is_refused (e : Event) : bool :=
  match e with E_WriteAsync_refused => true | _ => false end.
Definition is_dropped (e : Event) : bool :=
  match e with E_WriteAsync_dropped => true | _ => false end.
Definition is_get (e : Event) : bool :=
  match e with E_Worker_get => true | _ => false end.
Definition is_apply (e : Event) : bool :=
  match e with E_Worker_apply => true | _ => false end.
Definition is_done (e : Event) : bool :=
  match e with E_Worker_done => true | _ => false end.

End Threads.

(* ================================================================== *)
(** * CRegOptionsMgr: saving, flushing, the other overloads *)
(* ================================================================== *)

(** [SaveOption(name)]: the result, and the arguments of the call of
    [WriteAsync] when the call is made.  [WriteAsync] returns nothing, so
    the result does not depend on what becomes of the write; the steps of
    [WriteAsync] are those of the transition system above. *)
Definition SaveOption (name : String) (this : CRegOptionsMgr)
  : OptResult * option AsyncWriterThreadParams :=
  if negb (m_serializing this) then (OPT_OK, None)
  else
    let retVal := OPT_OK in
    let value := Get name (m_optionsMap this) in
    let valType := GetType value in
    let retVal := if decide (valType = VT_NULL) then OPT_NOTFOUND else retVal in
    if decide (retVal = OPT_OK)
    then (retVal, Some {| p_name := name; p_value := value |})
    else (retVal, None).

(** [SaveOption(name, value)] for a variant value: the result, the manager
    and the call of [WriteAsync] made, if any. *)
Definition SaveOption_value (name : String) (value : VariantValue) (this : CRegOptionsMgr)
  : OptResult * CRegOptionsMgr * option AsyncWriterThreadParams :=
  let '(retVal, m) := Set_ name value (m_optionsMap this) in
  let this := with_map m this in
  if decide (retVal = OPT_OK) then
    let '(retVal, request) := SaveOption name this in
    (retVal, this, request)
  else (retVal, this, None).

(** [SaveOption(name, const String&)], [SaveOption(name, int)] and
    [SaveOption(name, bool)]; the overload for [const tchar_t *] builds the
    string and calls the first. *)
Definition SaveOption_String (name : String) (value : String) (this : CRegOptionsMgr)
  : OptResult * CRegOptionsMgr * option AsyncWriterThreadParams :=
  let val := SetString value in
  let '(retVal, m) := Set_ name val (m_optionsMap this) in
  let this := with_map m this in
  if decide (retVal = OPT_OK) then
    let '(retVal, request) := SaveOption name this in
    (retVal, this, request)
  else (retVal, this, None).

Definition SaveOption_int (name : String) (value : Z) (this : CRegOptionsMgr)
  : OptResult * CRegOptionsMgr * option AsyncWriterThreadParams :=
  let val := SetInt value in
  let '(retVal, m) := Set_ name val (m_optionsMap this) in
  let this := with_map m this in
  if decide (retVal = OPT_OK) then
    let '(retVal, request) := SaveOption name this in
    (retVal, this, request)
  else (retVal, this, None).

Definition SaveOption_bool (name : String) (value : bool) (this : CRegOptionsMgr)
  : OptResult * CRegOptionsMgr * option AsyncWriterThreadParams :=
  let val := SetBool value in
  let '(retVal, m) := Set_ name val (m_optionsMap this) in
  let this := with_map m this in
  if decide (retVal = OPT_OK) then
    let '(retVal, request) := SaveOption name this in
    (retVal, this, request)
  else (retVal, this, None).

(** [InitOption(name, const String&)] and [InitOption(name, bool)]. *)
Definition InitOption_String (sz : positive) (name : String) (defaultValue : String)
  (this : CRegOptionsMgr) : OptResult * CRegOptionsMgr :=
  let defValue := SetString defaultValue in
  InitOption sz name defValue this.

Definition InitOption_bool (sz : positive) (name : String) (defaultValue : bool)
  (this : CRegOptionsMgr) : OptResult * CRegOptionsMgr :=
  let defValue := SetBool defaultValue in
  InitOption sz name defValue this.

(** [FlushOptions] and [CRegOptionsMgr::CloseKeys]. *)
Definition FlushOptions (this : CRegOptionsMgr) : option (OptResult * CRegOptionsMgr) :=
  match WaitForQueueFlush (m_pIOHandler this) with
  | Some (retVal, s) => Some (retVal, with_handler s this)
  | None => None
  end.

Definition CRegOptionsMgr_CloseKeys (this : CRegOptionsMgr) : CRegOptionsMgr :=
  with_handler (CloseKeys (m_pIOHandler this)).2 this.

(* ================================================================== *)
(** * Auxiliary definitions *)
(* ================================================================== *)

(** The members no registry access touches: the root, the close flag and
    the counter. *)
Definition config (s : Sys) : String * bool * Z :=
  (m_registryRoot (io s), m_bCloseHandle (io s), m_dwQueueCount (io s)).

(** The first and the second query of [Read], as one function of the
    handle, the buffer and the registry. *)
Definition Read_query (hKey : HKEY) (strValueName : String) (dataBuf : list BYTE)
  (r : Registry) : Z * list BYTE * Z :=
  let dataBuf := if (length dataBuf <? 256)%nat then vec_resize 256 dataBuf else dataBuf in
  let size := to_DWORD (Z.of_nat (length dataBuf)) in
  let '(retValReg, type, dataBuf, size) :=
    if decide (hKey <> nullptr)
    then RegQueryValueEx hKey strValueName 0 (vec_set0 0 dataBuf) size r
    else (ERROR_FILE_NOT_FOUND, 0, dataBuf, size) in
  if decide (retValReg = ERROR_FILE_NOT_FOUND) then (retValReg, dataBuf, type)
  else if decide (retValReg = ERROR_SUCCESS) then (retValReg, dataBuf, type)
  else if decide (retValReg = ERROR_MORE_DATA) then
    let '(retValReg, type, dataBuf, _) :=
      RegQueryValueEx hKey strValueName type (vec_resize size dataBuf) size r in
    (retValReg, dataBuf, type)
  else (retValReg, dataBuf, type).

(** A registry with the given keys and no handle open yet. *)
Definition fresh_registry (hive : RegKey) : Registry :=
  {| reg_hive := hive; reg_handles := ∅; reg_next := 1; reg_calls := 0 |}.

(** The decoding of the value codec in the words of the specification:
    the value a stored pair of bytes and type tag denotes for a caller that
    expects the type [expected], if any. *)
Definition Decode (sz : positive) (data : list BYTE) (typeTag : Z) (expected : VT_TYPE)
  : option VariantValue :=
  match expected with
  | VT_INT => if decide (typeTag = REG_DWORD) then Some (VInt (to_int (read_DWORD data))) else None
  | VT_BOOL => if decide (typeTag = REG_DWORD) then Some (VBool (0 <? read_DWORD data)) else None
  | VT_STRING => if decide (typeTag = REG_SZ) then Some (VString (read_c_str sz data)) else None
  | VT_NULL => None
  end.

(** The value of the given name in the key of the given components. *)
Definition value_at (comps : list String) (n : String) (hive : RegKey) : option RegValue :=
  match find_key comps hive with
  | Some k => assoc_find n (key_values k)
  | None => None
  end.

(** The components of the key an option name is stored under. *)
Definition key_of (s : Sys) (strPath : String) : list String :=
  split_path (m_registryRoot (io s) ++ strPath).

(** What the registry holds for an option name. *)
Definition stored (s : Sys) (name : String) : option RegValue :=
  value_at (key_of s (SplitName name).1) (SplitName name).2 (reg_hive (reg s)).

(** Every cached handle is open on the key of its path, that key exists
    and has not been deleted under the handle; handles are handed out in
    increasing order. *)
Definition cache_ok (s : Sys) : Prop :=
  (forall strPath hKey, m_hKeys (io s) !! strPath = Some hKey ->
     exists n k, hKey = Handle n
       /\ reg_handles (reg s) !! n =
            Some {| h_path := m_registryRoot (io s) ++ strPath; h_alive := true |}
       /\ find_key (key_of s strPath) (reg_hive (reg s)) = Some k)
  /\ (forall n hi, reg_handles (reg s) !! n = Some hi -> (n < reg_next (reg s))%nat).

(** A small registry used in the examples: under the root
    "Software\Thingamahoochie\WinMerge\" the key "Settings" holds the word
    250 under "Width", the text "ab" under "Name" and three raw bytes
    under "Blob"; its subkey "Colors" holds the word 7 under "Text". *)
Definition example_settings : RegKey :=
  MkKey [ (_T "Width", {| rv_type := REG_DWORD; rv_data := [250; 0; 0; 0] |});
          (_T "Name", {| rv_type := REG_SZ; rv_data := [97; 0; 98; 0; 0; 0] |});
          (_T "Blob", {| rv_type := 3; rv_data := [1; 2; 3] |}) ]
        [ (_T "Colors",
           MkKey [ (_T "Text", {| rv_type := REG_DWORD; rv_data := [7; 0; 0; 0] |}) ] []) ].

Definition example_hive : RegKey :=
  MkKey [] [ (_T "Software",
    MkKey [] [ (_T "Thingamahoochie",
      MkKey [] [ (_T "WinMerge",
        MkKey [] [ (_T "Settings", example_settings) ]) ]) ]) ].

Definition example_root : String := _T "Thingamahoochie\WinMerge\".

(** What holds of every world the threads can reach: the counter is the
    number of writes under way, the queue respects its limit, handles are
    kept open, and once [Remove] has left its wait loop nothing is under
    way. *)
Definition world_inv (limit : nat) (w : World) : Prop :=
  m_dwQueueCount (io (w_sys w)) = Z.of_nat (in_flight w)
  /\ (length (w_queue w) <= limit)%nat
  /\ m_bCloseHandle (io (w_sys w)) = false
  /\ (forall name, w_caller w = Remove_entering name -> in_flight w = 0%nat).

(** The events of a run so far, matched against the places the writes are
    at: every increment has led to a post attempt or is about to; every
    refused post has been followed by its decrement or is about to be;
    every posted message is in the queue or has been taken; every message
    taken has been applied or is about to be; every write applied has been
    followed by its decrement or is about to be. *)
Definition accounted (tr : list Event) (w : World) : Prop :=
  let n f := count_events f tr in
  n is_inc = (n is_posted + n is_refused
              + match w_caller w with WriteAsync_posting _ => 1 | _ => 0 end)%nat
  /\ n is_refused = (n is_dropped
                     + match w_caller w with WriteAsync_failed _ => 1 | _ => 0 end)%nat
  /\ n is_posted = (n is_get + length (w_queue w))%nat
  /\ n is_get = (n is_apply + match w_worker w with Worker_got _ => 1 | _ => 0 end)%nat
  /\ n is_apply = (n is_done + match w_worker w with Worker_applied _ => 1 | _ => 0 end)%nat.

(** The cache and the open handles match: every cached handle is open
    under the full path of its entry, and every open handle is the cached
    handle of some path. *)
Definition cache_wf (s : Sys) : Prop :=
  (forall strPath hKey, m_hKeys (io s) !! strPath = Some hKey ->
     exists n alive, hKey = Handle n
       /\ reg_handles (reg s) !! n =
            Some {| h_path := m_registryRoot (io s) ++ strPath; h_alive := alive |})
  /\ (forall n hi, reg_handles (reg s) !! n = Some hi ->
        (n < reg_next (reg s))%nat
        /\ exists strPath, m_hKeys (io s) !! strPath = Some (Handle n)
             /\ h_path hi = m_registryRoot (io s) ++ strPath).

(** A section of the private-profile file. *)
Definition ini_section (f : IniFile) (section : String) : gmap String String :=
  default ∅ (f !! section).

(** The values below a key with the option names the export gives them,
    in the order the export visits them. *)
Fixpoint key_entries (k : RegKey) (strPath : String) : list (String * RegValue) :=
  match k with
  | MkKey values subkeys =>
      map (fun e => (strPath ++ _T "/" ++ e.1, e.2)) values
      ++ flat_map (fun sub =>
                     key_entries sub.2
                       (if decide (strPath = []) then sub.1
                        else strPath ++ _T "\" ++ sub.1))
                  subkeys
  end.

(** The store tags the export writes an entry for. *)
Definition exportable (v : RegValue) : bool :=
  bool_decide (rv_type v = REG_DWORD) || bool_decide (rv_type v = REG_SZ).

(** Whether some of the entries makes the export write the name. *)
Definition touched (entries : list (String * RegValue)) (optionsMap : OptionsMap)
  (name : String) : bool :=
  bool_decide (optionsMap !! name = None)
  && existsb (fun e => bool_decide (e.1 = name) && exportable e.2) entries.

(** The text and the type name the export writes for a value: they are
    made from a buffer that begins with the data of the value. *)
Definition exported_as (sz : positive) (v : RegValue) (text tag : String) : Prop :=
  exists buf,
    take (length (rv_data v)) buf = rv_data v
    /\ ((rv_type v = REG_DWORD /\ tag = _T "int"
         /\ text = to_str (to_int (read_DWORD buf)))
        \/ (rv_type v = REG_SZ /\ tag = _T "string"
            /\ text = EscapeValue sz (read_c_str sz buf))).

(** How a file stands after the export of the given entries into the
    file [f0]: a name one of the entries makes it write has a text and a
    type name made from such an entry, every other name is as in [f0]. *)
Definition export_inv (sz : positive) (entries : list (String * RegValue))
  (optionsMap : OptionsMap) (f0 f : IniFile) : Prop :=
  forall name,
    if touched entries optionsMap name then
      exists v text tag,
        (name, v) ∈ entries /\ exportable v = true
        /\ ini_section f (_T "WinMerge") !! name = Some text
        /\ ini_section f (_T "WinMerge.TypeInfo") !! name = Some tag
        /\ exported_as sz v text tag
    else
      ini_section f (_T "WinMerge") !! name = ini_section f0 (_T "WinMerge") !! name
      /\ ini_section f (_T "WinMerge.TypeInfo") !! name
         = ini_section f0 (_T "WinMerge.TypeInfo") !! name.

(** The characters of a decimal text. *)
Definition is_digit (c : Z) : Prop := 48 <= c <= 57.
Definition is_decimal_char (c : Z) : Prop := is_digit c \/ c = 45.

(** The registry value the import writes for an entry of the file, if it
    writes one: the entry must be absent from the option table and have a
    type name, and the value made from it must have a registry encoding. *)
Definition import_write (sz : positive) (optionsMap : OptionsMap)
  (types : gmap String String) (key strValue : String) : option RegValue :=
  if decide (optionsMap !! key = None /\ types !! key <> None) then
    match encode_value sz (import_value (default [] (types !! key)) strValue) with
    | Some (type, data) => Some {| rv_type := type; rv_data := data |}
    | None => None
    end
  else None.

(** The place in the registry an option name is stored at. *)
Definition location (s : Sys) (name : String) : list String * String :=
  (key_of s (SplitName name).1, (SplitName name).2).

(** The value the export reads from a registry value: it is decoded
    from a buffer that begins with the data of the registry value. *)
Definition exported_value (sz : positive) (v : RegValue) (value : VariantValue) : Prop :=
  exists buf,
    take (length (rv_data v)) buf = rv_data v
    /\ ((rv_type v = REG_DWORD /\ value = VInt (to_int (read_DWORD buf)))
        \/ (rv_type v = REG_SZ /\ value = VString (read_c_str sz buf))).

(** The text and the type name [export_value] writes for a value. *)
Definition text_codec (sz : positive) (value : VariantValue) : option (String * String) :=
  match value with
  | VInt i => Some (to_str i, _T "int")
  | VString str => Some (EscapeValue sz str, _T "string")
  | _ => None
  end.

(** Names as the registry editor makes them: a key name is not empty and
    holds no backslash, and here a value name holds no slash. *)
Definition has_backslash (s : String) : bool := existsb (Z.eqb chr_backslash) s.

Definition wf_key_name (n : String) : bool :=
  negb (bool_decide (n = [])) && negb (has_backslash n).

Fixpoint wf_tree (k : RegKey) : bool :=
  match k with
  | MkKey values subkeys =>
      forallb (fun e => negb (has_slash e.1)) values
      && forallb (fun sub => wf_key_name sub.1 && wf_tree sub.2) subkeys
  end.

(** The path of a key below the root, from the names of the keys on the
    way to it. *)
Fixpoint join_path (comps : list String) : String :=
  match comps with
  | [] => []
  | c :: rest =>
      match rest with
      | [] => c
      | _ => c ++ _T "\" ++ join_path rest
      end
  end.

(** A character that is not the terminator and fits [tchar_t]. *)
Definition tchar_ok (sz : positive) (c : tchar_t) : Prop := 0 < c < 256 ^ Z.pos sz.

(** The values the registry encoding keeps in full: an [int], a [bool],
    and a string of such characters whose byte count fits a [DWORD]. *)
Definition storable (sz : positive) (value : VariantValue) : Prop :=
  match value with
  | VInt i => - 2 ^ 31 <= i < 2 ^ 31
  | VBool _ => True
  | VString str =>
      Forall (tchar_ok sz) str /\ (Z.of_nat (length str) + 1) * Z.pos sz < 2 ^ 32
  | VNull => False
  end.

(** No two values and no two subkeys of a key have the same name, as in
    a registry. *)
Fixpoint unique_names (k : RegKey) : bool :=
  match k with
  | MkKey values subkeys =>
      bool_decide (NoDup (map fst values))
      && bool_decide (NoDup (map fst subkeys))
      && forallb (fun sub => unique_names sub.2) subkeys
  end.

(** The names [RegEnumValue] and [RegEnumKeyEx] have room for in the
    buffers of the export, and the sizes of data the doubling of the data
    buffer reaches. *)
Fixpoint short_names (k : RegKey) : bool :=
  match k with
  | MkKey values subkeys =>
      forallb (fun e => Z.of_nat (length e.1) <? MAX_PATH) values
      && forallb (fun sub => (Z.of_nat (length sub.1) <? MAX_PATH) && short_names sub.2) subkeys
  end.

Fixpoint small_data (k : RegKey) : bool :=
  match k with
  | MkKey values subkeys =>
      forallb (fun e => Z.of_nat (length (rv_data e.2)) <? 2 ^ 31) values
      && forallb (fun sub => small_data sub.2) subkeys
  end.

(** The writes of a trace whose message was posted, in the order of the
    posts; [pending] is the write between its increment and its post. *)
Fixpoint posted_params (pending : option AsyncWriterThreadParams) (tr : list Event)
  : list AsyncWriterThreadParams :=
  match tr with
  | [] => []
  | E_WriteAsync_inc pParam :: tr' => posted_params (Some pParam) tr'
  | E_WriteAsync_posted :: tr' =>
      match pending with
      | Some pParam => pParam :: posted_params None tr'
      | None => posted_params None tr'
      end
  | E_WriteAsync_refused :: tr' => posted_params None tr'
  | _ :: tr' => posted_params pending tr'
  end.

(** The writes the worker applies in a run, in the order it applies
    them. *)
Fixpoint applied_params (sz : positive) (limit : nat) (tr : list Event) (w : World)
  : list AsyncWriterThreadParams :=
  match tr with
  | [] => []
  | e :: tr' =>
      match step sz limit e w with
      | None => []
      | Some w' =>
          match e, w_worker w with
          | E_Worker_apply, Worker_got pParam => pParam :: applied_params sz limit tr' w'
          | _, _ => applied_params sz limit tr' w'
          end
      end
  end.

(** The write between its increment and its post, and the message the
    worker has taken and not yet applied. *)
Definition pending_of (w : World) : option AsyncWriterThreadParams :=
  match w_caller w with
  | WriteAsync_posting pParam => Some pParam
  | _ => None
  end.

Definition taken (w : World) : list AsyncWriterThreadParams :=
  match w_worker w with
  | Worker_got pParam => [pParam]
  | _ => []
  end.

(** The handler with another value of the counter. *)
Definition with_count (c : Z) (s : Sys) : Sys :=
  {| io := set_QueueCount c (io s); reg := reg s |}.

(** The handler once the worker has applied the given writes, one after
    the other. *)
Definition settle (sz : positive) (l : list AsyncWriterThreadParams) (s : Sys) : Sys :=
  fold_left (fun s pParam => (Worker_write sz pParam s).2) l s.

(** The writes still to be applied when every post succeeds: the message
    the worker holds, the queue, and the write about to be posted. *)
Definition awaiting (w : World) : list AsyncWriterThreadParams :=
  taken w ++ w_queue w ++ match pending_of w with Some pParam => [pParam] | None => [] end.

(** The events between the increment of [WriteAsync] and the return of
    [WaitForQueueFlush] when the caller does nothing else and the post
    succeeds: the post, the steps of the worker, the call and the spinning
    of [WaitForQueueFlush]. *)
Definition is_quiet (e : Event) : bool :=
  match e with
  | E_WriteAsync_posted | E_Worker_get | E_Worker_apply | E_Worker_done
  | E_Flush_call | E_Flush_spin => true
  | _ => false
  end.

(** [ImportAllUnloadedValues] calls [OpenKey] without the lock, so that a
    step of another thread can come between the test of the cache (line
    73) and the branch taken when the test found no entry (lines 75 to
    91).  This is that branch. *)
Definition OpenKey_open (strPath : String) (bAlwaysCreate : bool) : M HKEY :=
  let* this := get_io in
  let strRegPath := m_registryRoot this ++ strPath in
  let* (retValReg, hKey) :=
    (if bAlwaysCreate
     then reg_call (RegCreateKeyEx HKEY_CURRENT_USER strRegPath)
     else reg_call (RegOpenKeyEx HKEY_CURRENT_USER strRegPath)) in
  if decide (retValReg <> ERROR_SUCCESS) then ret nullptr
  else
    set_hKeys (<[strPath := hKey]> (m_hKeys this)) ;;
    ret hKey.




(* ================================================================== *)
(** * Proofs *)
(* ================================================================== *)

(* ------------------------------------------------------------------ *)
(** ** Strings *)

Lemma starts_with_app (pat s : String) :
  starts_with pat s = true <-> exists rest, s = pat ++ rest.
Proof.
  revert s. induction pat as [|a pat IH]; intros s; simpl.
  - split; [intros _; exists s; reflexivity | reflexivity].
  - destruct s as [|b s].
    + split; [discriminate | intros [rest H]; discriminate].
    + rewrite andb_true_iff, Z.eqb_eq, IH. split.
      * intros [-> [rest ->]]. exists rest. reflexivity.
      * intros [rest H]. injection H as -> ->. split; [reflexivity | eauto].
Qed.

Lemma str_find_from_ge (pos : nat) (pat s : String) (i : nat) :
  str_find_from pos pat s = Some i -> (pos <= i)%nat.
Proof.
  revert pos. induction s as [|c s IH]; intros pos; simpl.
  - destruct (starts_with pat []); [intros [= <-]; lia | discriminate].
  - destruct (starts_with pat (c :: s)); [intros [= <-]; lia |].
    intros H. apply IH in H. lia.
Qed.

Lemma str_find_zero (pat s : String) :
  str_find pat s = Some 0%nat <-> starts_with pat s = true.
Proof.
  unfold str_find. destruct s as [|c s]; simpl.
  - destruct (starts_with pat []); split; congruence.
  - destruct (starts_with pat (c :: s)) eqn:E; [split; congruence |].
    split; [|discriminate]. intros H. apply str_find_from_ge in H. lia.
Qed.

Lemma root_key_name_cases (key : String) :
  root_key_name key =
    if starts_with (_T "Software") key then key else _T "Software\" ++ key.
Proof.
  unfold root_key_name.
  destruct (starts_with (_T "Software") key) eqn:E.
  - apply str_find_zero in E. rewrite E. reflexivity.
  - destruct (decide (str_find (_T "Software") key <> Some 0%nat)) as [|n]; [reflexivity|].
    exfalso. apply n. intros H. apply str_find_zero in H. congruence.
Qed.

(* ------------------------------------------------------------------ *)
(** ** What the member functions leave alone *)

Arguments RegCreateKeyEx : simpl never.
Arguments RegOpenKeyEx : simpl never.
Arguments RegCloseKey : simpl never.
Arguments RegSetValueEx : simpl never.
Arguments RegQueryValueEx : simpl never.
Arguments RegDeleteValue : simpl never.
Arguments RegDeleteTree : simpl never.

Ltac munfold :=
  unfold bind, ret, reg_call, reg_read, get_io, set_hKeys, set_registryRoot in *.

(** [OpenKey] by cases on the cache. *)
Lemma OpenKey_eq strPath bAlwaysCreate s :
  OpenKey strPath bAlwaysCreate s =
    match m_hKeys (io s) !! strPath with
    | Some hKey => (hKey, s)
    | None =>
        let '(retValReg, hKey, r) :=
          (if bAlwaysCreate then RegCreateKeyEx else RegOpenKeyEx)
            HKEY_CURRENT_USER (m_registryRoot (io s) ++ strPath) (reg s) in
        if decide (retValReg <> ERROR_SUCCESS)
        then (nullptr, {| io := io s; reg := r |})
        else (hKey, {| io := with_hKeys (<[strPath := hKey]> (m_hKeys (io s))) (io s);
                       reg := r |})
    end.
Proof.
  unfold OpenKey. munfold.
  destruct (m_hKeys (io s) !! strPath); [reflexivity|].
  destruct bAlwaysCreate.
  - destruct (RegCreateKeyEx _ _ _) as [[ret h] r]. simpl.
    destruct (decide (ret <> ERROR_SUCCESS)); reflexivity.
  - destruct (RegOpenKeyEx _ _ _) as [[ret h] r]. simpl.
    destruct (decide (ret <> ERROR_SUCCESS)); reflexivity.
Qed.

Lemma CloseKey_eq hKey strPath s :
  CloseKey hKey strPath s =
    if m_bCloseHandle (io s) then
      (tt, {| io := with_hKeys (delete strPath (m_hKeys (io s))) (io s);
              reg := if decide (hKey <> nullptr) then RegCloseKey hKey (reg s) else reg s |})
    else (tt, s).
Proof.
  unfold CloseKey. munfold.
  destruct (m_bCloseHandle (io s)); [|reflexivity].
  destruct (decide (hKey <> nullptr)); reflexivity.
Qed.

Lemma OpenKey_config strPath bAlwaysCreate s :
  config (OpenKey strPath bAlwaysCreate s).2 = config s.
Proof.
  rewrite OpenKey_eq. destruct (m_hKeys (io s) !! strPath); [reflexivity|].
  destruct ((if bAlwaysCreate then RegCreateKeyEx else RegOpenKeyEx) _ _ _) as [[ret h] r].
  destruct (decide (ret <> ERROR_SUCCESS)); reflexivity.
Qed.

Lemma CloseKey_config hKey strPath s :
  config (CloseKey hKey strPath s).2 = config s.
Proof. rewrite CloseKey_eq. destruct (m_bCloseHandle (io s)); reflexivity. Qed.

Lemma CloseKeys_config s : config (CloseKeys s).2 = config s.
Proof. reflexivity. Qed.

Lemma bind_snd {A B} (c : M A) (k : A -> M B) s :
  (bind c k s).2 = (k (c s).1 (c s).2).2.
Proof. unfold bind. destruct (c s). reflexivity. Qed.

Lemma bind_fst {A B} (c : M A) (k : A -> M B) s :
  (bind c k s).1 = (k (c s).1 (c s).2).1.
Proof. unfold bind. destruct (c s). reflexivity. Qed.

Lemma bind_eq {A B} (c : M A) (k : A -> M B) s a s' :
  c s = (a, s') -> bind c k s = k a s'.
Proof. unfold bind. intros ->. reflexivity. Qed.

Lemma reg_call_config {A} (f : Registry -> A * Registry) s :
  config (reg_call f s).2 = config s.
Proof. unfold reg_call. destruct (f (reg s)). reflexivity. Qed.

Lemma SaveValueToReg_config sz hKey name value s :
  config (SaveValueToReg sz hKey name value s).2 = config s.
Proof.
  unfold SaveValueToReg. rewrite bind_snd.
  destruct (encode_value sz value) as [[type data]|].
  - rewrite bind_fst, bind_snd. simpl.
    destruct (decide _); simpl; apply reg_call_config.
  - reflexivity.
Qed.

Lemma Read_eq name dataBuf s :
  Read name dataBuf s =
    let '(strPath, strValueName) := SplitName name in
    let '(hKey, s1) := OpenKey strPath false s in
    (Read_query hKey strValueName dataBuf (reg s1), (CloseKey hKey strPath s1).2).
Proof.
  unfold Read, Read_query. destruct (SplitName name) as [strPath strValueName].
  unfold bind at 1. destruct (OpenKey strPath false s) as [hKey s1].
  unfold bind at 1.
  destruct (decide (hKey <> nullptr)).
  - unfold reg_read at 1.
    destruct (RegQueryValueEx _ _ _ _ _ _) as [[[code type] buf] size].
    unfold bind at 1.
    destruct (decide (code = ERROR_FILE_NOT_FOUND)); [unfold ret at 1, bind; simpl;
      destruct (CloseKey _ _ _); reflexivity|].
    destruct (decide (code = ERROR_SUCCESS)); [unfold ret at 1, bind; simpl;
      destruct (CloseKey _ _ _); reflexivity|].
    destruct (decide (code = ERROR_MORE_DATA)).
    + unfold bind, reg_read.
      destruct (RegQueryValueEx _ _ _ _ _ _) as [[[code' type'] buf'] size'].
      simpl. destruct (CloseKey _ _ _); reflexivity.
    + unfold ret at 1, bind; simpl. destruct (CloseKey _ _ _); reflexivity.
  - unfold ret at 1. unfold bind at 1.
    destruct (decide (ERROR_FILE_NOT_FOUND = ERROR_FILE_NOT_FOUND)); [|congruence].
    unfold ret at 1, bind. simpl. destruct (CloseKey _ _ _); reflexivity.
Qed.

Lemma Read_config name dataBuf s : config (Read name dataBuf s).2 = config s.
Proof.
  rewrite Read_eq. destruct (SplitName name) as [strPath strValueName].
  pose proof (OpenKey_config strPath false s) as H.
  destruct (OpenKey strPath false s) as [hKey s1]. simpl in *.
  rewrite CloseKey_config. exact H.
Qed.

Lemma SaveValueToReg_eq sz hKey name value s :
  SaveValueToReg sz hKey name value s =
    match encode_value sz value with
    | Some (type, data) =>
        let '(code, r) := RegSetValueEx hKey name type data (reg s) in
        (if decide (code <> ERROR_SUCCESS) then OPT_ERR else OPT_OK,
         {| io := io s; reg := r |})
    | None => (OPT_UNKNOWN_TYPE, s)
    end.
Proof.
  unfold SaveValueToReg. munfold.
  destruct (encode_value sz value) as [[type data]|]; [|reflexivity].
  destruct (RegSetValueEx _ _ _ _ _) as [code r].
  destruct (decide (code <> ERROR_SUCCESS)); reflexivity.
Qed.

Lemma Remove_locked_eq name s :
  Remove_locked name s =
    let '(strPath, strValueName) := SplitName name in
    let '(hKey, s1) := OpenKey strPath true s in
    let r := if decide (strValueName = []) then (RegDeleteTree hKey (reg s1)).2
             else (RegDeleteValue hKey strValueName (reg s1)).2 in
    (OPT_OK, (CloseKey hKey strPath {| io := io s1; reg := r |}).2).
Proof.
  unfold Remove_locked. destruct (SplitName name) as [strPath strValueName].
  unfold bind at 1. destruct (OpenKey strPath true s) as [hKey s1].
  destruct (decide (strValueName = [])).
  - unfold bind, reg_call, ret. destruct (RegDeleteTree _ _) as [c r]. simpl.
    destruct (CloseKey _ _ _). reflexivity.
  - unfold bind, reg_call, ret. destruct (RegDeleteValue _ _ _) as [c r]. simpl.
    destruct (CloseKey _ _ _). reflexivity.
Qed.

Lemma Worker_write_eq sz pParam s :
  Worker_write sz pParam s =
    let '(strPath, strValueName) := SplitName (p_name pParam) in
    let '(hKey, s1) := OpenKey strPath true s in
    CloseKey hKey strPath (SaveValueToReg sz hKey strValueName (p_value pParam) s1).2.
Proof.
  unfold Worker_write. destruct (SplitName _) as [strPath strValueName].
  unfold bind at 1. destruct (OpenKey strPath true s) as [hKey s1].
  unfold bind. destruct (SaveValueToReg _ _ _ _ _). reflexivity.
Qed.

Lemma Remove_locked_config name s : config (Remove_locked name s).2 = config s.
Proof.
  rewrite Remove_locked_eq. destruct (SplitName name) as [strPath strValueName].
  pose proof (OpenKey_config strPath true s) as H.
  destruct (OpenKey strPath true s) as [hKey s1]. simpl in *.
  rewrite CloseKey_config. exact H.
Qed.

Lemma Worker_write_config sz pParam s : config (Worker_write sz pParam s).2 = config s.
Proof.
  rewrite Worker_write_eq. destruct (SplitName _) as [strPath strValueName].
  pose proof (OpenKey_config strPath true s) as H.
  destruct (OpenKey strPath true s) as [hKey s1]. simpl in *.
  rewrite CloseKey_config, SaveValueToReg_config. exact H.
Qed.

Lemma SetRegRootKey_root key s :
  m_registryRoot (io (SetRegRootKey key s).2) = root_key_name key.
Proof.
  unfold SetRegRootKey. munfold. simpl. reflexivity.
Qed.

(** Every step leaves the root and the close flag as they are. *)
Lemma step_root sz limit e w w' :
  step sz limit e w = Some w' ->
  m_registryRoot (io (w_sys w')) = m_registryRoot (io (w_sys w)) /\
  m_bCloseHandle (io (w_sys w')) = m_bCloseHandle (io (w_sys w)).
Proof.
  unfold step. intros H.
  destruct e, (w_caller w) eqn:Ec, (w_worker w) eqn:Ew; simpl in H;
    try discriminate;
    repeat match type of H with
    | context [if ?c then _ else _] => destruct c
    | context [match ?q with [] => _ | _ :: _ => _ end] => destruct q
    end; try discriminate; injection H as <-; simpl; auto;
    match goal with
    | |- context [Worker_write ?a ?b ?c] =>
        pose proof (Worker_write_config a b c) as Hc
    | |- context [Remove_locked ?a ?c] =>
        pose proof (Remove_locked_config a c) as Hc
    | |- context [Read ?a ?b ?c] =>
        pose proof (Read_config a b c) as Hc
    | |- context [CloseKeys ?c] =>
        pose proof (CloseKeys_config c) as Hc
    end; unfold config in Hc; injection Hc as -> -> _; auto.
Qed.

Lemma run_app sz limit tr1 tr2 w :
  run sz limit (tr1 ++ tr2) w =
    match run sz limit tr1 w with
    | Some w1 => run sz limit tr2 w1
    | None => None
    end.
Proof.
  revert w. induction tr1 as [|e tr1 IH]; intros w; simpl; [reflexivity|].
  destruct (step sz limit e w); [apply IH | reflexivity].
Qed.

Lemma run_root sz limit tr w w' :
  run sz limit tr w = Some w' ->
  m_registryRoot (io (w_sys w')) = m_registryRoot (io (w_sys w)) /\
  m_bCloseHandle (io (w_sys w')) = m_bCloseHandle (io (w_sys w)).
Proof.
  revert w. induction tr as [|e tr IH]; intros w; simpl.
  - intros [= <-]. auto.
  - destruct (step sz limit e w) as [w1|] eqn:E; [|discriminate].
    intros H. apply IH in H as [-> ->]. eapply step_root; eauto.
Qed.

(* ------------------------------------------------------------------ *)
(** ** The registry root *)

Lemma root_key_name_idem (key : String) :
  root_key_name (root_key_name key) = root_key_name key.
Proof.
  rewrite (root_key_name_cases key).
  destruct (starts_with (_T "Software") key) eqn:E.
  - rewrite root_key_name_cases, E. reflexivity.
  - rewrite root_key_name_cases.
    replace (starts_with (_T "Software") (_T "Software\" ++ key)) with true; [reflexivity|].
    symmetry. apply starts_with_app. exists (chr_backslash :: key). reflexivity.
Qed.

(** C8 (amended).  The root stored at construction is the given path when
    the path begins with the text "Software" (the namespace name without
    its separator), and the path with "Software\" put in front of it
    otherwise; normalising a stored root again changes nothing, so the
    prefix is put in front at most once; and no later step of the caller or
    of the worker changes the root. *)
Theorem C8_root_normalized_at_construction :
  forall (sz : positive) (limit : nat) (path : String) (r : Registry),
    m_registryRoot (io (IOHandler_new path r)) =
      (if starts_with (_T "Software") path then path else _T "Software\" ++ path)
    /\ root_key_name (m_registryRoot (io (IOHandler_new path r))) =
         m_registryRoot (io (IOHandler_new path r))
    /\ forall tr w,
         run sz limit tr (World_new path r) = Some w ->
         m_registryRoot (io (w_sys w)) = m_registryRoot (io (IOHandler_new path r)).
Proof.
  intros sz limit path r.
  assert (Hroot : m_registryRoot (io (IOHandler_new path r)) = root_key_name path)
    by apply SetRegRootKey_root.
  split; [|split].
  - rewrite Hroot. apply root_key_name_cases.
  - rewrite Hroot. apply root_key_name_idem.
  - intros tr w Hrun. apply run_root in Hrun as [Hr _]. exact Hr.
Qed.

Lemma C8_root_normalized_witness :
  match run 2 8 [E_Read (_T "Settings/Width") []]
          (World_new (_T "Thingamahoochie\WinMerge\") (fresh_registry empty_key)) with
  | Some w => m_registryRoot (io (w_sys w)) = _T "Software\Thingamahoochie\WinMerge\"
  | None => False
  end.
Proof.
  destruct (C8_root_normalized_at_construction 2 8 (_T "Thingamahoochie\WinMerge\")
              (fresh_registry empty_key)) as (H1 & _ & H3).
  destruct (run 2 8 [E_Read (_T "Settings/Width") []]
              (World_new (_T "Thingamahoochie\WinMerge\") (fresh_registry empty_key)))
    as [w|] eqn:E.
  - rewrite (H3 _ _ E), H1. reflexivity.
  - vm_compute in E. discriminate E.
Defined.

(** With "Software\" as the prefix -- the text that is put in front --
    the path "SoftwareX\App" does not begin with the prefix and still is
    stored as it is. *)
Lemma C8_counterexample :
  let key := _T "SoftwareX\App" in
  let root := m_registryRoot (io (IOHandler_new key (fresh_registry empty_key))) in
  starts_with (_T "Software\") key = false /\
  root = key /\
  root <> _T "Software\" ++ key.
Proof. vm_compute. repeat split; discriminate. Qed.

(* ------------------------------------------------------------------ *)
(** ** The value codec *)

Lemma length_le_bytes (n : nat) (v : Z) : length (le_bytes n v) = n.
Proof. revert v. induction n as [|n IH]; intros v; simpl; [reflexivity | now rewrite IH]. Qed.

Lemma le_bytes_zero (n : nat) : le_bytes n 0 = replicate n 0.
Proof.
  induction n as [|n IH]; [reflexivity|].
  cbn [le_bytes replicate]. rewrite Zdiv_0_l, Zmod_0_l, IH. reflexivity.
Qed.

Lemma tchars_bytes_app sz (a b : String) :
  tchars_bytes sz (a ++ b) = tchars_bytes sz a ++ tchars_bytes sz b.
Proof. unfold tchars_bytes. apply flat_map_app. Qed.

Lemma length_tchars_bytes sz (s : String) :
  length (tchars_bytes sz s) = (length s * tchar_size sz)%nat.
Proof.
  induction s as [|c s IH]; simpl; [reflexivity|].
  rewrite length_app, IH. unfold tchar_bytes. rewrite length_le_bytes. lia.
Qed.

Lemma c_str_terminated sz (s : String) :
  c_str sz s = tchars_bytes sz s ++ replicate (tchar_size sz) 0.
Proof.
  unfold c_str. rewrite tchars_bytes_app. f_equal.
  simpl. unfold tchar_bytes. rewrite le_bytes_zero, app_nil_r. reflexivity.
Qed.

Lemma length_c_str sz (s : String) :
  length (c_str sz s) = ((length s + 1) * tchar_size sz)%nat.
Proof.
  rewrite c_str_terminated, length_app, length_tchars_bytes, length_replicate. lia.
Qed.

Lemma tchar_size_pos sz : (0 < tchar_size sz)%nat.
Proof. unfold tchar_size. lia. Qed.

Lemma tchar_size_Z sz : Z.of_nat (tchar_size sz) = Z.pos sz.
Proof. unfold tchar_size. lia. Qed.

Lemma string_cbData_small sz (s : String) :
  (Z.of_nat (length s) + 1) * Z.pos sz < DWORD_MOD ->
  string_cbData sz s = (Z.of_nat (length s) + 1) * Z.pos sz.
Proof.
  intros H. unfold string_cbData, to_DWORD.
  assert (0 < Z.pos sz) by lia.
  assert (0 <= Z.of_nat (length s) + 1) by lia.
  rewrite (Z.mod_small (Z.of_nat (length s) + 1)) by nia.
  apply Z.mod_small. nia.
Qed.

(** The bytes written for a string that fits a [DWORD] count. *)
Lemma encode_string sz (s : String) :
  (Z.of_nat (length s) + 1) * Z.pos sz < DWORD_MOD ->
  encode_value sz (VString s) = Some (REG_SZ, c_str sz s).
Proof.
  intros H. unfold encode_value. cbn [GetType GetString].
  destruct s as [|c s].
  - cbn [length Nat.ltb Nat.leb]. change (c_str sz []) with (tchars_bytes sz [0]).
    rewrite take_ge; [reflexivity|].
    rewrite length_tchars_bytes. cbn [length]. unfold tchar_size. lia.
  - replace ((0 <? length (c :: s))%nat) with true by reflexivity.
    rewrite take_ge; [reflexivity|].
    rewrite string_cbData_small by exact H.
    rewrite length_c_str. unfold tchar_size. lia.
Qed.

(** C5 (amended).  For a string whose length plus one, times the size of a
    character, stays below 2^32, [SaveValueToReg] hands to [RegSetValueEx]
    the type [REG_SZ] and the bytes of the characters followed by one
    terminating character, that is [sizeof(tchar_t)] zero bytes; for the
    empty string these are just the bytes of the terminating character; so
    the data written for such a string is never zero bytes long. *)
Theorem C5_string_encoding :
  forall (sz : positive) (s : String),
    (Z.of_nat (length s) + 1) * Z.pos sz < 2 ^ 32 ->
    let data := tchars_bytes sz s ++ replicate (Pos.to_nat sz) 0 in
    encode_value sz (VString s) = Some (REG_SZ, data)
    /\ (s = [] -> data = replicate (Pos.to_nat sz) 0)
    /\ Z.of_nat (length data) = (Z.of_nat (length s) + 1) * Z.pos sz
    /\ (0 < length data)%nat
    /\ forall hKey name sys,
         SaveValueToReg sz hKey name (VString s) sys =
           let '(code, r) := RegSetValueEx hKey name REG_SZ data (reg sys) in
           (if decide (code <> ERROR_SUCCESS) then OPT_ERR else OPT_OK,
            {| io := io sys; reg := r |}).
Proof.
  intros sz s Hfit data.
  assert (Hdata : data = c_str sz s) by (symmetry; apply c_str_terminated).
  assert (Henc : encode_value sz (VString s) = Some (REG_SZ, data))
    by (rewrite Hdata; apply encode_string; exact Hfit).
  assert (Hlen : length data = ((length s + 1) * tchar_size sz)%nat)
    by (rewrite Hdata; apply length_c_str).
  pose proof (tchar_size_pos sz) as Hpos.
  split; [exact Henc|]. split; [intros ->; reflexivity|].
  split; [rewrite Hlen; unfold tchar_size; lia|].
  split; [rewrite Hlen; nia|].
  intros hKey name sys. rewrite SaveValueToReg_eq, Henc. reflexivity.
Qed.

Lemma C5_string_encoding_witness :
  encode_value 2 (VString (_T "ab")) = Some (REG_SZ, [97; 0; 98; 0; 0; 0])
  /\ encode_value 2 (VString []) = Some (REG_SZ, [0; 0]).
Proof.
  split.
  - exact (proj1 (C5_string_encoding 2 (_T "ab") ltac:(vm_compute; reflexivity))).
  - exact (proj1 (C5_string_encoding 2 [] ltac:(vm_compute; reflexivity))).
Defined.

(** A string of 2^31 - 1 two-byte characters: the byte count handed to
    [RegSetValueEx] wraps to zero, so the write is zero bytes long. *)
Lemma C5_counterexample :
  let s : String := replicate (Z.to_nat (2 ^ 31 - 1)) 97 in
  string_cbData 2 s = 0 /\ encode_value 2 (VString s) = Some (REG_SZ, []).
Proof.
  intros s.
  assert (Hlen : Z.of_nat (length s) = 2 ^ 31 - 1).
  { unfold s. rewrite length_replicate. apply Z2Nat.id. vm_compute. discriminate. }
  assert (Hcb : string_cbData 2 s = 0).
  { unfold string_cbData. rewrite Hlen. vm_compute. reflexivity. }
  split; [exact Hcb|].
  unfold encode_value. cbn [GetType GetString].
  replace ((0 <? length s)%nat) with true.
  - rewrite Hcb. reflexivity.
  - symmetry. apply Nat.ltb_lt. lia.
Qed.

Lemma le_value_bounds (bs : list BYTE) :
  Forall (fun b => 0 <= b < 256) bs -> 0 <= le_value bs < 256 ^ Z.of_nat (length bs).
Proof.
  induction 1 as [|b bs Hb _ IH]; [simpl; lia|].
  cbn [le_value length]. rewrite Nat2Z.inj_succ, Z.pow_succ_r by lia.
  revert IH. generalize (256 ^ Z.of_nat (length bs)) (le_value bs). intros p v IH. lia.
Qed.

Lemma le_bytes_range (n : nat) (v : Z) : Forall (fun b => 0 <= b < 256) (le_bytes n v).
Proof.
  revert v. induction n as [|n IH]; intros v; simpl; constructor; [|apply IH].
  apply Z.mod_pos_bound. lia.
Qed.

Lemma le_value_le_bytes (n : nat) (v : Z) :
  le_value (le_bytes n v) = v mod 256 ^ Z.of_nat n.
Proof.
  revert v. induction n as [|n IH]; intros v.
  - simpl. rewrite Z.mod_1_r. reflexivity.
  - cbn [le_bytes le_value]. rewrite IH, Nat2Z.inj_succ, Z.pow_succ_r by lia.
    rewrite (Z.rem_mul_r v 256 (256 ^ Z.of_nat n)) by lia. reflexivity.
Qed.

(** A terminated character array is read back up to its terminator. *)
Lemma read_tchars_terminated sz (a : String) (rest : list BYTE) :
  Forall (tchar_ok sz) a ->
  forall fuel, (length a < fuel)%nat ->
    read_tchars sz fuel (tchars_bytes sz a ++ tchar_bytes sz 0 ++ rest) = a.
Proof.
  induction 1 as [|c a Hc Ha IH]; intros fuel Hfuel.
  - destruct fuel as [|f]; [cbn in Hfuel; lia|].
    cbn [tchars_bytes flat_map app read_tchars]. unfold tchar_bytes.
    rewrite take_app_length' by (symmetry; apply length_le_bytes).
    rewrite length_le_bytes, Nat.ltb_irrefl, le_value_le_bytes, Zmod_0_l.
    reflexivity.
  - destruct fuel as [|f]; [cbn in Hfuel; lia|].
    cbn [tchars_bytes flat_map read_tchars]. fold (tchars_bytes sz a).
    rewrite <- app_assoc.
    assert (Hlen : tchar_size sz = length (tchar_bytes sz c))
      by (unfold tchar_bytes; symmetry; apply length_le_bytes).
    assert (Hv : le_value (tchar_bytes sz c) = c).
    { unfold tchar_bytes. rewrite le_value_le_bytes.
      unfold tchar_ok in Hc. rewrite tchar_size_Z, Z.mod_small by lia. reflexivity. }
    rewrite !take_app_length' by exact Hlen. rewrite drop_app_length' by exact Hlen.
    rewrite <- Hlen, Nat.ltb_irrefl, Hv.
    destruct (c =? 0) eqn:E; [apply Z.eqb_eq in E; unfold tchar_ok in Hc; lia|].
    rewrite IH by (cbn [length] in Hfuel; lia). reflexivity.
Qed.

Lemma read_c_str_terminated sz (a : String) (rest : list BYTE) :
  Forall (tchar_ok sz) a ->
  read_c_str sz (tchars_bytes sz a ++ tchar_bytes sz 0 ++ rest) = a.
Proof.
  intros Ha. unfold read_c_str. apply read_tchars_terminated; [exact Ha|].
  rewrite !length_app, length_tchars_bytes. unfold tchar_bytes.
  rewrite length_le_bytes. pose proof (tchar_size_Z sz). nia.
Qed.

Lemma read_c_str_c_str sz (a : String) (rest : list BYTE) :
  Forall (tchar_ok sz) a -> read_c_str sz (c_str sz a ++ rest) = a.
Proof.
  intros Ha. unfold c_str. rewrite tchars_bytes_app, <- app_assoc.
  change (tchars_bytes sz [0]) with (tchar_bytes sz 0 ++ []).
  rewrite <- app_assoc. apply read_c_str_terminated, Ha.
Qed.

Lemma read_DWORD_le_bytes (d : Z) (rest : list BYTE) :
  0 <= d < 2 ^ 32 -> read_DWORD (le_bytes 4 d ++ rest) = d.
Proof.
  intros H. unfold read_DWORD.
  assert (E : take 4 ((le_bytes 4 d ++ rest) ++ [0; 0; 0; 0]) = le_bytes 4 d) by reflexivity.
  rewrite E, le_value_le_bytes. apply Z.mod_small. exact H.
Qed.

Lemma read_DWORD_range (data : list BYTE) :
  Forall (fun b => 0 <= b < 256) data -> 0 <= read_DWORD data < 2 ^ 32.
Proof.
  intros H. unfold read_DWORD.
  assert (Hf : Forall (fun b => 0 <= b < 256) (take 4 (data ++ [0; 0; 0; 0]))).
  { apply Forall_take, Forall_app. split; [exact H|]. repeat constructor; lia. }
  assert (Hl : length (take 4 (data ++ [0; 0; 0; 0])) = 4%nat).
  { rewrite length_take, length_app. cbn [length]. lia. }
  pose proof (le_value_bounds _ Hf) as Hb. rewrite Hl in Hb. exact Hb.
Qed.

(** C6.  [LoadValueFromBuf] decodes by the type the caller expects: with
    the DWORD tag the first four bytes become an Int for an expected Int
    and a Bool (is the word greater than zero) for an expected Bool; with
    the string tag the buffer becomes a String for an expected String; the
    decoded value is then stored with [Set].  Every other pair of tag and
    expected type yields [OPT_WRONG_TYPE] and the option table as it was.
    A word written as four little-endian bytes is read back as that
    word. *)
Theorem C6_decode_by_expected_type :
  forall (sz : positive) (strName : String) (type : Z) (data : list BYTE)
         (value : VariantValue) (m : OptionsMap),
    LoadValueFromBuf sz strName type data value m =
      match Decode sz data type (GetType value) with
      | Some v => Set_ strName v m
      | None => (OPT_WRONG_TYPE, m)
      end
    /\ (type = REG_DWORD -> GetType value = VT_INT ->
        LoadValueFromBuf sz strName type data value m =
          Set_ strName (VInt (to_int (read_DWORD data))) m)
    /\ (type = REG_DWORD -> GetType value = VT_BOOL ->
        LoadValueFromBuf sz strName type data value m =
          Set_ strName (VBool (0 <? read_DWORD data)) m)
    /\ (type = REG_SZ -> GetType value = VT_STRING ->
        LoadValueFromBuf sz strName type data value m =
          Set_ strName (VString (read_c_str sz data)) m)
    /\ (~ (type = REG_DWORD /\ (GetType value = VT_INT \/ GetType value = VT_BOOL)) ->
        ~ (type = REG_SZ /\ GetType value = VT_STRING) ->
        LoadValueFromBuf sz strName type data value m = (OPT_WRONG_TYPE, m))
    /\ (forall d rest, 0 <= d < 2 ^ 32 -> read_DWORD (le_bytes 4 d ++ rest) = d).
Proof.
  intros sz strName type data value m.
  assert (Hne : REG_SZ <> REG_DWORD) by discriminate.
  assert (Heq : LoadValueFromBuf sz strName type data value m =
      match Decode sz data type (GetType value) with
      | Some v => Set_ strName v m
      | None => (OPT_WRONG_TYPE, m)
      end).
  { unfold LoadValueFromBuf, Decode, SetString, SetInt, SetBool.
    destruct (GetType value) eqn:Et;
      repeat match goal with
             | |- context [decide ?P] => destruct (decide P)
             end; try reflexivity; try (exfalso; intuition congruence).
    destruct (0 <? read_DWORD data); reflexivity. }
  split; [exact Heq|].
  repeat split.
  - intros -> Et. rewrite Heq, Et. unfold Decode.
    destruct (decide (REG_DWORD = REG_DWORD)); [reflexivity | congruence].
  - intros -> Et. rewrite Heq, Et. unfold Decode.
    destruct (decide (REG_DWORD = REG_DWORD)); [reflexivity | congruence].
  - intros -> Et. rewrite Heq, Et. unfold Decode.
    destruct (decide (REG_SZ = REG_SZ)); [reflexivity | congruence].
  - intros H1 H2. rewrite Heq. unfold Decode.
    destruct (GetType value);
      repeat match goal with
             | |- context [decide ?P] => destruct (decide P)
             end; try reflexivity; exfalso; intuition congruence.
  - intros d rest Hd. apply read_DWORD_le_bytes. exact Hd.
Qed.

Lemma C6_decode_witness :
  LoadValueFromBuf 2 (_T "Settings/Width") REG_DWORD [250; 0; 0; 0] (VInt 100)
    {[ _T "Settings/Width" := VInt 100 ]}
  = (OPT_OK, {[ _T "Settings/Width" := VInt 250 ]})
  /\ LoadValueFromBuf 2 (_T "Settings/Width") REG_DWORD [250; 0; 0; 0] (VBool false)
       {[ _T "Settings/Width" := VBool false ]}
     = (OPT_OK, {[ _T "Settings/Width" := VBool true ]})
  /\ LoadValueFromBuf 2 (_T "Settings/Name") REG_SZ [97; 0; 98; 0; 0; 0] (VString [])
       {[ _T "Settings/Name" := VString [] ]}
     = (OPT_OK, {[ _T "Settings/Name" := VString (_T "ab") ]})
  /\ LoadValueFromBuf 2 (_T "Settings/Width") REG_SZ [97; 0; 0; 0] (VInt 100)
       {[ _T "Settings/Width" := VInt 100 ]}
     = (OPT_WRONG_TYPE, {[ _T "Settings/Width" := VInt 100 ]})
  /\ read_DWORD (le_bytes 4 250 ++ [7]) = 250.
Proof.
  split; [|split; [|split; [|split]]].
  - rewrite (proj1 (proj2 (C6_decode_by_expected_type 2 (_T "Settings/Width") REG_DWORD
               [250; 0; 0; 0] (VInt 100) {[ _T "Settings/Width" := VInt 100 ]}))
               eq_refl eq_refl).
    vm_compute. reflexivity.
  - rewrite (proj1 (proj2 (proj2 (C6_decode_by_expected_type 2 (_T "Settings/Width")
               REG_DWORD [250; 0; 0; 0] (VBool false)
               {[ _T "Settings/Width" := VBool false ]}))) eq_refl eq_refl).
    vm_compute. reflexivity.
  - rewrite (proj1 (proj2 (proj2 (proj2 (C6_decode_by_expected_type 2 (_T "Settings/Name")
               REG_SZ [97; 0; 98; 0; 0; 0] (VString [])
               {[ _T "Settings/Name" := VString [] ]})))) eq_refl eq_refl).
    vm_compute. reflexivity.
  - apply (proj1 (proj2 (proj2 (proj2 (proj2 (C6_decode_by_expected_type 2
               (_T "Settings/Width") REG_SZ [97; 0; 0; 0] (VInt 100)
               {[ _T "Settings/Width" := VInt 100 ]})))))).
    + intros [H _]. discriminate H.
    + intros [_ H]. discriminate H.
  - apply (proj2 (proj2 (proj2 (proj2 (proj2 (C6_decode_by_expected_type 2
               (_T "Settings/Width") REG_SZ [] VNull ∅)))))).
    split; [discriminate | reflexivity].
Defined.

(* ------------------------------------------------------------------ *)
(** ** Removing options *)

Lemma under_key_path_prefix (strPath key : String) :
  under_key_path strPath key = starts_with (strPath ++ [chr_slash]) key.
Proof.
  apply eq_true_iff_eq. unfold under_key_path.
  rewrite !andb_true_iff, !bool_decide_eq_true, str_find_zero, Nat.ltb_lt.
  rewrite !starts_with_app. split.
  - intros [[[rest ->] Hlen] Hat].
    rewrite lookup_app_r in Hat by lia. rewrite Nat.sub_diag in Hat.
    destruct rest as [|c rest]; [discriminate|]. injection Hat as ->.
    exists rest. rewrite <- app_assoc. reflexivity.
  - intros [rest ->]. rewrite <- app_assoc. cbn [app].
    split; [split|].
    + eauto.
    + rewrite length_app. cbn [length]. lia.
    + rewrite lookup_app_r by lia. rewrite Nat.sub_diag. reflexivity.
Qed.

Lemma RemoveOption_table_key (name strPath : String) (m : OptionsMap) :
  SplitName name = (strPath, []) ->
  RemoveOption_table name m =
    (OPT_OK, filter (fun kv => under_key_path strPath kv.1 = false) m).
Proof.
  intros H. unfold RemoveOption_table. rewrite H.
  destruct (decide ([] <> [])) as [n|_]; [contradiction n; reflexivity | reflexivity].
Qed.

Lemma RemoveOption_table_value (name strPath strValueName : String) (m : OptionsMap) :
  SplitName name = (strPath, strValueName) -> strValueName <> [] ->
  RemoveOption_table name m = COptionsMgr_RemoveOption name m.
Proof.
  intros H Hne. unfold RemoveOption_table. rewrite H.
  destruct (decide (strValueName <> [])); [reflexivity | contradiction].
Qed.

Lemma COptionsMgr_RemoveOption_lookup (name key : String) (m : OptionsMap) :
  (COptionsMgr_RemoveOption name m).2 !! key =
    if decide (key = name) then None else m !! key.
Proof.
  unfold COptionsMgr_RemoveOption. destruct (m !! name) eqn:E; simpl.
  - destruct (decide (key = name)) as [->|Hne].
    + apply lookup_delete_eq.
    + apply lookup_delete_ne. congruence.
  - destruct (decide (key = name)) as [->|Hne]; [exact E | reflexivity].
Qed.

(** C10.  For a name that splits into a key path and an empty value name,
    [RemoveOption] takes out of the option table exactly the entries whose
    name begins with the key path followed by ['/'], keeps every other
    entry as it is and yields [OPT_OK]; for a name with a non-empty value
    name only the entry of that very name is taken out.  In both cases
    [IOHandler::Remove] is then called for the name: it returns once the
    queue counter is zero, having opened (or created) the key and called
    [RegDeleteTree] on it when the value name is empty and
    [RegDeleteValue] otherwise. *)
Theorem C10_remove_option :
  forall (name strPath strValueName : String) (this : CRegOptionsMgr),
    SplitName name = (strPath, strValueName) ->
    let m := m_optionsMap this in
    let m' := (RemoveOption_table name m).2 in
    let retVal := (RemoveOption_table name m).1 in
    (strValueName = [] ->
       retVal = OPT_OK /\
       forall key, m' !! key =
         if starts_with (strPath ++ [chr_slash]) key then None else m !! key)
    /\ (strValueName <> [] ->
        forall key, m' !! key = if decide (key = name) then None else m !! key)
    /\ (RemoveOption name this = None <->
        m_dwQueueCount (io (m_pIOHandler this)) <> 0)
    /\ (m_dwQueueCount (io (m_pIOHandler this)) = 0 ->
        let hKey := (OpenKey strPath true (m_pIOHandler this)).1 in
        let s1 := (OpenKey strPath true (m_pIOHandler this)).2 in
        let r := if decide (strValueName = [])
                 then (RegDeleteTree hKey (reg s1)).2
                 else (RegDeleteValue hKey strValueName (reg s1)).2 in
        RemoveOption name this =
          Some (retVal,
                {| m_serializing := m_serializing this;
                   m_optionsMap := m';
                   m_pIOHandler := (CloseKey hKey strPath {| io := io s1; reg := r |}).2 |})).
Proof.
  intros name strPath strValueName this Hsplit m m' retVal.
  split; [|split; [|split]].
  - intros ->. unfold retVal, m'. rewrite (RemoveOption_table_key _ _ _ Hsplit).
    split; [reflexivity|]. intros key. cbn [snd].
    rewrite <- under_key_path_prefix.
    destruct (under_key_path strPath key) eqn:E.
    + apply map_lookup_filter_None. right. intros x _. cbn [fst]. congruence.
    + destruct (m !! key) as [x|] eqn:Ek.
      * apply map_lookup_filter_Some. split; [exact Ek | exact E].
      * apply map_lookup_filter_None. left. exact Ek.
  - intros Hne key. unfold m'.
    rewrite (RemoveOption_table_value _ _ _ _ Hsplit Hne).
    apply COptionsMgr_RemoveOption_lookup.
  - unfold RemoveOption, Remove, queue_is_empty.
    destruct (RemoveOption_table name (m_optionsMap this)) as [rv mm]. cbn [m_pIOHandler with_map].
    destruct (m_dwQueueCount (io (m_pIOHandler this)) =? 0) eqn:E.
    + apply Z.eqb_eq in E. destruct (Remove_locked _ _).
      split; [discriminate | intros H; contradiction].
    + apply Z.eqb_neq in E. split; [intros _; exact E | reflexivity].
  - intros Hz hKey s1 r. unfold RemoveOption, Remove, queue_is_empty, retVal, m', m.
    destruct (RemoveOption_table name (m_optionsMap this)) as [rv mm].
    cbn [m_pIOHandler with_map fst snd]. rewrite Hz. cbn [Z.eqb].
    rewrite Remove_locked_eq, Hsplit. unfold hKey, s1, r.
    destruct (OpenKey strPath true (m_pIOHandler this)) as [h s']. reflexivity.
Qed.

Lemma C10_remove_option_witness :
  let m : OptionsMap :=
    {[ _T "Settings/Width" := VInt 100; _T "Settings/Height" := VInt 50;
       _T "Font/Size" := VInt 9 ]} in
  let this :=
    {| m_serializing := true; m_optionsMap := m;
       m_pIOHandler := IOHandler_new (_T "Thingamahoochie\WinMerge\")
                         (fresh_registry empty_key) |} in
  (RemoveOption_table (_T "Settings/") m).1 = OPT_OK
  /\ (RemoveOption_table (_T "Settings/") m).2 !! (_T "Settings/Width") = None
  /\ (RemoveOption_table (_T "Settings/") m).2 !! (_T "Font/Size") = Some (VInt 9)
  /\ (RemoveOption_table (_T "Font/Size") m).2 !! (_T "Font/Size") = None
  /\ (RemoveOption_table (_T "Font/Size") m).2 !! (_T "Settings/Width") = Some (VInt 100)
  /\ RemoveOption (_T "Settings/") this <> None.
Proof.
  intros m this.
  destruct (C10_remove_option (_T "Settings/") (_T "Settings") [] this eq_refl)
    as (Hkey & _ & Hblock & _).
  destruct (C10_remove_option (_T "Font/Size") (_T "Font") (_T "Size") this eq_refl)
    as (_ & Hval & _ & _).
  destruct (Hkey eq_refl) as [Hret Hkeys].
  assert (Hne : _T "Size" <> []) by discriminate.
  specialize (Hval Hne).
  split; [exact Hret|].
  split; [rewrite Hkeys; reflexivity|].
  split; [rewrite Hkeys; reflexivity|].
  split; [rewrite Hval; reflexivity|].
  split; [rewrite Hval; reflexivity|].
  intros Hnone. apply Hblock in Hnone. apply Hnone. reflexivity.
Defined.

(* ------------------------------------------------------------------ *)
(** ** The registry model *)

Lemma assoc_find_set_eq {A} (n : String) (a : A) l :
  assoc_find n (assoc_set n a l) = Some a.
Proof.
  induction l as [|[m b] l IH]; simpl.
  - destruct (decide (n = n)); congruence.
  - destruct (decide (m = n)); simpl.
    + destruct (decide (n = n)); congruence.
    + destruct (decide (m = n)); congruence.
Qed.

Lemma assoc_find_set_ne {A} (n m : String) (a : A) l :
  n <> m -> assoc_find m (assoc_set n a l) = assoc_find m l.
Proof.
  intros Hne. induction l as [|[x b] l IH]; simpl.
  - destruct (decide (n = m)); congruence.
  - destruct (decide (x = n)) as [->|]; simpl.
    + destruct (decide (n = m)); congruence.
    + destruct (decide (x = m)); congruence.
Qed.

Lemma assoc_find_del_eq {A} (n : String) (l : list (String * A)) :
  assoc_find n (assoc_del n l) = None.
Proof.
  induction l as [|[m b] l IH]; simpl; [reflexivity|].
  destruct (decide (m = n)); simpl; [exact IH|].
  destruct (decide (m = n)); congruence.
Qed.

Lemma assoc_find_del_ne {A} (n m : String) (l : list (String * A)) :
  n <> m -> assoc_find m (assoc_del n l) = assoc_find m l.
Proof.
  intros Hne. induction l as [|[x b] l IH]; simpl; [reflexivity|].
  destruct (decide (x = n)) as [->|]; simpl.
  - destruct (decide (n = m)); congruence.
  - destruct (decide (x = m)); congruence.
Qed.

Lemma find_key_update_eq (p : list String) (f : RegKey -> RegKey) (k : RegKey) :
  find_key p (update_key p f k) = f <$> find_key p k.
Proof.
  revert k. induction p as [|c p IH]; intros k; simpl; [reflexivity|].
  destruct (assoc_find c (key_subkeys k)) as [k'|] eqn:E; simpl.
  - rewrite assoc_find_set_eq. apply IH.
  - rewrite E. reflexivity.
Qed.

Lemma find_key_create_eq (p : list String) (k : RegKey) :
  find_key p (create_key p k) = Some (default empty_key (find_key p k)).
Proof.
  revert k. induction p as [|c p IH]; intros k; simpl; [reflexivity|].
  rewrite assoc_find_set_eq, IH.
  destruct (assoc_find c (key_subkeys k)) as [k'|]; simpl; [reflexivity|].
  destruct p; reflexivity.
Qed.

Lemma RegCreateKeyEx_HKCU (path : String) (r : Registry) :
  RegCreateKeyEx HKEY_CURRENT_USER path r =
    (ERROR_SUCCESS, Handle (reg_next r),
     {| reg_hive := create_key (split_path path) (reg_hive r);
        reg_handles := <[reg_next r := {| h_path := path; h_alive := true |}]> (reg_handles r);
        reg_next := S (reg_next r);
        reg_calls := S (reg_calls r) |}).
Proof. reflexivity. Qed.

Lemma RegOpenKeyEx_HKCU (path : String) (r : Registry) :
  RegOpenKeyEx HKEY_CURRENT_USER path r =
    match find_key (split_path path) (reg_hive r) with
    | None => (ERROR_FILE_NOT_FOUND, nullptr, count_call r)
    | Some _ =>
        (ERROR_SUCCESS, Handle (reg_next r),
         {| reg_hive := reg_hive r;
            reg_handles := <[reg_next r := {| h_path := path; h_alive := true |}]> (reg_handles r);
            reg_next := S (reg_next r);
            reg_calls := S (reg_calls r) |})
    end.
Proof.
  unfold RegOpenKeyEx. cbn [resolve app].
  destruct (find_key (split_path path) (reg_hive r)); reflexivity.
Qed.

(** The key a live handle of known path designates. *)
Lemma key_at_live (n : nat) (path : String) (r : Registry) :
  reg_handles r !! n = Some {| h_path := path; h_alive := true |} ->
  key_at (Handle n) r =
    match find_key (split_path path) (reg_hive r) with
    | None => inl ERROR_KEY_DELETED
    | Some k => inr (split_path path, k)
    end.
Proof. intros H. unfold key_at, resolve. rewrite H. reflexivity. Qed.

(** The outcome of [Read]'s queries when the value is there. *)
Lemma Read_query_found (hKey : HKEY) (vn : String) (buf : list BYTE) (r : Registry) p k v :
  key_at hKey r = inr (p, k) ->
  assoc_find vn (key_values k) = Some v ->
  exists buf',
    Read_query hKey vn buf r = (ERROR_SUCCESS, buf', rv_type v)
    /\ take (length (rv_data v)) buf' = rv_data v.
Proof.
  intros Hk Hv. unfold Read_query.
  assert (Hn : hKey <> nullptr).
  { intros ->. unfold key_at in Hk. simpl in Hk. discriminate. }
  destruct (decide (hKey <> nullptr)) as [_|]; [|contradiction].
  set (buf0 := if (length buf <? 256)%nat then vec_resize 256 buf else buf).
  unfold RegQueryValueEx at 1. rewrite Hk, Hv.
  destruct (to_DWORD (Z.of_nat (length buf0)) <? Z.of_nat (length (rv_data v))) eqn:E.
  - destruct (decide (ERROR_MORE_DATA = ERROR_FILE_NOT_FOUND)); [discriminate|].
    destruct (decide (ERROR_MORE_DATA = ERROR_SUCCESS)); [discriminate|].
    destruct (decide (ERROR_MORE_DATA = ERROR_MORE_DATA)); [|congruence].
    unfold RegQueryValueEx. rewrite Hk, Hv, Z.ltb_irrefl.
    eexists. split; [reflexivity|].
    unfold overwrite. rewrite take_app_length. reflexivity.
  - destruct (decide (ERROR_SUCCESS = ERROR_FILE_NOT_FOUND)); [discriminate|].
    destruct (decide (ERROR_SUCCESS = ERROR_SUCCESS)); [|congruence].
    eexists. split; [reflexivity|].
    unfold overwrite. rewrite take_app_length. reflexivity.
Qed.

(** The outcome of [Read]'s queries when the value is not there. *)
Lemma Read_query_missing (hKey : HKEY) (vn : String) (buf : list BYTE) (r : Registry) :
  match key_at hKey r with
  | inl _ => True
  | inr (_, k) => assoc_find vn (key_values k) = None
  end ->
  (Read_query hKey vn buf r).1.1 <> ERROR_SUCCESS.
Proof.
  intros H. unfold Read_query.
  destruct (decide (hKey <> nullptr)) as [Hn|Hn].
  - unfold RegQueryValueEx at 1.
    destruct (key_at hKey r) as [e|[p k]] eqn:Hk.
    + assert (He : e = ERROR_INVALID_HANDLE \/ e = ERROR_KEY_DELETED).
      { unfold key_at, resolve in Hk. destruct hKey as [| |n]; [contradiction Hn; reflexivity| |].
        - destruct (find_key [] (reg_hive r)); [discriminate|]. injection Hk as <-. auto.
        - destruct (reg_handles r !! n) as [hi|]; [|injection Hk as <-; auto].
          destruct (h_alive hi); [|injection Hk as <-; auto].
          destruct (find_key _ _); [discriminate|]. injection Hk as <-. auto. }
      destruct He as [-> | ->].
      * destruct (decide (ERROR_INVALID_HANDLE = ERROR_FILE_NOT_FOUND)); [discriminate|].
        destruct (decide (ERROR_INVALID_HANDLE = ERROR_SUCCESS)); [discriminate|].
        destruct (decide (ERROR_INVALID_HANDLE = ERROR_MORE_DATA)); [discriminate|].
        discriminate.
      * destruct (decide (ERROR_KEY_DELETED = ERROR_FILE_NOT_FOUND)); [discriminate|].
        destruct (decide (ERROR_KEY_DELETED = ERROR_SUCCESS)); [discriminate|].
        destruct (decide (ERROR_KEY_DELETED = ERROR_MORE_DATA)); [discriminate|].
        discriminate.
    + rewrite H.
      destruct (decide (ERROR_FILE_NOT_FOUND = ERROR_FILE_NOT_FOUND)); [|congruence].
      discriminate.
  - destruct (decide (ERROR_FILE_NOT_FOUND = ERROR_FILE_NOT_FOUND)); [|congruence].
    discriminate.
Qed.

(** Creating a key keeps every existing key with its values; the keys it
    adds have no values. *)
Lemma find_key_create (p q : list String) (k : RegKey) :
  match find_key q k with
  | Some kq =>
      exists kq', find_key q (create_key p k) = Some kq' /\ key_values kq' = key_values kq
  | None =>
      match find_key q (create_key p k) with
      | Some kq' => key_values kq' = []
      | None => True
      end
  end.
Proof.
  revert q k. induction p as [|c p IH]; intros q k.
  - cbn [create_key]. destruct (find_key q k); eauto.
  - destruct q as [|d q].
    + cbn [find_key create_key]. eexists. split; reflexivity.
    + cbn [find_key create_key key_subkeys].
      destruct (decide (c = d)) as [->|Hne].
      * rewrite assoc_find_set_eq.
        destruct (assoc_find d (key_subkeys k)) as [k'|] eqn:E; cbn [default].
        -- apply IH.
        -- specialize (IH q empty_key). destruct q; cbn [find_key] in *.
           ++ destruct IH as (kq' & [= <-] & Hv). exact Hv.
           ++ cbn [empty_key key_subkeys assoc_find] in IH. exact IH.
      * rewrite assoc_find_set_ne by exact Hne.
        destruct (assoc_find d (key_subkeys k)) as [k'|]; [|exact I].
        destruct (find_key q k'); eauto.
Qed.

Lemma value_at_create (p q : list String) (n : String) (k : RegKey) :
  value_at q n (create_key p k) = value_at q n k.
Proof.
  unfold value_at. pose proof (find_key_create p q k) as H.
  destruct (find_key q k) as [kq|].
  - destruct H as (kq' & -> & ->). reflexivity.
  - destruct (find_key q (create_key p k)) as [kq'|]; [|reflexivity].
    rewrite H. reflexivity.
Qed.

Lemma find_key_create_some (p q : list String) (k kq : RegKey) :
  find_key q k = Some kq -> exists kq', find_key q (create_key p k) = Some kq'.
Proof.
  intros H. pose proof (find_key_create p q k) as Hc. rewrite H in Hc.
  destruct Hc as (kq' & Hk & _). eauto.
Qed.

(** [OpenKey] on a sound cache: the cache stays sound, and the handle
    returned designates the key of the path whenever that key exists. *)
Lemma OpenKey_ok (strPath : String) (bAlwaysCreate : bool) (s : Sys) :
  cache_ok s ->
  let hKey := (OpenKey strPath bAlwaysCreate s).1 in
  let s1 := (OpenKey strPath bAlwaysCreate s).2 in
  cache_ok s1
  /\ config s1 = config s
  /\ reg_hive (reg s1) =
       (if bAlwaysCreate && bool_decide (m_hKeys (io s) !! strPath = None)
        then create_key (key_of s strPath) (reg_hive (reg s))
        else reg_hive (reg s))
  /\ (forall k, find_key (key_of s strPath) (reg_hive (reg s1)) = Some k ->
      key_at hKey (reg s1) = inr (key_of s strPath, k))
  /\ (find_key (key_of s strPath) (reg_hive (reg s1)) = None -> hKey = nullptr)
  /\ (bAlwaysCreate = true ->
      exists k, find_key (key_of s strPath) (reg_hive (reg s1)) = Some k).
Proof.
  intros [Hc Hn]. cbv zeta. rewrite OpenKey_eq.
  destruct (m_hKeys (io s) !! strPath) as [h|] eqn:Ec.
  - (* cached *)
    rewrite andb_false_r. cbn [fst snd].
    destruct (Hc _ _ Ec) as (n & k & -> & Hh & Hk).
    split; [split; assumption|]. split; [reflexivity|]. split; [reflexivity|].
    split; [|split].
    + intros k' Hk'. rewrite (key_at_live _ _ _ Hh). fold (key_of s strPath).
      rewrite Hk'. reflexivity.
    + intros Hnone. congruence.
    + intros _. eauto.
  - rewrite bool_decide_eq_true_2 by reflexivity. rewrite andb_true_r.
    destruct bAlwaysCreate.
    + (* created *)
      rewrite RegCreateKeyEx_HKCU.
      destruct (decide (ERROR_SUCCESS <> ERROR_SUCCESS)) as [n|_]; [contradiction n; reflexivity|].
      cbn [fst snd io reg reg_hive].
      fold (key_of s strPath).
      pose proof (find_key_create_eq (key_of s strPath) (reg_hive (reg s))) as Hnew.
      split; [|split; [reflexivity|split; [reflexivity|split; [|split]]]].
      * split.
        -- intros p h. cbn [io reg m_hKeys with_hKeys reg_handles reg_hive m_registryRoot].
           unfold key_of. cbn [io m_registryRoot with_hKeys].
           destruct (decide (p = strPath)) as [->|Hne].
           ++ rewrite lookup_insert_eq. intros [= <-].
              eexists _, _. split; [reflexivity|]. split; [apply lookup_insert_eq|].
              exact Hnew.
           ++ rewrite lookup_insert_ne by congruence. intros Hp.
              destruct (Hc _ _ Hp) as (n & k & -> & Hh & Hk).
              destruct (find_key_create_some (key_of s strPath) _ _ _ Hk) as (k' & Hk').
              exists n, k'. split; [reflexivity|]. split; [|exact Hk'].
              rewrite lookup_insert_ne; [exact Hh|].
              apply Hn in Hh. lia.
        -- intros n hi. cbn [reg reg_handles reg_next].
           destruct (decide (n = reg_next (reg s))) as [->|Hne].
           ++ intros _. lia.
           ++ rewrite lookup_insert_ne by congruence. intros H. apply Hn in H. lia.
      * intros k Hk. erewrite key_at_live; [|cbn [reg reg_handles]; apply lookup_insert_eq].
        cbn [reg reg_hive]. fold (key_of s strPath). rewrite Hk. reflexivity.
      * intros Hnone. cbn [reg reg_hive] in Hnone. congruence.
      * intros _. eauto.
    + (* opened *)
      rewrite RegOpenKeyEx_HKCU. fold (key_of s strPath).
      destruct (find_key (key_of s strPath) (reg_hive (reg s))) as [k|] eqn:Ek.
      * destruct (decide (ERROR_SUCCESS <> ERROR_SUCCESS)) as [n|_]; [contradiction n; reflexivity|].
        cbn [fst snd io reg reg_hive].
        split; [|split; [reflexivity|split; [reflexivity|split; [|split]]]].
        -- split.
           ++ intros p h. cbn [io reg m_hKeys with_hKeys reg_handles reg_hive m_registryRoot].
              unfold key_of. cbn [io m_registryRoot with_hKeys].
              destruct (decide (p = strPath)) as [->|Hne].
              ** rewrite lookup_insert_eq. intros [= <-].
                 eexists _, _. split; [reflexivity|]. split; [apply lookup_insert_eq|].
                 exact Ek.
              ** rewrite lookup_insert_ne by congruence. intros Hp.
                 destruct (Hc _ _ Hp) as (n & k0 & -> & Hh & Hk).
                 exists n, k0. split; [reflexivity|]. split; [|exact Hk].
                 rewrite lookup_insert_ne; [exact Hh|].
                 apply Hn in Hh. lia.
           ++ intros n hi. cbn [reg reg_handles reg_next].
              destruct (decide (n = reg_next (reg s))) as [->|Hne].
              ** intros _. lia.
              ** rewrite lookup_insert_ne by congruence. intros H. apply Hn in H. lia.
        -- intros k0 Hk. erewrite key_at_live; [|cbn [reg reg_handles]; apply lookup_insert_eq].
           cbn [reg reg_hive]. fold (key_of s strPath). rewrite Hk. reflexivity.
        -- intros Hnone. rewrite Ek in Hnone. discriminate.
        -- discriminate.
      * destruct (decide (ERROR_FILE_NOT_FOUND <> ERROR_SUCCESS)) as [_|n];
          [|contradiction n; discriminate].
        cbn [fst snd io reg reg_hive count_call].
        split; [|split; [reflexivity|split; [reflexivity|split; [|split]]]].
        -- split; [exact Hc|]. intros n hi H. cbn [reg reg_handles reg_next count_call] in *.
           apply Hn in H. exact H.
        -- intros k0 Hk. rewrite Ek in Hk. discriminate.
        -- reflexivity.
        -- discriminate.
Qed.

(** [Read] on a sound cache reports success exactly for a stored value,
    hands back its type and its data, and leaves the registry tree as it
    is. *)
Lemma Read_ok (name : String) (buf : list BYTE) (s : Sys) :
  cache_ok s -> m_bCloseHandle (io s) = false ->
  let res := Read name buf s in
  cache_ok res.2
  /\ config res.2 = config s
  /\ reg_hive (reg res.2) = reg_hive (reg s)
  /\ (stored s name = None -> res.1.1.1 <> ERROR_SUCCESS)
  /\ (forall v, stored s name = Some v ->
      exists buf', res.1 = (ERROR_SUCCESS, buf', rv_type v)
                   /\ take (length (rv_data v)) buf' = rv_data v).
Proof.
  intros Hok Hflag. cbv zeta. rewrite Read_eq. unfold stored.
  destruct (SplitName name) as [strPath vn]. cbn [fst snd].
  pose proof (OpenKey_ok strPath false s Hok) as H. cbv zeta in H.
  destruct (OpenKey strPath false s) as [hKey s1]. cbn [fst snd] in *.
  destruct H as (Hok1 & Hcfg & Hhive & Hsome & Hnone & _).
  cbn [andb] in Hhive.
  assert (Hflag1 : m_bCloseHandle (io s1) = false).
  { unfold config in Hcfg. injection Hcfg as _ -> _. exact Hflag. }
  rewrite CloseKey_eq, Hflag1. cbn [snd].
  split; [exact Hok1|]. split; [exact Hcfg|]. split; [exact Hhive|].
  unfold value_at. rewrite Hhive in Hsome, Hnone.
  destruct (find_key (key_of s strPath) (reg_hive (reg s))) as [k|] eqn:Ek.
  - specialize (Hsome k eq_refl). split.
    + intros Hv. apply Read_query_missing. rewrite Hsome. exact Hv.
    + intros v Hv. eapply Read_query_found; eauto.
  - specialize (Hnone eq_refl). subst hKey. split; [|discriminate].
    intros _. apply Read_query_missing. reflexivity.
Qed.

Lemma to_int_to_DWORD (i : Z) : - 2 ^ 31 <= i < 2 ^ 31 -> to_int (to_DWORD i) = i.
Proof.
  intros H. unfold to_int, to_DWORD, DWORD_MOD.
  rewrite Z.mod_mod by lia.
  destruct (Z_lt_dec i 0) as [Hneg|Hpos].
  - replace (i mod 2 ^ 32) with (i + 2 ^ 32).
    + destruct (i + 2 ^ 32 <? 2 ^ 31) eqn:E; [apply Z.ltb_lt in E|]; lia.
    + apply Z.mod_unique with (-1); lia.
  - rewrite Z.mod_small by lia.
    destruct (i <? 2 ^ 31) eqn:E; [reflexivity | apply Z.ltb_ge in E; lia].
Qed.

Lemma to_DWORD_range (z : Z) : 0 <= to_DWORD z < 2 ^ 32.
Proof. unfold to_DWORD, DWORD_MOD. apply Z.mod_pos_bound. lia. Qed.

Lemma read_DWORD_prefix (data buf : list BYTE) :
  (4 <= length data)%nat -> take (length data) buf = data ->
  read_DWORD buf = read_DWORD data.
Proof.
  intros Hlen Htake. unfold read_DWORD.
  rewrite <- (take_drop (length data) buf), Htake.
  rewrite <- !app_assoc. rewrite !take_app_le by exact Hlen. reflexivity.
Qed.

Lemma Get_Set_same (name : String) (old new : VariantValue) (m : OptionsMap) :
  GetType old = GetType new ->
  Set_ name new (<[name := old]> m) = (OPT_OK, <[name := new]> m).
Proof.
  intros Ht. unfold Set_. rewrite lookup_insert_eq.
  destruct (decide (GetType old = GetType new)); [|contradiction].
  rewrite insert_insert_eq. reflexivity.
Qed.

(** A handler fresh from its constructor has a sound cache and keeps its
    handles open. *)
Lemma IOHandler_new_ok (path : String) (hive : RegKey) :
  cache_ok (IOHandler_new path (fresh_registry hive))
  /\ m_bCloseHandle (io (IOHandler_new path (fresh_registry hive))) = false
  /\ m_dwQueueCount (io (IOHandler_new path (fresh_registry hive))) = 0
  /\ m_hKeys (io (IOHandler_new path (fresh_registry hive))) = ∅
  /\ reg_handles (reg (IOHandler_new path (fresh_registry hive))) = ∅.
Proof.
  unfold IOHandler_new, SetRegRootKey. munfold. cbn [io reg fst snd with_registryRoot
    m_registryRoot]. rewrite RegCreateKeyEx_HKCU.
  destruct (decide (ERROR_SUCCESS = ERROR_SUCCESS)); [|congruence].
  cbn [snd io reg m_bCloseHandle m_dwQueueCount m_hKeys with_registryRoot].
  assert (He : reg_handles
            (RegCloseKey (Handle (reg_next (fresh_registry hive)))
               {| reg_hive := create_key (split_path (root_key_name path))
                                (reg_hive (fresh_registry hive));
                  reg_handles := <[reg_next (fresh_registry hive) :=
                                    {| h_path := root_key_name path; h_alive := true |}]>
                                   (reg_handles (fresh_registry hive));
                  reg_next := S (reg_next (fresh_registry hive));
                  reg_calls := S (reg_calls (fresh_registry hive)) |}) = ∅).
  { unfold RegCloseKey. cbn [reg_handles fresh_registry reg_next].
    rewrite delete_insert_eq. apply delete_empty. }
  split; [|repeat split; try reflexivity; exact He].
  split.
  - intros p h. cbn [io m_hKeys with_registryRoot]. rewrite lookup_empty. discriminate.
  - intros n hi. cbn [reg]. rewrite He, lookup_empty. discriminate.
Qed.

(** C4 (the failing input).  [InitOption] of "Settings/Width" with the
    Int default 100, on a serializing manager over a store with no value
    under that name, returns [OPT_OK]; the flush returns at once; and
    [Read] of the name then reports [ERROR_FILE_NOT_FOUND], not the
    default: [InitOption] has only read the store, although its comment
    says that an option missing from the registry is saved with its
    default value.  And where the store holds a text under the name of an
    Int option, [InitOption] returns [OPT_WRONG_TYPE] and the option table
    keeps the default. *)
Lemma C4_counterexample :
  let fresh := CRegOptionsMgr_new example_root (fresh_registry empty_key) in
  let res := InitOption 2 (_T "Settings/Width") (VInt 100) fresh in
  let used := CRegOptionsMgr_new example_root (fresh_registry example_hive) in
  let res' := InitOption 2 (_T "Settings/Name") (VInt 100) used in
  (res.1 = OPT_OK
   /\ WaitForQueueFlush (m_pIOHandler res.2) = Some (OPT_OK, m_pIOHandler res.2)
   /\ (Read (_T "Settings/Width") (replicate 256 0) (m_pIOHandler res.2)).1.1.1
        = ERROR_FILE_NOT_FOUND)
  /\ (stored (m_pIOHandler used) (_T "Settings/Name")
        = Some {| rv_type := REG_SZ; rv_data := [97; 0; 98; 0; 0; 0] |}
      /\ res'.1 = OPT_WRONG_TYPE
      /\ Get (_T "Settings/Name") (m_optionsMap res'.2) = VInt 100).
Proof. vm_compute. repeat split; reflexivity. Qed.

(* ------------------------------------------------------------------ *)
(** ** The queue counter *)

Lemma config_count s s' : config s' = config s ->
  m_dwQueueCount (io s') = m_dwQueueCount (io s).
Proof. unfold config. intros [= _ _ H]. exact H. Qed.

Lemma config_flag s s' : config s' = config s ->
  m_bCloseHandle (io s') = m_bCloseHandle (io s).
Proof. unfold config. intros [= _ H _]. exact H. Qed.

Lemma to_DWORD_small (z : Z) : 0 <= z < 2 ^ 32 -> to_DWORD z = z.
Proof. intros H. unfold to_DWORD, DWORD_MOD. apply Z.mod_small. exact H. Qed.

Ltac step_cases H :=
  unfold step in H; cbn [w_sys w_queue w_caller w_worker] in H;
  repeat match type of H with
         | match ?e with _ => _ end = Some _ =>
             first [ is_var e; destruct e | destruct e eqn:? ]
         | (if ?c then _ else _) = Some _ => destruct c eqn:?
         end; try discriminate H; injection H as H; subst.

Lemma step_inv sz limit e w w' :
  Z.of_nat limit + 2 < 2 ^ 32 ->
  world_inv limit w -> step sz limit e w = Some w' -> world_inv limit w'.
Proof.
  intros Hlim (Hc & Hq & Hf & Hr) H.
  destruct w as [s q c wk]. cbn [w_sys w_queue w_caller w_worker] in *.
  unfold in_flight in *. cbn [w_sys w_queue w_caller w_worker] in *.
  step_cases H; unfold world_inv, in_flight, with_caller, with_worker, with_queue, with_io,
    with_sys, InterlockedIncrement, InterlockedDecrement;
    cbn [w_sys w_queue w_caller w_worker io reg m_dwQueueCount m_bCloseHandle set_QueueCount];
    rewrite ?length_app; cbn [length];
    repeat match goal with
    | |- context [Worker_write ?a ?b ?c] =>
        rewrite (config_count _ _ (Worker_write_config a b c)),
                (config_flag _ _ (Worker_write_config a b c))
    | |- context [Remove_locked ?a ?c] =>
        rewrite (config_count _ _ (Remove_locked_config a c)),
                (config_flag _ _ (Remove_locked_config a c))
    | |- context [Read ?a ?b ?c] =>
        rewrite (config_count _ _ (Read_config a b c)),
                (config_flag _ _ (Read_config a b c))
    | |- context [CloseKeys ?c] =>
        rewrite (config_count _ _ (CloseKeys_config c)),
                (config_flag _ _ (CloseKeys_config c))
    | H : (_ <? _)%nat = true |- _ => apply Nat.ltb_lt in H
    | H : queue_is_empty _ = true |- _ => unfold queue_is_empty in H; apply Z.eqb_eq in H
    end;
    cbn [length] in *;
    try (specialize (Hr _ eq_refl));
    (split; [try (rewrite Hc, to_DWORD_small by lia); try lia
            |split; [try lia|split; [try assumption|try (intros ? [=]; lia); try discriminate]]]).
  all: try (intros ? ->; specialize (Hr _ eq_refl); lia).
  all: cbn [m_dwQueueCount with_hKeys]; rewrite Hc.
  all: try (destruct c); try (destruct wk); rewrite ?to_DWORD_small by lia; lia.
Qed.

Lemma IOHandler_new_config (path : String) (r : Registry) :
  m_bCloseHandle (io (IOHandler_new path r)) = false
  /\ m_dwQueueCount (io (IOHandler_new path r)) = 0
  /\ m_hKeys (io (IOHandler_new path r)) = ∅.
Proof.
  unfold IOHandler_new, SetRegRootKey. munfold. simpl. auto.
Qed.

Lemma World_new_inv limit (path : String) (r : Registry) :
  world_inv limit (World_new path r).
Proof.
  destruct (IOHandler_new_config path r) as (Hf & Hc & _).
  unfold world_inv, World_new, in_flight. cbn [w_sys w_queue w_caller w_worker length].
  repeat split; try assumption; try lia; try discriminate.
Qed.

Lemma run_inv sz limit tr w w' :
  Z.of_nat limit + 2 < 2 ^ 32 ->
  world_inv limit w -> run sz limit tr w = Some w' -> world_inv limit w'.
Proof.
  intros Hlim. revert w. induction tr as [|e tr IH]; intros w Hinv; simpl.
  - intros [= <-]. exact Hinv.
  - destruct (step sz limit e w) as [w1|] eqn:E; [|discriminate].
    apply IH. eapply step_inv; eauto.
Qed.

Lemma run_snoc sz limit tr e w w' :
  run sz limit (tr ++ [e]) w = Some w' <->
  exists w1, run sz limit tr w = Some w1 /\ step sz limit e w1 = Some w'.
Proof.
  rewrite run_app. destruct (run sz limit tr w) as [w1|]; simpl.
  - destruct (step sz limit e w1) as [w2|] eqn:E.
    + split; [intros [= <-]; eauto | intros (? & [= <-] & H); congruence].
    + split; [discriminate | intros (? & [= <-] & H); congruence].
  - split; [discriminate | intros (? & H & _); discriminate].
Qed.

Lemma count_events_snoc (f : Event -> bool) (tr : list Event) (e : Event) :
  count_events f (tr ++ [e]) = (count_events f tr + if f e then 1 else 0)%nat.
Proof.
  unfold count_events. rewrite filter_app, length_app. f_equal.
  rewrite filter_cons, filter_nil. destruct (f e); simpl.
  - destruct (decide (true = true)); [reflexivity | congruence].
  - destruct (decide (false = true)); [discriminate | reflexivity].
Qed.

Lemma step_accounted sz limit tr e w w' :
  accounted tr w -> step sz limit e w = Some w' -> accounted (tr ++ [e]) w'.
Proof.
  unfold accounted. cbv zeta. intros (H1 & H2 & H3 & H4 & H5) H.
  rewrite !count_events_snoc.
  destruct w as [s q c wk]. cbn [w_sys w_queue w_caller w_worker] in *.
  step_cases H; unfold with_caller, with_worker, with_queue, with_io, with_sys;
    cbn [w_sys w_queue w_caller w_worker is_inc is_posted is_refused is_dropped
         is_get is_apply is_done];
    rewrite ?length_app; cbn [length] in *;
    repeat split; try lia.
  all: try (destruct c; lia); try (destruct wk; lia).
Qed.

Lemma run_accounted sz limit path r tr w :
  run sz limit tr (World_new path r) = Some w -> accounted tr w.
Proof.
  revert w. induction tr as [|e tr IH] using rev_ind; intros w.
  - simpl. intros [= <-]. unfold accounted, count_events. simpl. repeat split.
  - rewrite run_snoc. intros (w1 & Hrun & Hstep).
    eapply step_accounted; eauto.
Qed.

(** C3.  Along every run of the caller and the worker (the message queue
    taking fewer than 2^32 - 2 messages): the counter equals the
    increments made minus the decrements made after a refused post and by
    the worker, and it equals the number of writes under way, so it is
    zero exactly when no write is under way.  A post is attempted only
    after the increment of its call; a decrement for a dropped write
    follows a refused post, with at most one refusal awaiting it; the
    worker decrements only after applying, applies only what it took, and
    takes only what was posted.  Right after a refused post the caller can
    do nothing but decrement the counter and return, the refused write
    never reaching the queue; after a successful post the caller returns
    and the write waits in the queue with the counter unchanged. *)
Theorem C3_pending_write_count :
  forall (sz : positive) (limit : nat) (path : String) (r : Registry)
         (tr : list Event) (w : World),
    Z.of_nat limit + 2 < 2 ^ 32 ->
    run sz limit tr (World_new path r) = Some w ->
    let n f := Z.of_nat (count_events f tr) in
    let count w := m_dwQueueCount (io (w_sys w)) in
    count w = n is_inc - n is_dropped - n is_done
    /\ count w = Z.of_nat (in_flight w)
    /\ (count w = 0 <-> in_flight w = 0%nat)
    /\ n is_posted + n is_refused <= n is_inc <= n is_posted + n is_refused + 1
    /\ n is_dropped <= n is_refused <= n is_dropped + 1
    /\ n is_done <= n is_apply <= n is_get
    /\ n is_get <= n is_posted
    /\ (forall pParam e w',
          w_caller w = WriteAsync_failed pParam ->
          step sz limit e w = Some w' -> is_worker_event e = false ->
          e = E_WriteAsync_dropped /\ w_caller w' = Idle
          /\ count w' = count w - 1 /\ w_queue w' = w_queue w)
    /\ (forall pParam e w',
          w_caller w = WriteAsync_posting pParam ->
          step sz limit e w = Some w' -> is_worker_event e = false ->
          count w' = count w
          /\ ((e = E_WriteAsync_posted /\ w_caller w' = Idle
               /\ w_queue w' = w_queue w ++ [pParam])
              \/ (e = E_WriteAsync_refused /\ w_caller w' = WriteAsync_failed pParam
                  /\ w_queue w' = w_queue w))).
Proof.
  intros sz limit path r tr w Hlim Hrun n count.
  pose proof (run_inv sz limit tr _ _ Hlim (World_new_inv limit path r) Hrun)
    as (Hc & Hq & Hf & Hr).
  pose proof (run_accounted sz limit path r tr w Hrun) as Hacc.
  unfold accounted in Hacc. cbv zeta in Hacc. destruct Hacc as (H1 & H2 & H3 & H4 & H5).
  assert (Hfl : in_flight w =
    (match w_caller w with WriteAsync_posting _ | WriteAsync_failed _ => 1 | _ => 0 end
     + length (w_queue w)
     + match w_worker w with Worker_idle => 0 | _ => 1 end)%nat) by reflexivity.
  unfold count, n.
  split; [|split; [exact Hc|split; [rewrite Hc; lia|]]].
  { rewrite Hc, Hfl. destruct (w_caller w), (w_worker w); lia. }
  split; [destruct (w_caller w); lia|].
  split; [destruct (w_caller w); lia|].
  split; [destruct (w_worker w); lia|].
  split; [lia|].
  split.
  - intros pParam e w' Hcaller Hstep Hnw.
    destruct w as [s q c wk]. cbn [w_sys w_queue w_caller w_worker] in *. subst c.
    assert (1 <= m_dwQueueCount (io s)) by (rewrite Hc; unfold in_flight; cbn; lia).
    assert (m_dwQueueCount (io s) < 2 ^ 32) by (rewrite Hc; unfold in_flight; cbn; destruct wk; lia).
    step_cases Hstep; try discriminate Hnw;
      unfold with_caller, with_io, InterlockedDecrement;
      cbn [w_sys w_queue w_caller w_worker io m_dwQueueCount set_QueueCount].
    rewrite to_DWORD_small by lia. auto.
  - intros pParam e w' Hcaller Hstep Hnw.
    destruct w as [s q c wk]. cbn [w_sys w_queue w_caller w_worker] in *. subst c.
    step_cases Hstep; try discriminate Hnw;
      unfold with_caller, with_queue;
      cbn [w_sys w_queue w_caller w_worker io m_dwQueueCount]; auto 10.
Qed.

Lemma C3_pending_write_count_witness :
  let p1 := {| p_name := _T "Settings/Width"; p_value := VInt 250 |} in
  let p2 := {| p_name := _T "Settings/Name"; p_value := VString (_T "ab") |} in
  match run 2 8 [E_WriteAsync_inc p1; E_WriteAsync_posted; E_Worker_get;
                 E_WriteAsync_inc p2; E_WriteAsync_refused; E_Worker_apply;
                 E_WriteAsync_dropped; E_Worker_done]
          (World_new example_root (fresh_registry empty_key)) with
  | Some w => m_dwQueueCount (io (w_sys w)) = 0 /\ in_flight w = 0%nat
  | None => False
  end.
Proof.
  intros p1 p2.
  destruct (run 2 8 _ _) as [w|] eqn:E.
  - assert (Hlim : Z.of_nat 8 + 2 < 2 ^ 32) by reflexivity.
    destruct (C3_pending_write_count 2 8 _ _ _ _ Hlim E) as (H1 & H2 & H3 & _).
    assert (Hz : m_dwQueueCount (io (w_sys w)) = 0).
    { rewrite H1. reflexivity. }
    split; [exact Hz | apply H3; exact Hz].
  - vm_compute in E. discriminate E.
Defined.

(* ------------------------------------------------------------------ *)
(** ** Remove and Read *)

Lemma is_prefix_refl (p : list String) : is_prefix p p = true.
Proof. induction p as [|a p IH]; simpl; [reflexivity|]. destruct (decide (a = a)); congruence. Qed.

Lemma strict_below_irrefl (p : list String) : strict_below p p = false.
Proof. unfold strict_below. rewrite is_prefix_refl, Nat.eqb_refl. reflexivity. Qed.

Lemma key_at_inv (hKey : HKEY) (r : Registry) p k :
  key_at hKey r = inr (p, k) ->
  resolve hKey r = inr p /\ find_key p (reg_hive r) = Some k.
Proof.
  unfold key_at. destruct (resolve hKey r) as [e|p']; [discriminate|].
  destruct (find_key p' (reg_hive r)) as [k'|] eqn:E; [|discriminate].
  intros [= <- <-]. auto.
Qed.

(** A deletion through a handle leaves the handle designating the same
    key. *)
Lemma resolve_kill_below (hKey : HKEY) (r : Registry) p hive calls next :
  resolve hKey r = inr p ->
  resolve hKey {| reg_hive := hive; reg_handles := kill_below p <$> reg_handles r;
                  reg_next := next; reg_calls := calls |} = inr p.
Proof.
  unfold resolve. destruct hKey as [| |n]; try (intros H; exact H).
  cbn [reg_handles]. rewrite lookup_fmap.
  destruct (reg_handles r !! n) as [hi|]; [|discriminate]. cbn [fmap option_fmap option_map].
  destruct (h_alive hi) eqn:Ea; [|discriminate]. intros [= <-].
  unfold kill_below. rewrite strict_below_irrefl, Ea. reflexivity.
Qed.

(** After the deletion [Remove] makes through a handle, a query through
    the same handle finds no value of that name. *)
Lemma delete_then_query (hKey : HKEY) (vn : String) (r1 : Registry) :
  let r2 := if decide (vn = []) then (RegDeleteTree hKey r1).2
            else (RegDeleteValue hKey vn r1).2 in
  match key_at hKey r2 with
  | inl _ => True
  | inr (_, k) => assoc_find vn (key_values k) = None
  end.
Proof.
  cbv zeta. destruct (decide (vn = [])) as [->|Hne].
  - unfold RegDeleteTree. destruct (key_at hKey r1) as [e|[p k]] eqn:Hk.
    + cbn [snd]. rewrite Hk. exact I.
    + cbn [snd]. apply key_at_inv in Hk as [Hres Hfind].
      unfold key_at. rewrite (resolve_kill_below _ _ _ _ _ _ Hres). cbn [reg_hive].
      rewrite find_key_update_eq, Hfind. reflexivity.
  - unfold RegDeleteValue. destruct (key_at hKey r1) as [e|[p k]] eqn:Hk.
    + cbn [snd]. rewrite Hk. exact I.
    + destruct (assoc_find vn (key_values k)) eqn:Hv; cbn [snd].
      * apply key_at_inv in Hk as [Hres Hfind].
        unfold key_at, with_hive.
        assert (Hres' : resolve hKey
                  {| reg_hive := update_key p (del_value vn) (reg_hive r1);
                     reg_handles := reg_handles r1; reg_next := reg_next r1;
                     reg_calls := reg_calls r1 |} = inr p).
        { destruct hKey; exact Hres. }
        rewrite Hres'. cbn [reg_hive]. rewrite find_key_update_eq, Hfind.
        cbn [fmap option_fmap option_map del_value key_values]. apply assoc_find_del_eq.
      * rewrite Hk. exact Hv.
Qed.

(** After [OpenKey] has returned a handle other than null, the handle is
    in the cache under the path. *)
Lemma OpenKey_cached (strPath : String) (bAlwaysCreate : bool) (s : Sys) :
  let hKey := (OpenKey strPath bAlwaysCreate s).1 in
  let s1 := (OpenKey strPath bAlwaysCreate s).2 in
  m_hKeys (io s1) !! strPath = Some hKey
  \/ (bAlwaysCreate = false /\ hKey = nullptr /\ m_hKeys (io s1) !! strPath = None).
Proof.
  cbv zeta. rewrite OpenKey_eq.
  destruct (m_hKeys (io s) !! strPath) as [h|] eqn:Ec; [left; exact Ec|].
  destruct bAlwaysCreate.
  - rewrite RegCreateKeyEx_HKCU.
    destruct (decide (ERROR_SUCCESS <> ERROR_SUCCESS)) as [n|_]; [contradiction n; reflexivity|].
    left. cbn [fst snd io with_hKeys m_hKeys]. apply lookup_insert_eq.
  - rewrite RegOpenKeyEx_HKCU.
    destruct (find_key _ _).
    + destruct (decide (ERROR_SUCCESS <> ERROR_SUCCESS)) as [n|_]; [contradiction n; reflexivity|].
      left. cbn [fst snd io with_hKeys m_hKeys]. apply lookup_insert_eq.
    + destruct (decide (ERROR_FILE_NOT_FOUND <> ERROR_SUCCESS)) as [_|n];
        [|contradiction n; discriminate].
      right. cbn [fst snd io]. auto.
Qed.

(** [Read] of a name right after [Remove] of that name never reports
    success. *)
Lemma Read_after_Remove (name : String) (buf : list BYTE) (s : Sys) :
  m_bCloseHandle (io s) = false ->
  (Read name buf (Remove_locked name s).2).1.1.1 <> ERROR_SUCCESS.
Proof.
  intros Hflag. rewrite Remove_locked_eq, Read_eq.
  destruct (SplitName name) as [strPath vn].
  pose proof (OpenKey_cached strPath true s) as Hc. cbv zeta in Hc.
  pose proof (OpenKey_config strPath true s) as Hcfg.
  destruct (OpenKey strPath true s) as [hKey s1]. cbn [fst snd] in *.
  destruct Hc as [Hc | (Hb & _)]; [|discriminate].
  assert (Hflag1 : m_bCloseHandle (io s1) = false)
    by (rewrite (config_flag _ _ Hcfg); exact Hflag).
  rewrite CloseKey_eq. cbn [io]. rewrite Hflag1. cbn [snd].
  rewrite OpenKey_eq. cbn [io reg]. rewrite Hc.
  rewrite CloseKey_eq. cbn [io]. rewrite Hflag1. cbn [fst snd reg].
  apply Read_query_missing. apply delete_then_query.
Qed.

(** C1.  Along every run (the message queue taking fewer than 2^32 - 2
    messages): [Remove] leaves its wait loop only on reading the counter
    as zero; when it is about to enter its critical section the counter is
    zero, the queue is empty and the worker idle, so that the deletion is
    the only step that can happen; and once [Remove(name)] has returned,
    the worker has nothing to do before the caller's next call, and
    [Read(name)] does not report success: it observes no value, whatever
    was written to the name before the [Remove]. *)
Theorem C1_remove_then_read :
  forall (sz : positive) (limit : nat) (path : String) (r : Registry)
         (tr : list Event) (w : World) (name : String),
    Z.of_nat limit + 2 < 2 ^ 32 ->
    run sz limit tr (World_new path r) = Some w ->
    (forall w', step sz limit E_Remove_pass w = Some w' ->
       m_dwQueueCount (io (w_sys w)) = 0 /\ in_flight w = 0%nat)
    /\ (w_caller w = Remove_waiting name ->
        m_dwQueueCount (io (w_sys w)) <> 0 ->
        step sz limit E_Remove_pass w = None /\ step sz limit E_Remove_return w = None)
    /\ (w_caller w = Remove_entering name ->
        m_dwQueueCount (io (w_sys w)) = 0
        /\ w_queue w = [] /\ w_worker w = Worker_idle
        /\ (forall e w', step sz limit e w = Some w' -> e = E_Remove_return)
        /\ exists w1,
            step sz limit E_Remove_return w = Some w1
            /\ w_caller w1 = Idle
            /\ w_sys w1 = (Remove_locked name (w_sys w)).2
            /\ (forall e, is_worker_event e = true -> step sz limit e w1 = None)
            /\ forall buf, (Read name buf (w_sys w1)).1.1.1 <> ERROR_SUCCESS).
Proof.
  intros sz limit path r tr w name Hlim Hrun.
  pose proof (run_inv sz limit tr _ _ Hlim (World_new_inv limit path r) Hrun)
    as (Hc & Hq & Hf & Hr).
  split; [|split].
  - intros w' Hstep.
    destruct w as [s q c wk]. cbn [w_sys w_queue w_caller w_worker] in *.
    step_cases Hstep.
    match goal with H : queue_is_empty _ = true |- _ =>
      unfold queue_is_empty in H; apply Z.eqb_eq in H; rename H into Hz end.
    split; [exact Hz | lia].
  - intros Hcaller Hne. unfold step. rewrite Hcaller.
    unfold queue_is_empty. apply Z.eqb_neq in Hne. rewrite Hne.
    destruct (w_worker w); auto.
  - intros Hcaller. specialize (Hr _ Hcaller).
    assert (Hz : m_dwQueueCount (io (w_sys w)) = 0) by lia.
    destruct w as [s q c wk]. cbn [w_sys w_queue w_caller w_worker] in *. subst c.
    unfold in_flight in Hr. cbn [w_sys w_queue w_caller w_worker] in Hr.
    assert (Hq0 : q = []) by (destruct q; [reflexivity | cbn in Hr; lia]).
    assert (Hw0 : wk = Worker_idle) by (destruct wk; [reflexivity | lia | lia]).
    subst q wk.
    split; [exact Hz|]. split; [reflexivity|]. split; [reflexivity|].
    split.
    + intros e w' Hstep. step_cases Hstep. reflexivity.
    + eexists. split; [reflexivity|].
      cbn [w_caller w_sys with_caller with_sys].
      split; [reflexivity|]. split; [reflexivity|]. split.
      * intros e He. destruct e; try discriminate He; reflexivity.
      * intros buf. apply Read_after_Remove. exact Hf.
Qed.

Lemma C1_remove_then_read_witness :
  let p := {| p_name := _T "Settings/Width"; p_value := VInt 250 |} in
  match run 2 8 [E_WriteAsync_inc p; E_WriteAsync_posted;
                 E_Remove_call (_T "Settings/Width"); E_Remove_spin;
                 E_Worker_get; E_Worker_apply; E_Remove_spin; E_Worker_done;
                 E_Remove_pass]
          (World_new example_root (fresh_registry empty_key)) with
  | Some w =>
      stored (w_sys w) (_T "Settings/Width")
        = Some {| rv_type := REG_DWORD; rv_data := [250; 0; 0; 0] |}
      /\ exists w1, step 2 8 E_Remove_return w = Some w1
           /\ (Read (_T "Settings/Width") (replicate 256 0) (w_sys w1)).1.1.1
                <> ERROR_SUCCESS
  | None => False
  end.
Proof.
  intros p.
  destruct (run 2 8 _ _) as [w|] eqn:E.
  - assert (Hlim : Z.of_nat 8 + 2 < 2 ^ 32) by reflexivity.
    destruct (C1_remove_then_read 2 8 _ _ _ _ (_T "Settings/Width") Hlim E)
      as (_ & _ & H3).
    assert (Hw : Some w = Some w) by reflexivity.
    rewrite <- E in Hw at 1. vm_compute in Hw. injection Hw as Hw.
    assert (Hcaller : w_caller w = Remove_entering (_T "Settings/Width"))
      by (rewrite <- Hw; reflexivity).
    destruct (H3 Hcaller) as (_ & _ & _ & _ & w1 & Hstep & _ & _ & _ & Hread).
    split.
    + rewrite <- Hw. vm_compute. reflexivity.
    + exists w1. split; [exact Hstep | apply Hread].
  - vm_compute in E. discriminate E.
Defined.

(* ------------------------------------------------------------------ *)
(** ** The key-handle cache *)

Lemma OpenKey_mono (strPath p : String) (b : bool) (s : Sys) (h : HKEY) :
  m_hKeys (io s) !! p = Some h ->
  m_hKeys (io (OpenKey strPath b s).2) !! p = Some h.
Proof.
  intros Hp. rewrite OpenKey_eq.
  destruct (m_hKeys (io s) !! strPath) as [h'|] eqn:Ec; [exact Hp|].
  destruct ((if b then RegCreateKeyEx else RegOpenKeyEx) _ _ _) as [[code hKey] r].
  destruct (decide (code <> ERROR_SUCCESS)); cbn [snd io with_hKeys m_hKeys]; [exact Hp|].
  rewrite lookup_insert_ne; [exact Hp | congruence].
Qed.

Lemma OpenKey_wf (strPath : String) (b : bool) (s : Sys) :
  cache_wf s -> cache_wf (OpenKey strPath b s).2.
Proof.
  intros [H1 H2]. rewrite OpenKey_eq.
  destruct (m_hKeys (io s) !! strPath) as [h'|] eqn:Ec; [split; assumption|].
  assert (Hins : forall hive,
    cache_wf
      {| io := with_hKeys (<[strPath := Handle (reg_next (reg s))]> (m_hKeys (io s))) (io s);
         reg := {| reg_hive := hive;
                   reg_handles := <[reg_next (reg s) :=
                      {| h_path := m_registryRoot (io s) ++ strPath; h_alive := true |}]>
                      (reg_handles (reg s));
                   reg_next := S (reg_next (reg s));
                   reg_calls := S (reg_calls (reg s)) |} |}).
  { intros hive. split; cbn [io reg with_hKeys m_hKeys m_registryRoot reg_handles reg_next].
    - intros p h. destruct (decide (p = strPath)) as [->|Hne].
      + rewrite lookup_insert_eq. intros [= <-]. eexists _, _. split; [reflexivity|].
        apply lookup_insert_eq.
      + rewrite lookup_insert_ne by congruence. intros Hp.
        destruct (H1 _ _ Hp) as (n & alive & -> & Hh).
        exists n, alive. split; [reflexivity|].
        rewrite lookup_insert_ne; [exact Hh|]. apply H2 in Hh as [Hlt _]. lia.
    - intros n hi. destruct (decide (n = reg_next (reg s))) as [->|Hne].
      + rewrite lookup_insert_eq. intros [= <-]. split; [lia|].
        exists strPath. split; [apply lookup_insert_eq | reflexivity].
      + rewrite lookup_insert_ne by congruence. intros Hh.
        destruct (H2 _ _ Hh) as (Hlt & p & Hp & Hpath). split; [lia|].
        exists p. split; [|exact Hpath].
        rewrite lookup_insert_ne; [exact Hp | congruence]. }
  destruct b.
  - rewrite RegCreateKeyEx_HKCU.
    destruct (decide (ERROR_SUCCESS <> ERROR_SUCCESS)) as [n|_]; [contradiction n; reflexivity|].
    apply Hins.
  - rewrite RegOpenKeyEx_HKCU. destruct (find_key _ _).
    + destruct (decide (ERROR_SUCCESS <> ERROR_SUCCESS)) as [n|_]; [contradiction n; reflexivity|].
      apply Hins.
    + destruct (decide (ERROR_FILE_NOT_FOUND <> ERROR_SUCCESS)) as [_|n];
        [|contradiction n; discriminate].
      split; cbn [snd io reg count_call reg_handles reg_next]; assumption.
Qed.

(** A registry change that keeps the handles, up to their being alive,
    keeps the cache and the handles matched. *)
Lemma cache_wf_same_paths (s : Sys) (r' : Registry) :
  cache_wf s ->
  reg_next r' = reg_next (reg s) ->
  (forall n, h_path <$> reg_handles r' !! n = h_path <$> reg_handles (reg s) !! n) ->
  cache_wf {| io := io s; reg := r' |}.
Proof.
  intros [H1 H2] Hnext Hpaths. split; cbn [io reg].
  - intros p h Hp. destruct (H1 _ _ Hp) as (n & alive & -> & Hh).
    specialize (Hpaths n). rewrite Hh in Hpaths.
    destruct (reg_handles r' !! n) as [[path' alive']|] eqn:E'; [|discriminate].
    injection Hpaths as ->. exists n, alive'. auto.
  - intros n hi Hh. specialize (Hpaths n). rewrite Hh in Hpaths.
    destruct (reg_handles (reg s) !! n) as [hi0|] eqn:E0; [|discriminate].
    injection Hpaths as Hp. destruct (H2 _ _ E0) as (Hlt & p & Hc & Hpath).
    split; [lia|]. exists p. split; [exact Hc | congruence].
Qed.

Lemma RegSetValueEx_handles hKey name type data r :
  reg_next (RegSetValueEx hKey name type data r).2 = reg_next r
  /\ reg_handles (RegSetValueEx hKey name type data r).2 = reg_handles r.
Proof.
  unfold RegSetValueEx. destruct (key_at hKey r) as [e|[p k]]; auto.
Qed.

Lemma RegDeleteValue_handles hKey name r :
  reg_next (RegDeleteValue hKey name r).2 = reg_next r
  /\ reg_handles (RegDeleteValue hKey name r).2 = reg_handles r.
Proof.
  unfold RegDeleteValue. destruct (key_at hKey r) as [e|[p k]]; auto.
  destruct (assoc_find name (key_values k)); auto.
Qed.

Lemma RegDeleteTree_handles hKey r :
  reg_next (RegDeleteTree hKey r).2 = reg_next r
  /\ forall n, h_path <$> reg_handles (RegDeleteTree hKey r).2 !! n
               = h_path <$> reg_handles r !! n.
Proof.
  unfold RegDeleteTree. destruct (key_at hKey r) as [e|[p k]]; [auto|].
  cbn [snd reg_next reg_handles]. split; [reflexivity|].
  intros n. rewrite lookup_fmap. destruct (reg_handles r !! n) as [hi|]; [|reflexivity].
  cbn. unfold kill_below. destruct (strict_below p _); reflexivity.
Qed.

Lemma SaveValueToReg_wf sz hKey name value s :
  cache_wf s -> cache_wf (SaveValueToReg sz hKey name value s).2.
Proof.
  intros Hwf. rewrite SaveValueToReg_eq.
  destruct (encode_value sz value) as [[type data]|]; [|exact Hwf].
  pose proof (RegSetValueEx_handles hKey name type data (reg s)) as [Hn Hh].
  destruct (RegSetValueEx hKey name type data (reg s)) as [code r]. cbn [snd] in *.
  apply cache_wf_same_paths; [exact Hwf | exact Hn | intros n; rewrite Hh; reflexivity].
Qed.

Lemma CloseKey_keep hKey strPath s :
  m_bCloseHandle (io s) = false -> (CloseKey hKey strPath s).2 = s.
Proof. intros H. rewrite CloseKey_eq, H. reflexivity. Qed.

Lemma Worker_write_wf sz pParam s :
  m_bCloseHandle (io s) = false -> cache_wf s ->
  cache_wf (Worker_write sz pParam s).2
  /\ forall p h, m_hKeys (io s) !! p = Some h ->
                 m_hKeys (io (Worker_write sz pParam s).2) !! p = Some h.
Proof.
  intros Hf Hwf. rewrite Worker_write_eq.
  destruct (SplitName (p_name pParam)) as [strPath vn].
  pose proof (OpenKey_wf strPath true s Hwf) as Hwf1.
  pose proof (OpenKey_config strPath true s) as Hcfg.
  pose proof (fun p h => OpenKey_mono strPath p true s h) as Hmono.
  destruct (OpenKey strPath true s) as [hKey s1]. cbn [snd] in *.
  rewrite CloseKey_keep.
  - split; [apply SaveValueToReg_wf; exact Hwf1|].
    intros p h Hp. rewrite SaveValueToReg_eq.
    destruct (encode_value _ _) as [[type data]|]; [|auto].
    destruct (RegSetValueEx _ _ _ _ _). cbn [snd io]. auto.
  - rewrite (config_flag _ _ (SaveValueToReg_config _ _ _ _ _)).
    rewrite (config_flag _ _ Hcfg). exact Hf.
Qed.

Lemma Remove_locked_wf name s :
  m_bCloseHandle (io s) = false -> cache_wf s ->
  cache_wf (Remove_locked name s).2
  /\ forall p h, m_hKeys (io s) !! p = Some h ->
                 m_hKeys (io (Remove_locked name s).2) !! p = Some h.
Proof.
  intros Hf Hwf. rewrite Remove_locked_eq.
  destruct (SplitName name) as [strPath vn].
  pose proof (OpenKey_wf strPath true s Hwf) as Hwf1.
  pose proof (OpenKey_config strPath true s) as Hcfg.
  pose proof (fun p h => OpenKey_mono strPath p true s h) as Hmono.
  destruct (OpenKey strPath true s) as [hKey s1]. cbn [snd] in *.
  rewrite CloseKey_keep by (cbn [io]; rewrite (config_flag _ _ Hcfg); exact Hf).
  split; [|cbn [io]; auto].
  destruct (decide (vn = [])).
  - pose proof (RegDeleteTree_handles hKey (reg s1)) as [Hn Hh].
    apply cache_wf_same_paths; assumption.
  - pose proof (RegDeleteValue_handles hKey vn (reg s1)) as [Hn Hh].
    apply cache_wf_same_paths; [exact Hwf1 | exact Hn | intros n'; rewrite Hh; reflexivity].
Qed.

Lemma Read_wf name buf s :
  m_bCloseHandle (io s) = false -> cache_wf s ->
  cache_wf (Read name buf s).2
  /\ forall p h, m_hKeys (io s) !! p = Some h ->
                 m_hKeys (io (Read name buf s).2) !! p = Some h.
Proof.
  intros Hf Hwf. rewrite Read_eq.
  destruct (SplitName name) as [strPath vn].
  pose proof (OpenKey_wf strPath false s Hwf) as Hwf1.
  pose proof (OpenKey_config strPath false s) as Hcfg.
  pose proof (fun p h => OpenKey_mono strPath p false s h) as Hmono.
  destruct (OpenKey strPath false s) as [hKey s1]. cbn [snd] in *.
  rewrite CloseKey_keep by (rewrite (config_flag _ _ Hcfg); exact Hf).
  split; [exact Hwf1 | exact Hmono].
Qed.

(** Closing every cached handle. *)
Lemma close_all_handles (m : gmap String HKEY) (r : Registry) :
  let r' := map_fold (fun _ hKey r => RegCloseKey hKey r) r m in
  reg_next r' = reg_next r
  /\ (forall p n, m !! p = Some (Handle n) -> reg_handles r' !! n = None)
  /\ (forall n hi, reg_handles r' !! n = Some hi -> reg_handles r !! n = Some hi).
Proof.
  cbv zeta.
  apply (map_fold_weak_ind (fun r' m =>
    reg_next r' = reg_next r
    /\ (forall p n, m !! p = Some (Handle n) -> reg_handles r' !! n = None)
    /\ (forall n hi, reg_handles r' !! n = Some hi -> reg_handles r !! n = Some hi))).
  - split; [reflexivity|]. split; [|auto]. intros p n. rewrite lookup_empty. discriminate.
  - intros p h m0 r0 Hnone (Hn & Hin & Hsub).
    destruct h as [| |k]; cbn [RegCloseKey].
    + unfold RegCloseKey. split; [exact Hn|]. split; [|exact Hsub].
      intros p' n. destruct (decide (p' = p)) as [->|Hne].
      * rewrite lookup_insert_eq. discriminate.
      * rewrite lookup_insert_ne by congruence. apply Hin.
    + unfold RegCloseKey. split; [exact Hn|]. split; [|exact Hsub].
      intros p' n. destruct (decide (p' = p)) as [->|Hne].
      * rewrite lookup_insert_eq. discriminate.
      * rewrite lookup_insert_ne by congruence. apply Hin.
    + unfold RegCloseKey. cbn [reg_next reg_handles]. split; [exact Hn|]. split.
      * intros p' n. destruct (decide (n = k)) as [->|Hnk].
        -- intros _. apply lookup_delete_eq.
        -- rewrite lookup_delete_ne by congruence.
           destruct (decide (p' = p)) as [->|Hne].
           ++ rewrite lookup_insert_eq. intros [= ->]. contradiction.
           ++ rewrite lookup_insert_ne by congruence. apply Hin.
      * intros n hi. destruct (decide (n = k)) as [->|Hnk].
        -- rewrite lookup_delete_eq. discriminate.
        -- rewrite lookup_delete_ne by congruence. apply Hsub.
Qed.

Lemma CloseKeys_wf s :
  cache_wf s ->
  m_hKeys (io (CloseKeys s).2) = ∅ /\ reg_handles (reg (CloseKeys s).2) = ∅
  /\ cache_wf (CloseKeys s).2.
Proof.
  intros [H1 H2].
  pose proof (close_all_handles (m_hKeys (io s)) (reg s)) as H. cbv zeta in H.
  destruct H as (Hn & Hin & Hsub).
  assert (He : reg_handles (reg (CloseKeys s).2) = ∅).
  { apply map_eq. intros n. rewrite lookup_empty.
    unfold CloseKeys. munfold. cbn [snd reg].
    destruct (reg_handles _ !! n) as [hi|] eqn:E; [|reflexivity].
    pose proof (Hsub _ _ E) as E0. destruct (H2 _ _ E0) as (_ & p & Hp & _).
    rewrite (Hin _ _ Hp) in E. discriminate. }
  split; [reflexivity|]. split; [exact He|].
  split.
  - intros p h. unfold CloseKeys. munfold. cbn [snd io with_hKeys m_hKeys].
    rewrite lookup_empty. discriminate.
  - intros n hi. rewrite He, lookup_empty. discriminate.
Qed.

Lemma import_entry_eq (sz : positive) (optionsMap : OptionsMap) (types : gmap String String)
  (key strValue : String) (s : Sys) :
  import_entry sz optionsMap types key strValue s =
    if decide (optionsMap !! key = None /\ types !! key <> None) then
      let '(strPath, strValueName) := SplitName key in
      let '(hKey, s1) := OpenKey strPath true s in
      if decide (hKey <> nullptr) then
        CloseKey hKey strPath
          (SaveValueToReg sz hKey strValueName
             (import_value (default [] (types !! key)) strValue) s1).2
      else (tt, s1)
    else (tt, s).
Proof.
  unfold import_entry.
  destruct (decide (optionsMap !! key = None /\ types !! key <> None)); [|reflexivity].
  destruct (SplitName key) as [strPath vn].
  unfold bind at 1. destruct (OpenKey strPath true s) as [hKey s1].
  destruct (decide (hKey <> nullptr)); [|reflexivity].
  unfold bind. destruct (SaveValueToReg _ _ _ _ _). reflexivity.
Qed.



Lemma step_cache sz limit e w w' :
  m_bCloseHandle (io (w_sys w)) = false -> cache_wf (w_sys w) ->
  step sz limit e w = Some w' ->
  cache_wf (w_sys w')
  /\ (e <> E_CloseKeys ->
      forall p h, m_hKeys (io (w_sys w)) !! p = Some h ->
                  m_hKeys (io (w_sys w')) !! p = Some h).
Proof.
  intros Hf Hwf H.
  destruct w as [s q c wk]. cbn [w_sys w_queue w_caller w_worker] in *.
  step_cases H; unfold with_caller, with_worker, with_queue, with_io, with_sys;
    cbn [w_sys w_queue w_caller w_worker io reg].
  all: try (split; [exact Hwf | intros _ p h Hp; exact Hp]).
  all: try match goal with
           | |- context [Worker_write ?a ?b ?c] =>
               destruct (Worker_write_wf a b c Hf Hwf); auto
           | |- context [Remove_locked ?a ?c] =>
               destruct (Remove_locked_wf a c Hf Hwf); auto
           | |- context [Read ?a ?b ?c] =>
               destruct (Read_wf a b c Hf Hwf); auto
           end.
  split; [apply CloseKeys_wf; exact Hwf|]. intros Hne. contradiction Hne. reflexivity.
Qed.

Lemma run_cache sz limit tr w w' :
  m_bCloseHandle (io (w_sys w)) = false -> cache_wf (w_sys w) ->
  run sz limit tr w = Some w' -> cache_wf (w_sys w').
Proof.
  revert w. induction tr as [|e tr IH]; intros w Hf Hwf; simpl.
  - intros [= <-]. exact Hwf.
  - destruct (step sz limit e w) as [w1|] eqn:E; [|discriminate].
    apply IH.
    + rewrite (proj2 (step_root _ _ _ _ _ E)). exact Hf.
    + eapply step_cache; eauto.
Qed.

(** [OpenKey] is the test of the cache followed, when it finds no entry,
    by [OpenKey_open]. *)
Lemma OpenKey_steps (strPath : String) (bAlwaysCreate : bool) (s : Sys) :
  OpenKey strPath bAlwaysCreate s =
    match m_hKeys (io s) !! strPath with
    | Some hKey => (hKey, s)
    | None => OpenKey_open strPath bAlwaysCreate s
    end.
Proof.
  unfold OpenKey, OpenKey_open. munfold.
  destruct (m_hKeys (io s) !! strPath); reflexivity.
Qed.






(* ------------------------------------------------------------------ *)
(** ** Export *)

Lemma section_names_differ : _T "WinMerge" <> _T "WinMerge.TypeInfo".
Proof. discriminate. Qed.

Lemma ini_section_write (section key v : String) (f : IniFile) (section' : String) :
  ini_section (WritePrivateProfileString section key (Some v) f) section' =
    if decide (section = section') then <[key := v]> (ini_section f section)
    else ini_section f section'.
Proof.
  unfold ini_section, WritePrivateProfileString.
  destruct (decide (section = section')) as [->|Hne].
  - rewrite lookup_insert_eq. reflexivity.
  - rewrite lookup_insert_ne by exact Hne. reflexivity.
Qed.

Lemma ini_section_delete (section key : String) (f : IniFile) (section' : String) :
  ini_section (WritePrivateProfileString section key None f) section' =
    if decide (section = section') then delete key (ini_section f section)
    else ini_section f section'.
Proof.
  unfold ini_section, WritePrivateProfileString.
  destruct (f !! section) as [sec|] eqn:E.
  - destruct (decide (section = section')) as [->|Hne].
    + rewrite lookup_insert_eq. reflexivity.
    + rewrite lookup_insert_ne by exact Hne. reflexivity.
  - destruct (decide (section = section')) as [->|Hne]; [|reflexivity].
    rewrite E. cbn [default]. symmetry. apply delete_empty.
Qed.

(** What [export_value] leaves in the two sections. *)
Lemma export_value_sections (sz : positive) (strName : String) (v : RegValue) (data : list BYTE)
  (f : IniFile) :
  let f' := export_value sz strName (rv_type v) data f in
  if exportable v then
    exists text tag,
      ini_section f' (_T "WinMerge") = <[strName := text]> (ini_section f (_T "WinMerge"))
      /\ ini_section f' (_T "WinMerge.TypeInfo")
         = <[strName := tag]> (ini_section f (_T "WinMerge.TypeInfo"))
      /\ ((rv_type v = REG_DWORD /\ tag = _T "int"
           /\ text = to_str (to_int (read_DWORD data)))
          \/ (rv_type v = REG_SZ /\ tag = _T "string"
              /\ text = EscapeValue sz (read_c_str sz data)))
  else f' = f.
Proof.
  cbv zeta. unfold exportable, export_value.
  pose proof section_names_differ as Hsec.
  destruct (decide (rv_type v = REG_DWORD)) as [Hd|Hd].
  - rewrite (bool_decide_eq_true_2 _ Hd). cbn [orb].
    eexists _, _. rewrite !ini_section_write.
    destruct (decide (_T "WinMerge.TypeInfo" = _T "WinMerge")) as [E|_]; [congruence|].
    destruct (decide (_T "WinMerge" = _T "WinMerge")) as [_|E]; [|congruence].
    destruct (decide (_T "WinMerge.TypeInfo" = _T "WinMerge.TypeInfo")) as [_|E]; [|congruence].
    destruct (decide (_T "WinMerge" = _T "WinMerge.TypeInfo")) as [E|_]; [congruence|].
    split; [reflexivity|]. split; [reflexivity|]. left. auto.
  - rewrite (bool_decide_eq_false_2 _ Hd). cbn [orb].
    destruct (decide (rv_type v = REG_SZ)) as [Hs|Hs].
    + rewrite (bool_decide_eq_true_2 _ Hs).
      eexists _, _. rewrite !ini_section_write, !ini_section_delete.
      destruct (decide (_T "WinMerge.TypeInfo" = _T "WinMerge")) as [E|_]; [congruence|].
      destruct (decide (_T "WinMerge" = _T "WinMerge")) as [_|E]; [|congruence].
      destruct (decide (_T "WinMerge.TypeInfo" = _T "WinMerge.TypeInfo")) as [_|E]; [|congruence].
      destruct (decide (_T "WinMerge" = _T "WinMerge.TypeInfo")) as [E|_]; [congruence|].
      split; [apply insert_delete_eq|]. split; [reflexivity|]. right. auto.
    + rewrite (bool_decide_eq_false_2 _ Hs). reflexivity.
Qed.

Lemma touched_nil optionsMap name : touched [] optionsMap name = false.
Proof. unfold touched. cbn. apply andb_false_r. Qed.

Lemma touched_app l1 l2 optionsMap name :
  touched (l1 ++ l2) optionsMap name = touched l1 optionsMap name || touched l2 optionsMap name.
Proof.
  unfold touched. rewrite existsb_app.
  destruct (bool_decide (optionsMap !! name = None)); reflexivity.
Qed.

Lemma export_inv_nil (sz : positive) optionsMap f : export_inv sz [] optionsMap f f.
Proof. intros name. rewrite touched_nil. auto. Qed.

Lemma export_inv_app (sz : positive) l1 l2 optionsMap f0 f1 f2 :
  export_inv sz l1 optionsMap f0 f1 -> export_inv sz l2 optionsMap f1 f2 ->
  export_inv sz (l1 ++ l2) optionsMap f0 f2.
Proof.
  intros H1 H2 name. specialize (H1 name). specialize (H2 name).
  rewrite touched_app.
  destruct (touched l2 optionsMap name).
  - rewrite orb_true_r. destruct H2 as (v & text & tag & Hin & H).
    exists v, text, tag. split; [apply elem_of_app; auto | exact H].
  - rewrite orb_false_r. destruct H2 as [HV HT].
    destruct (touched l1 optionsMap name).
    + destruct H1 as (v & text & tag & Hin & He & HV1 & HT1 & Has).
      exists v, text, tag. split; [apply elem_of_app; auto|].
      split; [exact He|]. rewrite HV, HT. auto.
    + destruct H1 as [HV1 HT1]. split; congruence.
Qed.

Lemma export_inv_single (sz : positive) (name : String) (v : RegValue) (data : list BYTE)
  (optionsMap : OptionsMap) (f0 : IniFile) :
  take (length (rv_data v)) data = rv_data v ->
  export_inv sz [(name, v)] optionsMap f0
    (if decide (optionsMap !! name = None)
     then export_value sz name (rv_type v) data f0 else f0).
Proof.
  intros Hdata name'. unfold touched. cbn [existsb fst snd]. rewrite orb_false_r.
  pose proof (export_value_sections sz name v data f0) as Hexp. cbv zeta in Hexp.
  destruct (decide (optionsMap !! name = None)) as [Hm|Hm].
  - destruct (exportable v) eqn:Ex.
    + destruct Hexp as (text & tag & HV & HT & Has).
      destruct (decide (name = name')) as [<-|Hne].
      * rewrite (bool_decide_eq_true_2 _ Hm), (bool_decide_eq_true_2 _ eq_refl). cbn [andb].
        exists v, text, tag. split; [apply list_elem_of_singleton; reflexivity|].
        split; [exact Ex|]. rewrite HV, HT, !lookup_insert_eq.
        split; [reflexivity|]. split; [reflexivity|]. exists data. auto.
      * rewrite (bool_decide_eq_false_2 _ Hne). cbn [andb]. rewrite andb_false_r.
        rewrite HV, HT, !lookup_insert_ne by exact Hne. auto.
    + rewrite Hexp, !andb_false_r. auto.
  - destruct (decide (name = name')) as [<-|Hne].
    + rewrite (bool_decide_eq_false_2 _ Hm). cbn [andb]. auto.
    + rewrite (bool_decide_eq_false_2 _ Hne). cbn [andb]. rewrite andb_false_r. auto.
Qed.

Lemma RegEnumValue_cases (sz : positive) (entry : String * RegValue) (cch : Z) (data : list BYTE) (cb : Z) :
  let res := RegEnumValue entry cch data cb in
  (res.1.1 = ERROR_MORE_DATA)
  \/ (res.1.1 = ERROR_SUCCESS
      /\ take (length (rv_data entry.2)) res.1.2 = rv_data entry.2).
Proof.
  cbv zeta. unfold RegEnumValue. destruct (_ || _); cbn [fst snd]; [left; reflexivity|].
  right. split; [reflexivity|]. unfold overwrite. apply take_app_length.
Qed.

(** The first loop of the export: the values it gets through are
    exported, and it gets through all of them unless it fails. *)
Lemma export_values_inv (sz : positive) (values : list (String * RegValue)) (strPath : String)
  (optionsMap : OptionsMap) (data : list BYTE) (f0 : IniFile) :
  let res := export_values sz values strPath optionsMap data f0 in
  exists done rest,
    map (fun e => (strPath ++ _T "/" ++ e.1, e.2)) values = done ++ rest
    /\ export_inv sz done optionsMap f0 res.2
    /\ (res.1 = Some tt -> rest = []).
Proof.
  cbv zeta. revert data f0.
  induction values as [|entry values IH]; intros data f0.
  - exists [], []. cbn. split; [reflexivity|]. split; [apply export_inv_nil | reflexivity].
  - cbn [export_values map].
    pose proof (RegEnumValue_cases sz entry MAX_PATH data (to_DWORD (Z.of_nat (length data))))
      as Hfirst. cbv zeta in Hfirst.
    destruct (RegEnumValue entry MAX_PATH data (to_DWORD (Z.of_nat (length data))))
      as [[result1 data1] cb1]. cbn [fst snd] in Hfirst.
    set (second := RegEnumValue entry MAX_PATH (vec_resize (to_DWORD (cb1 * 2)) data1)
                     (to_DWORD (cb1 * 2))).
    pose proof (RegEnumValue_cases sz entry MAX_PATH (vec_resize (to_DWORD (cb1 * 2)) data1)
                  (to_DWORD (cb1 * 2))) as Hsecond. cbv zeta in Hsecond. fold second in Hsecond.
    assert (Hres : exists result data2 cb2,
      (if decide (result1 = ERROR_MORE_DATA) then second else (result1, data1, cb1))
        = (result, data2, cb2)
      /\ (result = ERROR_MORE_DATA
          \/ (result = ERROR_SUCCESS
              /\ take (length (rv_data entry.2)) data2 = rv_data entry.2))).
    { destruct (decide (result1 = ERROR_MORE_DATA)) as [E1|E1].
      - destruct second as [[r2 d2] c2]. cbn [fst snd] in Hsecond. eauto.
      - eexists _, _, _. split; [reflexivity|]. exact Hfirst. }
    destruct Hres as (result & data2 & cb2 & -> & Hcase).
    destruct Hcase as [-> | [-> Hdata]].
    + destruct (decide (ERROR_MORE_DATA = ERROR_SUCCESS)); [discriminate|].
      destruct (decide (ERROR_MORE_DATA = ERROR_NO_MORE_ITEMS)); [discriminate|].
      cbn [fst snd]. eexists [], _. split; [reflexivity|].
      split; [apply export_inv_nil | discriminate].
    + destruct (decide (ERROR_SUCCESS = ERROR_SUCCESS)); [|congruence].
      set (name := strPath ++ _T "/" ++ entry.1).
      set (f1 := if decide (optionsMap !! name = None)
                 then export_value sz name (rv_type entry.2) data2 f0 else f0).
      destruct (IH data2 f1) as (done & rest & Hmap & Hinv & Hall).
      exists ((name, entry.2) :: done), rest.
      split; [rewrite Hmap; reflexivity|].
      split; [|exact Hall].
      change ((name, entry.2) :: done) with ([(name, entry.2)] ++ done).
      eapply export_inv_app; [|exact Hinv].
      apply export_inv_single. exact Hdata.
Qed.

(** Induction on a key with the property at hand for all its subkeys. *)
Lemma RegKey_subkeys_ind (P : RegKey -> Prop) :
  (forall values subkeys, Forall (fun sub => P sub.2) subkeys -> P (MkKey values subkeys)) ->
  forall k, P k.
Proof.
  intros H. fix IH 1. intros [values subkeys]. apply H.
  induction subkeys as [|sub subkeys IHs]; constructor; [apply IH | exact IHs].
Qed.

Lemma export_subkeys_inv (sz : positive)
  (recurse : RegKey -> String -> IniFile -> OptResult * IniFile)
  (optionsMap : OptionsMap) (strPath : String) (subkeys : list (String * RegKey)) :
  Forall (fun sub => forall p f0,
            exists done rest,
              key_entries sub.2 p = done ++ rest
              /\ export_inv sz done optionsMap f0 (recurse sub.2 p f0).2
              /\ ((recurse sub.2 p f0).1 = OPT_OK -> rest = [])) subkeys ->
  forall f1,
    let res := export_subkeys recurse strPath subkeys f1 in
    exists done rest,
      flat_map (fun sub => key_entries sub.2
                  (if decide (strPath = []) then sub.1 else strPath ++ _T "\" ++ sub.1))
        subkeys = done ++ rest
      /\ export_inv sz done optionsMap f1 res.2
      /\ (res.1 = OPT_OK -> rest = []).
Proof.
  induction 1 as [|sub subkeys Hsub _ IH]; intros f1; cbv zeta.
  - exists [], []. cbn. split; [reflexivity|]. split; [apply export_inv_nil | reflexivity].
  - cbn [export_subkeys flat_map].
    destruct (MAX_PATH <=? Z.of_nat (length sub.1)).
    + cbn [fst snd]. eexists [], _. split; [reflexivity|].
      split; [apply export_inv_nil | discriminate].
    + set (p := if decide (strPath = []) then sub.1 else strPath ++ _T "\" ++ sub.1).
      destruct (Hsub p f1) as (done1 & rest1 & He1 & Hinv1 & Hall1).
      destruct (recurse sub.2 p f1) as [retVal f2]. cbn [fst snd] in *.
      destruct (decide (retVal <> OPT_OK)) as [Hne|Heq].
      * cbn [fst snd]. exists done1, (rest1 ++ flat_map (fun sub0 => key_entries sub0.2
            (if decide (strPath = []) then sub0.1 else strPath ++ _T "\" ++ sub0.1)) subkeys).
        split; [rewrite He1, app_assoc; reflexivity|].
        split; [exact Hinv1 | intros H; contradiction].
      * assert (retVal = OPT_OK) by (destruct (decide (retVal = OPT_OK)); [assumption | contradiction]).
        specialize (Hall1 H). subst rest1. rewrite app_nil_r in He1.
        destruct (IH f2) as (done2 & rest2 & He2 & Hinv2 & Hall2).
        exists (done1 ++ done2), rest2.
        split; [rewrite He1, He2, app_assoc; reflexivity|].
        split; [eapply export_inv_app; eassumption | exact Hall2].
Qed.

(** The export below a key: what it gets through is exported, and it
    gets through everything unless it fails. *)
Lemma export_key_inv (sz : positive) (optionsMap : OptionsMap) (k : RegKey) :
  forall strPath f0,
    exists done rest,
      key_entries k strPath = done ++ rest
      /\ export_inv sz done optionsMap f0
           (ExportAllUnloadedValues_key sz k strPath optionsMap f0).2
      /\ ((ExportAllUnloadedValues_key sz k strPath optionsMap f0).1 = OPT_OK -> rest = []).
Proof.
  induction k as [values subkeys IH] using RegKey_subkeys_ind. intros strPath f0.
  cbn [ExportAllUnloadedValues_key key_entries].
  destruct (export_values_inv sz values strPath optionsMap (replicate (Z.to_nat MAX_PATH) 0) f0)
    as (done1 & rest1 & He1 & Hinv1 & Hall1).
  destruct (export_values sz values strPath optionsMap (replicate (Z.to_nat MAX_PATH) 0) f0)
    as [[[]|] f1]; cbn [fst snd] in *.
  - specialize (Hall1 eq_refl). subst rest1. rewrite app_nil_r in He1.
    destruct (export_subkeys_inv sz
                (fun hSubKey strPath0 file =>
                   ExportAllUnloadedValues_key sz hSubKey strPath0 optionsMap file)
                optionsMap strPath subkeys IH f1) as (done2 & rest2 & He2 & Hinv2 & Hall2).
    exists (done1 ++ done2), rest2.
    split; [rewrite He1, He2, app_assoc; reflexivity|].
    split; [eapply export_inv_app; eassumption | exact Hall2].
  - eexists done1, _. split; [rewrite He1, <- app_assoc; reflexivity|].
    split; [exact Hinv1 | discriminate].
Qed.

Lemma touched_true entries optionsMap name :
  touched entries optionsMap name = true <->
  optionsMap !! name = None
  /\ exists v, (name, v) ∈ entries /\ (rv_type v = REG_DWORD \/ rv_type v = REG_SZ).
Proof.
  unfold touched, exportable.
  rewrite andb_true_iff, bool_decide_eq_true, existsb_exists.
  split.
  - intros [Hm ([n v] & Hin & H)]. split; [exact Hm|].
    cbn [fst snd] in H. rewrite andb_true_iff, orb_true_iff, !bool_decide_eq_true in H.
    destruct H as [-> H]. exists v. split; [apply list_elem_of_In; exact Hin | exact H].
  - intros [Hm (v & Hin & H)]. split; [exact Hm|].
    exists (name, v). split; [apply list_elem_of_In; exact Hin|].
    cbn [fst snd]. rewrite andb_true_iff, orb_true_iff, !bool_decide_eq_true. auto.
Qed.

Lemma touched_mono l1 l2 optionsMap name :
  touched l1 optionsMap name = true -> touched (l1 ++ l2) optionsMap name = true.
Proof. intros H. rewrite touched_app, H. reflexivity. Qed.

(** The text and the type name of an exported value are made from the
    value: the type name is "int" for a DWORD value and "string" for a
    string value; the text of a DWORD value that has its four bytes is
    the decimal text of that word read as an [int], and the text of a
    string value whose data holds a terminated character array is the
    escaped text of the characters before the terminator. *)
Lemma exported_as_text (sz : positive) (v : RegValue) (text tag : String) :
  exported_as sz v text tag ->
  ((rv_type v = REG_DWORD /\ tag = _T "int") \/ (rv_type v = REG_SZ /\ tag = _T "string"))
  /\ (forall d rest, rv_type v = REG_DWORD -> 0 <= d < 2 ^ 32 ->
        rv_data v = le_bytes 4 d ++ rest -> text = to_str (to_int d))
  /\ (forall str rest, rv_type v = REG_SZ -> Forall (tchar_ok sz) str ->
        rv_data v = c_str sz str ++ rest -> text = EscapeValue sz str).
Proof.
  intros (buf & Hbuf & Has).
  assert (Ebuf : buf = rv_data v ++ drop (length (rv_data v)) buf)
    by (rewrite <- Hbuf at 1; symmetry; apply take_drop).
  split; [destruct Has as [(Hty & -> & _) | (Hty & -> & _)]; auto|].
  split.
  - intros d rest Hty Hd Hdata.
    destruct Has as [(_ & _ & ->) | (Hty' & _)]; [|rewrite Hty in Hty'; discriminate].
    rewrite Ebuf, Hdata, <- app_assoc, read_DWORD_le_bytes by exact Hd. reflexivity.
  - intros str rest Hty Hstr Hdata.
    destruct Has as [(Hty' & _) | (_ & _ & ->)]; [rewrite Hty in Hty'; discriminate|].
    rewrite Ebuf, Hdata, <- app_assoc, read_c_str_c_str by exact Hstr. reflexivity.
Qed.

(** C7.  The export started on the root key (from a file [file0]) writes,
    in the section of the values and in the section of the type names,
    only under names of store values that are not keys of the option
    table and carry the DWORD tag or the string tag: every other name,
    every name of the option table in particular, keeps what [file0] had
    for it.  Under such a name it leaves the pair made from a store value
    of that name: the type name "int" with the text the export makes of a
    DWORD value (the decimal text of its word read as an [int], when the
    value has its four bytes), or the type name "string" with the text it
    makes of a string value (the escaped text of the characters before
    the terminator, when the data is a terminated character array).  When
    the export returns [OPT_OK] it has done so for every such store value,
    so that, started on an empty file, the names of either section are
    exactly the names of the store values that are not in the option
    table and carry one of the two tags.  When the root key cannot be
    opened the export returns [OPT_ERR] and writes nothing. *)
Theorem C7_export_unloaded_values :
  forall (sz : positive) (optionsMap : OptionsMap) (file0 : IniFile) (s : Sys),
    let res := ExportAllUnloadedValues sz optionsMap file0 s in
    let values f := ini_section f (_T "WinMerge") in
    let types f := ini_section f (_T "WinMerge.TypeInfo") in
    match find_key (split_path (m_registryRoot (io s))) (reg_hive (reg s)) with
    | None => res = (OPT_ERR, file0)
    | Some k =>
        let entries := key_entries k [] in
        let eligible name :=
          optionsMap !! name = None
          /\ exists v, (name, v) ∈ entries
                       /\ (rv_type v = REG_DWORD \/ rv_type v = REG_SZ) in
        let written name :=
          exists v text tag,
            (name, v) ∈ entries
            /\ values res.2 !! name = Some text
            /\ types res.2 !! name = Some tag
            /\ ((rv_type v = REG_DWORD /\ tag = _T "int")
                \/ (rv_type v = REG_SZ /\ tag = _T "string"))
            /\ exported_as sz v text tag
            /\ (forall d rest, rv_type v = REG_DWORD -> 0 <= d < 2 ^ 32 ->
                  rv_data v = le_bytes 4 d ++ rest -> text = to_str (to_int d))
            /\ (forall str rest, rv_type v = REG_SZ -> Forall (tchar_ok sz) str ->
                  rv_data v = c_str sz str ++ rest -> text = EscapeValue sz str) in
        (forall name, ~ eligible name ->
           values res.2 !! name = values file0 !! name
           /\ types res.2 !! name = types file0 !! name)
        /\ (forall name, optionsMap !! name <> None ->
            values res.2 !! name = values file0 !! name
            /\ types res.2 !! name = types file0 !! name)
        /\ (forall name,
              values res.2 !! name <> values file0 !! name
              \/ types res.2 !! name <> types file0 !! name ->
              optionsMap !! name = None /\ written name)
        /\ (res.1 = OPT_OK -> forall name, eligible name -> written name)
        /\ (res.1 = OPT_OK -> file0 = ∅ ->
            forall name,
              (is_Some (values res.2 !! name) <-> eligible name)
              /\ (is_Some (types res.2 !! name) <-> eligible name))
    end.
Proof.
  intros sz optionsMap file0 s. cbv zeta. unfold ExportAllUnloadedValues.
  destruct (find_key (split_path (m_registryRoot (io s))) (reg_hive (reg s))) as [k|];
    [|reflexivity].
  pose (entries := key_entries k []).
  pose (eligible := fun name : list Z =>
          optionsMap !! name = None
          /\ exists v, (name, v) ∈ entries
                       /\ (rv_type v = REG_DWORD \/ rv_type v = REG_SZ)).
  pose (values := fun f : IniFile => ini_section f (_T "WinMerge")).
  pose (types := fun f : IniFile => ini_section f (_T "WinMerge.TypeInfo")).
  destruct (export_key_inv sz optionsMap k [] file0) as (done & rest & He & Hinv & Hall).
  change (_T "") with (@nil Z).
  set (out := ExportAllUnloadedValues_key sz k [] optionsMap file0) in *.
  assert (Hel : forall name, touched done optionsMap name = true -> eligible name).
  { intros name Ht. apply touched_true in Ht as [Hm (v & Hin & Hty)].
    split; [exact Hm|]. exists v. split; [|exact Hty].
    unfold entries. rewrite He. apply elem_of_app. auto. }
  assert (Hwritten : forall name, touched done optionsMap name = true ->
    optionsMap !! name = None
    /\ exists v text tag,
         (name, v) ∈ entries
         /\ values out.2 !! name = Some text
         /\ types out.2 !! name = Some tag
         /\ ((rv_type v = REG_DWORD /\ tag = _T "int")
             \/ (rv_type v = REG_SZ /\ tag = _T "string"))
         /\ exported_as sz v text tag
         /\ (forall d rest, rv_type v = REG_DWORD -> 0 <= d < 2 ^ 32 ->
               rv_data v = le_bytes 4 d ++ rest -> text = to_str (to_int d))
         /\ (forall str rest, rv_type v = REG_SZ -> Forall (tchar_ok sz) str ->
               rv_data v = c_str sz str ++ rest -> text = EscapeValue sz str)).
  { intros name Ht. specialize (Hinv name). rewrite Ht in Hinv.
    destruct Hinv as (v & text & tag & Hin & Hex & HV & HT & Has).
    split; [apply touched_true in Ht; tauto|].
    exists v, text, tag. split; [unfold entries; rewrite He; apply elem_of_app; auto|].
    split; [exact HV|]. split; [exact HT|].
    destruct (exported_as_text sz v text tag Has) as (Htag & Hint & Hstr).
    auto. }
  assert (Hkeep : forall name, touched done optionsMap name = false ->
    values out.2 !! name = values file0 !! name
    /\ types out.2 !! name = types file0 !! name).
  { intros name Ht. specialize (Hinv name). rewrite Ht in Hinv. exact Hinv. }
  split; [|split; [|split; [|split]]].
  - intros name Hno. apply Hkeep.
    destruct (touched done optionsMap name) eqn:Ht; [|reflexivity].
    contradiction Hno. exact (Hel name Ht).
  - intros name Hm. apply Hkeep.
    destruct (touched done optionsMap name) eqn:Ht; [|reflexivity].
    apply touched_true in Ht as [Hm' _]. contradiction.
  - intros name Hdiff.
    destruct (touched done optionsMap name) eqn:Ht; [exact (Hwritten name Ht)|].
    destruct (Hkeep name Ht) as [HV HT]. destruct Hdiff; contradiction.
  - intros Hok name Hel'. specialize (Hall Hok). subst rest. rewrite app_nil_r in He.
    apply (Hwritten name). apply touched_true. rewrite <- He. exact Hel'.
  - intros Hok -> name. specialize (Hall Hok). subst rest. rewrite app_nil_r in He.
    destruct (touched done optionsMap name) eqn:Ht.
    + destruct (Hwritten name Ht) as (_ & v & text & tag & _ & HV & HT & _).
      pose proof (Hel name Ht) as Hyes.
      split; split; intros _; try exact Hyes.
      * fold (values out.2). rewrite HV. eauto.
      * fold (types out.2). rewrite HT. eauto.
    + destruct (Hkeep name Ht) as [HV HT].
      assert (Hno : ~ eligible name).
      { intros Hyes. unfold eligible, entries in Hyes. rewrite He in Hyes.
        apply touched_true in Hyes. congruence. }
      unfold values, types, ini_section in HV, HT. rewrite lookup_empty in HV, HT.
      cbn [default] in HV, HT. rewrite lookup_empty in HV, HT.
      split; split; intros H; try (contradiction Hno; exact H).
      * unfold ini_section in H. rewrite HV in H. destruct H; discriminate.
      * unfold ini_section in H. rewrite HT in H. destruct H; discriminate.
Qed.

Lemma C7_export_unloaded_values_witness :
  let optionsMap : OptionsMap := {[ _T "Settings/Width" := VInt 250 ]} in
  let s := IOHandler_new example_root (fresh_registry example_hive) in
  let res := ExportAllUnloadedValues 2 optionsMap ∅ s in
  res.1 = OPT_OK
  /\ ini_section res.2 (_T "WinMerge") !! (_T "Settings/Width") = None
  /\ ini_section res.2 (_T "WinMerge") !! (_T "Settings/Name") = Some (_T "ab")
  /\ ini_section res.2 (_T "WinMerge.TypeInfo") !! (_T "Settings/Name") = Some (_T "string")
  /\ ini_section res.2 (_T "WinMerge") !! (_T "Settings\Colors/Text") = Some (_T "7")
  /\ ini_section res.2 (_T "WinMerge.TypeInfo") !! (_T "Settings\Colors/Text")
     = Some (_T "int")
  /\ ini_section res.2 (_T "WinMerge.TypeInfo") !! (_T "Settings/Blob") = None.
Proof.
  intros optionsMap s res.
  pose proof (C7_export_unloaded_values 2 optionsMap ∅ s) as H. cbv zeta in H.
  assert (Hk : find_key (split_path (m_registryRoot (io s))) (reg_hive (reg s))
               = Some (MkKey [] [(_T "Settings", example_settings)]))
    by (vm_compute; reflexivity).
  rewrite Hk in H. destruct H as (H1 & H2 & _ & H4 & _).
  assert (Hok : res.1 = OPT_OK) by (vm_compute; reflexivity).
  split; [exact Hok|]. split; [|split; [|split; [|split; [|split]]]].
  - destruct (H2 (_T "Settings/Width")) as [HV _]; [vm_compute; discriminate|].
    fold res in HV. rewrite HV. reflexivity.
  - destruct (H4 Hok (_T "Settings/Name")) as (v & text & tag & Hin & HV & _ & _ & _ & _ & Hs).
    { split; [vm_compute; reflexivity|].
      exists {| rv_type := REG_SZ; rv_data := [97; 0; 98; 0; 0; 0] |}.
      split; [|right; reflexivity].
      apply list_elem_of_In. vm_compute. auto. }
    fold res in HV. rewrite HV. f_equal.
    apply list_elem_of_In in Hin. vm_compute in Hin.
    repeat destruct Hin as [Hin|Hin]; try contradiction; try discriminate Hin.
    injection Hin as <-.
    apply (Hs (_T "ab") []); [reflexivity| |reflexivity].
    repeat constructor; vm_compute; split; reflexivity.
  - destruct (H4 Hok (_T "Settings/Name")) as (v & text & tag & Hin & _ & HT & Htag & _).
    { split; [vm_compute; reflexivity|].
      exists {| rv_type := REG_SZ; rv_data := [97; 0; 98; 0; 0; 0] |}.
      split; [|right; reflexivity].
      apply list_elem_of_In. vm_compute. auto. }
    fold res in HT. rewrite HT. f_equal.
    apply list_elem_of_In in Hin. vm_compute in Hin.
    repeat destruct Hin as [Hin|Hin]; try contradiction; try discriminate Hin.
    injection Hin as <-.
    destruct Htag as [[Hty _] | [_ ->]]; [discriminate Hty | reflexivity].
  - destruct (H4 Hok (_T "Settings\Colors/Text"))
      as (v & text & tag & Hin & HV & _ & _ & _ & Hd & _).
    { split; [vm_compute; reflexivity|].
      exists {| rv_type := REG_DWORD; rv_data := [7; 0; 0; 0] |}.
      split; [|left; reflexivity].
      apply list_elem_of_In. vm_compute. auto. }
    fold res in HV. rewrite HV. f_equal.
    apply list_elem_of_In in Hin. vm_compute in Hin.
    repeat destruct Hin as [Hin|Hin]; try contradiction; try discriminate Hin.
    injection Hin as <-.
    apply (Hd 7 []); [reflexivity | lia | reflexivity].
  - destruct (H4 Hok (_T "Settings\Colors/Text"))
      as (v & text & tag & Hin & _ & HT & Htag & _).
    { split; [vm_compute; reflexivity|].
      exists {| rv_type := REG_DWORD; rv_data := [7; 0; 0; 0] |}.
      split; [|left; reflexivity].
      apply list_elem_of_In. vm_compute. auto. }
    fold res in HT. rewrite HT. f_equal.
    apply list_elem_of_In in Hin. vm_compute in Hin.
    repeat destruct Hin as [Hin|Hin]; try contradiction; try discriminate Hin.
    injection Hin as <-.
    destruct Htag as [[_ ->] | [Hty _]]; [reflexivity | discriminate Hty].
  - destruct (H1 (_T "Settings/Blob")) as [_ HT].
    + intros (_ & v & Hin & Hty).
      apply list_elem_of_In in Hin. vm_compute in Hin.
      repeat destruct Hin as [Hin|Hin]; try contradiction; try discriminate Hin.
      injection Hin as <-. destruct Hty as [Hty|Hty]; discriminate Hty.
    + fold res in HT. rewrite HT. reflexivity.
Defined.

(* ------------------------------------------------------------------ *)
(** ** Texts of the private-profile file *)

Lemma to_int_range (z : Z) : - 2 ^ 31 <= to_int z < 2 ^ 31.
Proof.
  unfold to_int, DWORD_MOD.
  pose proof (Z.mod_pos_bound z (2 ^ 32) ltac:(lia)) as H.
  destruct (z mod 2 ^ 32 <? 2 ^ 31) eqn:E; [apply Z.ltb_lt in E | apply Z.ltb_ge in E]; lia.
Qed.

Lemma to_DWORD_to_int (d : Z) : 0 <= d < 2 ^ 32 -> to_DWORD (to_int d) = d.
Proof.
  intros H. unfold to_int, to_DWORD, DWORD_MOD. rewrite (Z.mod_small d) by lia.
  destruct (d <? 2 ^ 31) eqn:E; [apply Z.mod_small; lia|].
  apply Z.ltb_ge in E. symmetry. apply Z.mod_unique with (-1); lia.
Qed.

Lemma digits_of_digits (fuel : nat) (n : Z) (acc : list Z) :
  Forall is_digit acc -> Forall is_digit (digits_of fuel n acc).
Proof.
  revert n acc. induction fuel as [|fuel IH]; intros n acc Hacc; simpl; [exact Hacc|].
  assert (Hd : is_digit (48 + n mod 10)).
  { unfold is_digit. pose proof (Z.mod_pos_bound n 10 ltac:(lia)). lia. }
  destruct (n / 10 =? 0); [constructor; assumption|].
  apply IH. constructor; assumption.
Qed.

Lemma digits_of_nonempty (fuel : nat) (n : Z) (acc : list Z) :
  (0 < fuel)%nat -> digits_of fuel n acc <> [].
Proof.
  revert n acc. induction fuel as [|fuel IH]; intros n acc Hf; [lia|]. simpl.
  destruct (n / 10 =? 0); [discriminate|].
  destruct fuel as [|fuel']; [simpl; discriminate|]. apply IH. lia.
Qed.

Lemma digit_value_digit (c : Z) : is_digit c -> digit_value 10 c = Some (c - 48).
Proof.
  unfold is_digit, digit_value. intros H.
  replace (48 <=? c) with true by (symmetry; apply Z.leb_le; lia).
  replace (c <=? 57) with true by (symmetry; apply Z.leb_le; lia).
  cbn [andb]. replace (c - 48 <? 10) with true by (symmetry; apply Z.ltb_lt; lia).
  reflexivity.
Qed.

(** Reading back the digits written for [n]. *)
Lemma parse_digits_of (fuel : nat) (n : Z) (acc : list Z) :
  0 <= n < 10 ^ Z.of_nat fuel -> (0 < fuel)%nat ->
  parse_digits 10 (digits_of fuel n acc) 0 = parse_digits 10 acc n.
Proof.
  revert n acc. induction fuel as [|fuel IH]; intros n acc Hn Hf; [lia|].
  cbn [digits_of].
  assert (Hd : is_digit (48 + n mod 10)).
  { unfold is_digit. pose proof (Z.mod_pos_bound n 10 ltac:(lia)). lia. }
  destruct (n / 10 =? 0) eqn:E.
  - apply Z.eqb_eq in E. cbn [parse_digits]. rewrite (digit_value_digit _ Hd).
    f_equal. pose proof (Z.div_mod n 10 ltac:(lia)). lia.
  - apply Z.eqb_neq in E.
    assert (Hq : 0 <= n / 10 < 10 ^ Z.of_nat fuel).
    { rewrite Nat2Z.inj_succ, Z.pow_succ_r in Hn by lia.
      split; [apply Z.div_pos; lia|]. apply Z.div_lt_upper_bound; lia. }
    assert (Hfuel : (0 < fuel)%nat).
    { destruct fuel; [|lia]. simpl in Hq. lia. }
    rewrite IH by assumption.
    cbn [parse_digits]. rewrite (digit_value_digit _ Hd).
    f_equal. pose proof (Z.div_mod n 10 ltac:(lia)). lia.
Qed.

Lemma digit_not_special (c : Z) :
  is_digit c -> is_space c = false /\ (c =? 45) = false /\ (c =? 43) = false
                /\ (c =? 27) = false /\ (c =? 120) = false.
Proof.
  unfold is_digit, is_space. intros H.
  repeat split;
    repeat match goal with
           | |- context [?a =? ?b] => destruct (Z.eqb_spec a b)
           | |- context [?a <=? ?b] => destruct (Z.leb_spec a b)
           end; simpl; try reflexivity; lia.
Qed.

Lemma tcstoll_digits (ds : list Z) (neg : bool) :
  Forall is_digit ds -> ds <> [] ->
  tcstoll (if neg then 45 :: ds else ds) 10 =
    clamp (- 2 ^ 63) (2 ^ 63 - 1)
      (if neg then - parse_digits 10 ds 0 else parse_digits 10 ds 0).
Proof.
  intros Hds Hne. destruct ds as [|d ds]; [contradiction|]. clear Hne.
  pose proof (Forall_inv Hds) as Hd. apply digit_not_special in Hd as (Hs & Hm & Hp & _).
  unfold tcstoll. destruct neg.
  - cbn [skip_spaces]. replace (is_space 45) with false by reflexivity.
    cbn [parse_sign]. replace (45 =? 45) with true by reflexivity.
    reflexivity.
  - cbn [skip_spaces]. rewrite Hs. cbn [parse_sign]. rewrite Hm, Hp. reflexivity.
Qed.

Lemma tcstoll_to_str (i : Z) : - 2 ^ 31 <= i < 2 ^ 31 -> tcstoll (to_str i) 10 = i.
Proof.
  intros Hi. unfold to_str.
  destruct (i <? 0) eqn:E; [apply Z.ltb_lt in E | apply Z.ltb_ge in E].
  - rewrite (tcstoll_digits _ true).
    + rewrite parse_digits_of by (simpl; lia). cbn [parse_digits]. unfold clamp. lia.
    + apply digits_of_digits. constructor.
    + apply digits_of_nonempty. lia.
  - rewrite (tcstoll_digits _ false).
    + rewrite parse_digits_of by (simpl; lia). cbn [parse_digits]. unfold clamp. lia.
    + apply digits_of_digits. constructor.
    + apply digits_of_nonempty. lia.
Qed.

Lemma to_str_chars (i : Z) : Forall is_decimal_char (to_str i).
Proof.
  unfold to_str. destruct (i <? 0).
  - constructor; [right; reflexivity|].
    eapply Forall_impl; [apply digits_of_digits; constructor | intros c H; left; exact H].
  - eapply Forall_impl; [apply digits_of_digits; constructor | intros c H; left; exact H].
Qed.

Lemma UnescapeValue_plain (sz : positive) (s : list Z) :
  Forall (fun c => c <> 27) s -> UnescapeValue sz s = s.
Proof.
  induction 1 as [|c s Hc _ IH]; [reflexivity|]. cbn [UnescapeValue].
  apply Z.eqb_neq in Hc. rewrite Hc, IH. reflexivity.
Qed.

Lemma to_tchar_small (sz : positive) (z : Z) : 0 <= z < 256 -> to_tchar sz z = z.
Proof.
  intros H. unfold to_tchar. apply Z.mod_small.
  assert (2 ^ 8 <= 2 ^ (8 * Z.pos sz)) by (apply Z.pow_le_mono_r; lia).
  change (2 ^ 8) with 256 in *. lia.
Qed.

Lemma Unescape_Escape (sz : positive) (s : list Z) :
  UnescapeValue sz (EscapeValue sz s) = s.
Proof.
  induction s as [|c s IH]; [reflexivity|]. cbn [EscapeValue].
  destruct (needs_escape c) eqn:E.
  - cbn [UnescapeValue]. replace (27 =? 27) with true by reflexivity.
    rewrite IH. f_equal. unfold needs_escape in E.
    rewrite !orb_true_iff, !Z.eqb_eq in E.
    destruct E as [[[-> | ->] | ->] | ->];
      rewrite (to_tchar_small sz (_ + 64)) by lia; apply to_tchar_small; lia.
  - cbn [UnescapeValue]. unfold needs_escape in E.
    rewrite !orb_false_iff in E. destruct E as [[[_ E] _] _]. rewrite E, IH. reflexivity.
Qed.

(** The text written for an [int] is read back as that [int]. *)
Lemma import_int_text (sz : positive) (i : Z) :
  - 2 ^ 31 <= i < 2 ^ 31 ->
  import_value (UnescapeValue sz (_T "int")) (UnescapeValue sz (to_str i)) = VInt i.
Proof.
  intros Hi. pose proof (to_str_chars i) as Hch.
  rewrite (UnescapeValue_plain sz (to_str i)).
  2:{ eapply Forall_impl; [exact Hch|]. intros c [H|H]; unfold is_digit in *; lia. }
  rewrite (UnescapeValue_plain sz (_T "int")) by (repeat constructor; discriminate).
  unfold import_value.
  replace (tcsicmp_eq (_T "int") (_T "bool")) with false by reflexivity.
  replace (tcsicmp_eq (_T "int") (_T "int")) with true by reflexivity.
  assert (Hx : bool_decide (to_str i !! 1%nat = Some 120) = false).
  { apply bool_decide_eq_false_2. intros Hl.
    apply list_elem_of_lookup_2 in Hl.
    rewrite Forall_forall in Hch. apply Hch in Hl.
    destruct Hl as [H|H]; unfold is_digit in *; lia. }
  rewrite Hx, andb_false_r. rewrite tcstoll_to_str by exact Hi.
  unfold SetInt. rewrite to_int_to_DWORD by exact Hi. reflexivity.
Qed.

Lemma import_string_text (sz : positive) (str : list Z) :
  import_value (UnescapeValue sz (_T "string")) (UnescapeValue sz (EscapeValue sz str))
  = VString str.
Proof.
  rewrite Unescape_Escape.
  rewrite (UnescapeValue_plain sz (_T "string")) by (repeat constructor; discriminate).
  reflexivity.
Qed.

(* ------------------------------------------------------------------ *)
(** ** Import *)

(** An update of one key that keeps its subkeys changes the values of
    that key only. *)
Lemma find_key_update_values (f : RegKey -> RegKey) (p q : list String) (k : RegKey) :
  (forall k0, key_subkeys (f k0) = key_subkeys k0) ->
  key_values <$> find_key q (update_key p f k) =
    if decide (q = p) then (fun k0 => key_values (f k0)) <$> find_key q k
    else key_values <$> find_key q k.
Proof.
  intros Hf. revert q k. induction p as [|c p IH]; intros q k.
  - cbn [update_key]. destruct q as [|d q].
    + destruct (decide ([] = [])); [reflexivity | congruence].
    + destruct (decide (d :: q = [])); [discriminate|].
      cbn [find_key]. rewrite Hf. reflexivity.
  - cbn [update_key].
    destruct (assoc_find c (key_subkeys k)) as [k'|] eqn:E.
    + destruct q as [|d q].
      * destruct (decide ([] = c :: p)); [discriminate | reflexivity].
      * cbn [find_key key_subkeys].
        destruct (decide (c = d)) as [->|Hne].
        -- rewrite assoc_find_set_eq, E, IH.
           destruct (decide (q = p)) as [->|Hq].
           ++ destruct (decide (d :: p = d :: p)); [reflexivity | congruence].
           ++ destruct (decide (d :: q = d :: p)); [congruence | reflexivity].
        -- rewrite assoc_find_set_ne by exact Hne.
           destruct (decide (d :: q = c :: p)); [congruence | reflexivity].
    + destruct (decide (q = c :: p)) as [->|]; [|reflexivity].
      cbn [find_key]. rewrite E. reflexivity.
Qed.

Lemma RegSetValueEx_value_at (hKey : HKEY) (n : String) (type : Z) (data : list BYTE)
  (r : Registry) (p : list String) (k : RegKey) :
  key_at hKey r = inr (p, k) ->
  let res := RegSetValueEx hKey n type data r in
  res.1 = ERROR_SUCCESS
  /\ reg_handles res.2 = reg_handles r /\ reg_next res.2 = reg_next r
  /\ (forall q, is_Some (find_key q (reg_hive res.2)) <-> is_Some (find_key q (reg_hive r)))
  /\ forall q m, value_at q m (reg_hive res.2) =
       if decide (q = p /\ m = n) then Some {| rv_type := type; rv_data := data |}
       else value_at q m (reg_hive r).
Proof.
  intros Hk. cbv zeta. unfold RegSetValueEx. rewrite Hk. cbn [fst snd with_hive reg_hive
    reg_handles reg_next].
  apply key_at_inv in Hk as [_ Hfind].
  pose proof (fun q => find_key_update_values
                (set_value n {| rv_type := type; rv_data := data |}) p q (reg_hive r)
                (fun k0 => eq_refl)) as Hupd.
  split; [reflexivity|]. split; [reflexivity|]. split; [reflexivity|]. split.
  - intros q. specialize (Hupd q). rewrite <- !fmap_is_Some with (f := key_values).
    rewrite Hupd. destruct (decide (q = p)); [|reflexivity].
    rewrite !fmap_is_Some. reflexivity.
  - intros q m. specialize (Hupd q). unfold value_at.
    destruct (decide (q = p)) as [->|Hq].
    + rewrite Hfind in *. cbn in Hupd.
      destruct (find_key p (update_key p _ (reg_hive r))) as [k1|]; [|discriminate].
      injection Hupd as ->.
      destruct (decide (p = p /\ m = n)) as [[_ ->]|Hn].
      * apply assoc_find_set_eq.
      * apply assoc_find_set_ne. intros ->. apply Hn. auto.
    + destruct (decide (q = p /\ m = n)) as [[-> _]|_]; [contradiction|].
      destruct (find_key q (update_key p _ (reg_hive r))) as [k1|],
               (find_key q (reg_hive r)) as [k0|]; cbn in Hupd; try discriminate.
      * injection Hupd as ->. reflexivity.
      * reflexivity.
Qed.

Lemma key_of_config (s1 s : Sys) (strPath : String) :
  config s1 = config s -> key_of s1 strPath = key_of s strPath.
Proof. unfold config, key_of. intros H. injection H as -> _ _. reflexivity. Qed.

(** One entry of the file, imported on a sound cache: the registry value
    [import_write] names is stored at the location of the entry, and
    every other value is left as it was. *)
Lemma import_entry_spec (sz : positive) (optionsMap : OptionsMap)
  (types : gmap String String) (key strValue : String) (s : Sys) :
  cache_ok s -> m_bCloseHandle (io s) = false ->
  let s' := (import_entry sz optionsMap types key strValue s).2 in
  cache_ok s' /\ config s' = config s
  /\ forall q m, value_at q m (reg_hive (reg s')) =
       match import_write sz optionsMap types key strValue with
       | Some v => if decide (q = (location s key).1 /\ m = (location s key).2)
                   then Some v else value_at q m (reg_hive (reg s))
       | None => value_at q m (reg_hive (reg s))
       end.
Proof.
  intros Hc Hf. cbv zeta. rewrite import_entry_eq. unfold import_write, location.
  destruct (decide (optionsMap !! key = None /\ types !! key <> None)) as [Hel|Hel];
    [|auto].
  destruct (SplitName key) as [strPath vn]. cbn [fst snd].
  pose proof (OpenKey_ok strPath true s Hc) as Hopen. cbv zeta in Hopen.
  destruct (OpenKey strPath true s) as [hKey s1]. cbn [fst snd] in Hopen.
  destruct Hopen as (Hc1 & Hcfg1 & Hhive & Hat & _ & Hex).
  destruct (Hex eq_refl) as [k Hk]. specialize (Hat k Hk).
  assert (Hv1 : forall q m, value_at q m (reg_hive (reg s1)) = value_at q m (reg_hive (reg s))).
  { intros q m. rewrite Hhive. destruct (_ && _); [apply value_at_create | reflexivity]. }
  destruct (decide (hKey <> nullptr)) as [Hh|Hh].
  2:{ destruct hKey; try (exfalso; apply Hh; discriminate); try discriminate Hat. }
  assert (Hf1 : m_bCloseHandle (io s1) = false) by (rewrite (config_flag _ _ Hcfg1); exact Hf).
  rewrite CloseKey_keep
    by (rewrite (config_flag _ _ (SaveValueToReg_config _ _ _ _ _)); exact Hf1).
  rewrite SaveValueToReg_eq.
  destruct (encode_value sz _) as [[type data]|]; [|cbn [snd]; auto].
  destruct (RegSetValueEx_value_at hKey vn type data (reg s1) _ _ Hat)
    as (_ & Hh' & Hn' & Hsome & Hval).
  destruct (RegSetValueEx hKey vn type data (reg s1)) as [code r]. cbn [snd] in *.
  split; [|split].
  - destruct Hc1 as [Hc1 Hn1]. split; cbn [io reg].
    + intros p h Hp. destruct (Hc1 p h Hp) as (n & kp & -> & Hhn & Hkp).
      assert (Hs : is_Some (find_key (key_of s1 p) (reg_hive r))).
      { apply Hsome. rewrite Hkp. eauto. }
      destruct Hs as [kp' Hkp']. exists n, kp'. rewrite Hh'. auto.
    + intros n hi. rewrite Hh', Hn'. apply Hn1.
  - exact Hcfg1.
  - intros q m. cbn [reg]. rewrite Hval, Hv1. reflexivity.
Qed.

Lemma location_config (s1 s : Sys) (name : String) :
  config s1 = config s -> location s1 name = location s name.
Proof. intros H. unfold location. rewrite (key_of_config _ _ _ H). reflexivity. Qed.

(** The loop of the import over entries whose names are distinct and are
    stored at distinct places: every entry has had its turn, and what no
    entry is stored at is left as it was. *)
Lemma import_entries_spec (sz : positive) (optionsMap : OptionsMap)
  (types : gmap String String) (entries : list (String * String)) :
  forall s : Sys,
    cache_ok s -> m_bCloseHandle (io s) = false ->
    NoDup (map fst entries) ->
    (forall e1 e2, e1 ∈ entries -> e2 ∈ entries ->
       location s e1.1 = location s e2.1 -> e1.1 = e2.1) ->
    let s' := (import_entries sz optionsMap types entries s).2 in
    cache_ok s' /\ config s' = config s
    /\ (forall key text, (key, text) ∈ entries ->
          value_at (location s key).1 (location s key).2 (reg_hive (reg s')) =
            match import_write sz optionsMap types key text with
            | Some v => Some v
            | None => value_at (location s key).1 (location s key).2 (reg_hive (reg s))
            end)
    /\ (forall q m, (forall e, e ∈ entries -> location s e.1 <> (q, m)) ->
          value_at q m (reg_hive (reg s')) = value_at q m (reg_hive (reg s))).
Proof.
  induction entries as [|[key0 text0] rest IH]; intros s Hc Hf Hnd Hinj; cbv zeta.
  - cbn [import_entries ret snd]. split; [exact Hc|]. split; [reflexivity|].
    split; [|reflexivity]. intros key text Hin. inversion Hin.
  - cbn [import_entries]. rewrite bind_snd.
    destruct (import_entry_spec sz optionsMap types key0 text0 s Hc Hf)
      as (Hc1 & Hcfg1 & Hv1).
    set (s1 := (import_entry sz optionsMap types key0 text0 s).2) in *.
    assert (Hf1 : m_bCloseHandle (io s1) = false) by (rewrite (config_flag _ _ Hcfg1); exact Hf).
    cbn [map fst] in Hnd. apply NoDup_cons in Hnd as [Hnotin Hnd].
    assert (Hloc : forall n, location s1 n = location s n)
      by (intros n; apply location_config; exact Hcfg1).
    assert (Hinj1 : forall e1 e2, e1 ∈ rest -> e2 ∈ rest ->
                      location s1 e1.1 = location s1 e2.1 -> e1.1 = e2.1).
    { intros e1 e2 H1 H2. rewrite !Hloc. apply Hinj; right; assumption. }
    destruct (IH s1 Hc1 Hf1 Hnd Hinj1) as (Hc2 & Hcfg2 & Hown & Hframe).
    assert (Hfar : forall e, e ∈ rest -> location s e.1 <> location s key0).
    { intros e He Heq. apply Hnotin.
      assert (e.1 = key0) as <-.
      { apply (Hinj e (key0, text0)); [right; exact He | left | exact Heq]. }
      apply list_elem_of_fmap. exists e. auto. }
    split; [exact Hc2|]. split; [congruence|]. split.
    + intros key text Hin. apply elem_of_cons in Hin as [Heq|Hin].
      * injection Heq as -> ->.
        rewrite Hframe.
        2:{ intros e He. rewrite Hloc. rewrite <- surjective_pairing. apply Hfar, He. }
        rewrite Hv1. destruct (import_write _ _ _ _ _); [|reflexivity].
        destruct (decide _) as [_|Hn]; [reflexivity|]. exfalso. apply Hn. auto.
      * specialize (Hown key text Hin). rewrite !Hloc in Hown. rewrite Hown.
        destruct (import_write sz optionsMap types key text); [reflexivity|].
        rewrite Hv1. destruct (import_write _ _ _ _ _); [|reflexivity].
        destruct (decide _) as [[H1 H2]|_]; [|reflexivity].
        exfalso. apply (Hfar (key, text) Hin). cbn [fst].
        rewrite (surjective_pairing (location s key)),
                (surjective_pairing (location s key0)). congruence.
    + intros q m Hno. rewrite Hframe.
      2:{ intros e He. rewrite Hloc. apply Hno. right. exact He. }
      rewrite Hv1. destruct (import_write _ _ _ _ _); [|reflexivity].
      destruct (decide _) as [[H1 H2]|_]; [|reflexivity].
      exfalso. apply (Hno (key0, text0)); [left|]. cbn [fst].
      rewrite (surjective_pairing (location s key0)). congruence.
Qed.

Lemma map_entries_elem {A} (m : gmap String A) (key : String) (x : A) :
  (key, x) ∈ map_entries m <-> m !! key = Some x.
Proof.
  unfold map_entries. rewrite merge_sort_Permutation. apply elem_of_map_to_list.
Qed.

Lemma map_entries_NoDup {A} (m : gmap String A) : NoDup (map fst (map_entries m)).
Proof.
  unfold map_entries.
  change (NoDup (fst <$> merge_sort entry_le (map_to_list m))).
  rewrite merge_sort_Permutation. apply NoDup_fst_map_to_list.
Qed.

Lemma exported_as_value (sz : positive) (v : RegValue) (text tag : String) :
  exported_as sz v text tag ->
  exists value, exported_value sz v value /\ text_codec sz value = Some (text, tag).
Proof.
  intros (buf & Hbuf & [(Hty & -> & ->)|(Hty & -> & ->)]).
  - exists (VInt (to_int (read_DWORD buf))). split; [|reflexivity].
    exists buf. auto.
  - exists (VString (read_c_str sz buf)). split; [|reflexivity].
    exists buf. auto.
Qed.

(** What the import makes of the text and the type name of an exported
    value: the value itself, which has a registry encoding of the type
    of the registry value it was read from. *)
Lemma import_exported (sz : positive) (v : RegValue) (value : VariantValue)
  (text tag : String) :
  exported_value sz v value -> text_codec sz value = Some (text, tag) ->
  import_value (UnescapeValue sz tag) (UnescapeValue sz text) = value
  /\ exists data,
       encode_value sz value = Some (rv_type v, data)
       /\ (forall i, value = VInt i -> Decode sz data (rv_type v) VT_INT = Some value)
       /\ (forall str, value = VString str ->
             (Z.of_nat (length str) + 1) * Z.pos sz < 2 ^ 32 -> data = c_str sz str).
Proof.
  intros (buf & _ & [(Hty & ->)|(Hty & ->)]) Hcodec; cbn [text_codec] in Hcodec;
    injection Hcodec as <- <-; rewrite Hty.
  - pose proof (to_int_range (read_DWORD buf)) as Hr.
    split; [apply import_int_text; exact Hr|].
    eexists. split; [reflexivity|]. split.
    + intros i _. cbn [GetInt Decode].
      destruct (decide (REG_DWORD = REG_DWORD)); [|congruence].
      rewrite <- (app_nil_r (le_bytes 4 _)).
      rewrite read_DWORD_le_bytes by apply to_DWORD_range.
      rewrite to_int_to_DWORD by exact Hr. reflexivity.
    + intros str Hstr. discriminate Hstr.
  - split; [apply import_string_text|].
    destruct (encode_value sz (VString (read_c_str sz buf))) as [[type data]|] eqn:E.
    2:{ unfold encode_value in E. cbn [GetType] in E. destruct (_ <? _)%nat; discriminate E. }
    assert (type = REG_SZ) as ->.
    { unfold encode_value in E. cbn [GetType] in E.
      destruct (_ <? _)%nat; injection E as <- _; reflexivity. }
    exists data. split; [reflexivity|]. split.
    + intros i Hi. discriminate Hi.
    + intros str Hstr Hfit. injection Hstr as <-.
      rewrite encode_string in E by exact Hfit. congruence.
Qed.

Lemma NoDup_fmap_inj_on {A B} (f : A -> B) (l : list A) (x y : A) :
  NoDup (f <$> l) -> x ∈ l -> y ∈ l -> f x = f y -> x = y.
Proof.
  induction l as [|a l IH]; intros Hnd Hx Hy Hf; [inversion Hx|].
  rewrite fmap_cons in Hnd. apply NoDup_cons in Hnd as [Hnot Hnd].
  apply elem_of_cons in Hx as [->|Hx]; apply elem_of_cons in Hy as [->|Hy].
  - reflexivity.
  - exfalso. apply Hnot. rewrite Hf. apply list_elem_of_fmap. eauto.
  - exfalso. apply Hnot. rewrite <- Hf. apply list_elem_of_fmap. eauto.
  - apply IH; assumption.
Qed.

Lemma stored_location (s : Sys) (name : String) :
  stored s name = value_at (location s name).1 (location s name).2 (reg_hive (reg s)).
Proof. reflexivity. Qed.

(** The import of a file whose names are stored at distinct places. *)
Lemma Import_spec (sz : positive) (file : IniFile) (optionsMap : OptionsMap) (s : Sys) :
  cache_ok s -> m_bCloseHandle (io s) = false ->
  (forall n1 n2,
     is_Some (ini_section file (_T "WinMerge") !! n1) ->
     is_Some (ini_section file (_T "WinMerge") !! n2) ->
     location s n1 = location s n2 -> n1 = n2) ->
  let res := ImportAllUnloadedValues sz file optionsMap s in
  res.1 = OPT_OK /\ cache_ok res.2 /\ config res.2 = config s
  /\ (forall name text,
        ini_section file (_T "WinMerge") !! name = Some text ->
        stored res.2 name =
          match import_write sz optionsMap (ReadIniFile sz file (_T "WinMerge.TypeInfo"))
                  name (UnescapeValue sz text) with
          | Some v => Some v
          | None => stored s name
          end)
  /\ (forall name,
        (forall n, is_Some (ini_section file (_T "WinMerge") !! n) ->
                   location s n <> location s name) ->
        stored res.2 name = stored s name).
Proof.
  intros Hc Hf Hinj. cbv zeta. unfold ImportAllUnloadedValues.
  rewrite bind_fst, bind_snd. cbn [ret fst snd].
  set (values := ReadIniFile sz file (_T "WinMerge")).
  set (types := ReadIniFile sz file (_T "WinMerge.TypeInfo")).
  assert (Hval : forall n x, values !! n = Some x ->
                   exists text, ini_section file (_T "WinMerge") !! n = Some text
                                /\ x = UnescapeValue sz text).
  { intros n x. unfold values, ReadIniFile, ini_section. rewrite lookup_fmap.
    intros Hx. apply fmap_Some in Hx as (text & Ht & ->). eauto. }
  destruct (import_entries_spec sz optionsMap types (map_entries values) s Hc Hf
              (map_entries_NoDup values)) as (Hc' & Hcfg & Hown & Hframe).
  { intros [n1 x1] [n2 x2] H1 H2. cbn [fst].
    apply map_entries_elem, Hval in H1 as (t1 & H1 & _).
    apply map_entries_elem, Hval in H2 as (t2 & H2 & _).
    apply Hinj; eauto. }
  set (s' := (import_entries sz optionsMap types (map_entries values) s).2) in *.
  split; [reflexivity|]. split; [exact Hc'|]. split; [exact Hcfg|]. split.
  - intros name text Hname.
    rewrite !stored_location, (location_config _ _ _ Hcfg).
    apply Hown. apply map_entries_elem.
    unfold values, ReadIniFile. fold (ini_section file (_T "WinMerge")).
    rewrite lookup_fmap, Hname. reflexivity.
  - intros name Hno.
    rewrite !stored_location, (location_config _ _ _ Hcfg).
    apply Hframe. intros [n x] Hin. cbn [fst].
    apply map_entries_elem, Hval in Hin as (t & Ht & _).
    rewrite <- surjective_pairing. apply Hno. eauto.
Qed.

(** Every name of a file exported into an empty file stands for a value
    of the registry that is not in the option table. *)
Lemma Export_names (sz : positive) (optionsMap : OptionsMap) (s : Sys)
  (code : OptResult) (file : IniFile) :
  ExportAllUnloadedValues sz optionsMap ∅ s = (code, file) ->
  forall name text,
    ini_section file (_T "WinMerge") !! name = Some text ->
    optionsMap !! name = None
    /\ exists k v tag,
         find_key (split_path (m_registryRoot (io s))) (reg_hive (reg s)) = Some k
         /\ (name, v) ∈ key_entries k []
         /\ ini_section file (_T "WinMerge.TypeInfo") !! name = Some tag
         /\ exported_as sz v text tag.
Proof.
  unfold ExportAllUnloadedValues. intros Hex name text Hname.
  destruct (find_key _ _) as [k|].
  2:{ injection Hex as _ <-. unfold ini_section in Hname.
      rewrite lookup_empty in Hname. cbn in Hname. rewrite lookup_empty in Hname.
      discriminate Hname. }
  destruct (export_key_inv sz optionsMap k [] ∅) as (done & rest & Hent & Hinv & _).
  change (_T "") with (@nil Z) in Hex. rewrite Hex in Hinv. cbn [snd] in Hinv.
  specialize (Hinv name).
  destruct (touched done optionsMap name) eqn:Ht.
  - destruct Hinv as (v & text' & tag & Hin & _ & Hv & Htag & Has).
    rewrite Hname in Hv. injection Hv as <-.
    unfold touched in Ht. apply andb_true_iff in Ht as [Hm _].
    apply bool_decide_eq_true in Hm.
    split; [exact Hm|]. exists k, v, tag.
    split; [reflexivity|]. split; [|auto].
    rewrite Hent. apply elem_of_app. left. exact Hin.
  - destruct Hinv as [Hv _]. rewrite Hname in Hv.
    unfold ini_section in Hv. rewrite lookup_empty in Hv. cbn in Hv.
    rewrite lookup_empty in Hv. discriminate Hv.
Qed.

(** C2 (amended).  A file is imported into a registry by a handler whose
    cached handles are sound and that keeps its handles open, the names of
    the file being stored at pairwise distinct places.  The import reports
    success.  A name of the file that is in the option table of the import,
    or that has no type name in the file, is stored after the import as it
    was before.  If the file is what an export wrote into an empty file,
    each of its names stands for a registry value that was not in the
    option table of the export and whose exported value has the text and
    the type name of the file under that name; unless the name is in the
    option table of the import, the registry holds after the import under
    that name exactly the encoding of the exported value, with the type of
    the registry value exported: an integer is read back as itself, and
    the data of a string that fits a DWORD count are its characters and a
    terminator. *)
Theorem C2_export_import_round_trip :
  forall (sz : positive) (file : IniFile) (optionsMap : OptionsMap) (dst : Sys),
    let values := ini_section file (_T "WinMerge") in
    let types := ini_section file (_T "WinMerge.TypeInfo") in
    let res := ImportAllUnloadedValues sz file optionsMap dst in
    cache_ok dst -> m_bCloseHandle (io dst) = false ->
    (forall n1 n2, is_Some (values !! n1) -> is_Some (values !! n2) ->
       location dst n1 = location dst n2 -> n1 = n2) ->
    res.1 = OPT_OK
    /\ (forall name,
          is_Some (values !! name) ->
          optionsMap !! name <> None \/ types !! name = None ->
          stored res.2 name = stored dst name)
    /\ (forall (exportMap : OptionsMap) (src : Sys) (code : OptResult),
          ExportAllUnloadedValues sz exportMap ∅ src = (code, file) ->
          forall name text,
            values !! name = Some text ->
            exists k v value tag,
              find_key (split_path (m_registryRoot (io src))) (reg_hive (reg src)) = Some k
              /\ (name, v) ∈ key_entries k []
              /\ exportMap !! name = None
              /\ exported_value sz v value
              /\ text_codec sz value = Some (text, tag)
              /\ types !! name = Some tag
              /\ (optionsMap !! name <> None -> stored res.2 name = stored dst name)
              /\ (optionsMap !! name = None ->
                  exists data,
                    encode_value sz value = Some (rv_type v, data)
                    /\ stored res.2 name = Some {| rv_type := rv_type v; rv_data := data |}
                    /\ (forall i, value = VInt i ->
                          Decode sz data (rv_type v) VT_INT = Some value)
                    /\ (forall str, value = VString str ->
                          (Z.of_nat (length str) + 1) * Z.pos sz < 2 ^ 32 ->
                          data = c_str sz str))).
Proof.
  intros sz file optionsMap dst values types res Hc Hf Hinj.
  destruct (Import_spec sz file optionsMap dst Hc Hf Hinj) as (Hok & _ & _ & Hown & _).
  fold res in Hok, Hown.
  assert (Hskip : forall name, is_Some (values !! name) ->
                    optionsMap !! name <> None \/ types !! name = None ->
                    stored res.2 name = stored dst name).
  { intros name [text Hname] Hno. rewrite (Hown name text Hname).
    unfold import_write. destruct (decide _) as [[Hm Ht]|_]; [|reflexivity].
    exfalso. destruct Hno as [Hno|Hno]; [exact (Hno Hm)|].
    apply Ht. unfold types, ini_section in Hno.
    unfold ReadIniFile. rewrite lookup_fmap, Hno. reflexivity. }
  split; [exact Hok|]. split; [exact Hskip|].
  intros exportMap src code Hex name text Hname.
  destruct (Export_names sz exportMap src code file Hex name text Hname)
    as (Hm & k & v & tag & Hk & Hin & Htag & Has).
  destruct (exported_as_value sz v text tag Has) as (value & Hval & Hcodec).
  destruct (import_exported sz v value text tag Hval Hcodec)
    as (Himp & data & Henc & Hint & Hstr).
  exists k, v, value, tag.
  split; [exact Hk|]. split; [exact Hin|]. split; [exact Hm|]. split; [exact Hval|].
  split; [exact Hcodec|]. split; [exact Htag|]. split.
  - intros Hno. apply Hskip; [rewrite Hname; eauto | left; exact Hno].
  - intros Hnone. exists data. split; [exact Henc|]. split; [|split; assumption].
    rewrite (Hown name text Hname). unfold import_write.
    assert (Ht : ReadIniFile sz file (_T "WinMerge.TypeInfo") !! name
                 = Some (UnescapeValue sz tag)).
    { unfold ini_section in Htag. unfold ReadIniFile.
      rewrite lookup_fmap, Htag. reflexivity. }
    rewrite Ht.
    change (default [] (Some (UnescapeValue sz tag))) with (UnescapeValue sz tag).
    destruct (decide _) as [_|Hn]; [|exfalso; apply Hn; split; [exact Hnone | discriminate]].
    rewrite Himp, Henc. reflexivity.
Qed.

Lemma C2_export_import_round_trip_witness :
  let exportMap : OptionsMap := {[ _T "Settings/Width" := VInt 250 ]} in
  let src := IOHandler_new example_root (fresh_registry example_hive) in
  let file := (ExportAllUnloadedValues 2 exportMap ∅ src).2 in
  let optionsMap : OptionsMap := {[ _T "Settings\Colors/Text" := VInt 0 ]} in
  let dst := IOHandler_new example_root (fresh_registry (MkKey [] [])) in
  let res := ImportAllUnloadedValues 2 file optionsMap dst in
  res.1 = OPT_OK
  /\ stored res.2 (_T "Settings\Colors/Text") = None
  /\ exists v value data,
       exported_value 2 v value
       /\ text_codec 2 value = Some (_T "ab", _T "string")
       /\ encode_value 2 value = Some (rv_type v, data)
       /\ stored res.2 (_T "Settings/Name")
          = Some {| rv_type := rv_type v; rv_data := data |}.
Proof.
  intros exportMap src file optionsMap dst res.
  assert (Hnd : NoDup (location dst <$>
                         (fst <$> map_entries (ini_section file (_T "WinMerge")))))
    by (apply (bool_decide_unpack _); vm_compute; exact I).
  destruct (C2_export_import_round_trip 2 file optionsMap dst) as (Hok & Hskip & Hexp).
  - apply IOHandler_new_ok.
  - reflexivity.
  - intros n1 n2 [t1 H1] [t2 H2].
    apply (NoDup_fmap_inj_on (location dst) _ n1 n2 Hnd).
    + apply list_elem_of_fmap. exists (n1, t1). split; [reflexivity|].
      apply map_entries_elem. exact H1.
    + apply list_elem_of_fmap. exists (n2, t2). split; [reflexivity|].
      apply map_entries_elem. exact H2.
  - fold res in Hok, Hskip, Hexp. split; [exact Hok|]. split.
    + rewrite Hskip.
      * vm_compute. reflexivity.
      * vm_compute. eauto.
      * left. vm_compute. discriminate.
    + destruct (Hexp exportMap src OPT_OK eq_refl (_T "Settings/Name") (_T "ab"))
        as (k & v & value & tag & _ & _ & _ & Hval & Hcodec & Htag & _ & Hst).
      { vm_compute. reflexivity. }
      assert (tag = _T "string") as ->.
      { assert (Ht : ini_section file (_T "WinMerge.TypeInfo") !! _T "Settings/Name"
                     = Some (_T "string")) by (vm_compute; reflexivity).
        rewrite Ht in Htag. injection Htag as <-. reflexivity. }
      destruct Hst as (data & Henc & Hstored & _); [vm_compute; reflexivity|].
      exists v, value, data. auto.
Defined.

(** C2 (counterexample).  Two imports of an exported file that do not
    reproduce an exported pair although the name is not in the option
    table of the import.  In the first the importing handler has read
    "Settings\Colors/Text" and then removed the key "Settings": the handle
    it keeps for "Settings\Colors" is on a deleted key, the import of the
    file exported from the same registry returns [OPT_OK], and nothing is
    stored under "Settings\Colors/Text".  In the second the key "Settings"
    holds the words 1 and 2 under the value names "b/x" and "b\/x": the
    export gives them two names, the import stores both at the value "x"
    of the key "Settings/b", and after it the name exported with the text
    "1" holds the word 2. *)
Lemma C2_counterexample :
  (let src := IOHandler_new example_root (fresh_registry example_hive) in
   let file := (ExportAllUnloadedValues 2 ∅ ∅ src).2 in
   let dst := (Remove_locked (_T "Settings/")
                 (Read (_T "Settings\Colors/Text") [] src).2).2 in
   let res := ImportAllUnloadedValues 2 file ∅ dst in
   (ExportAllUnloadedValues 2 ∅ ∅ src).1 = OPT_OK
   /\ ini_section file (_T "WinMerge") !! (_T "Settings\Colors/Text") = Some (_T "7")
   /\ ini_section file (_T "WinMerge.TypeInfo") !! (_T "Settings\Colors/Text")
      = Some (_T "int")
   /\ res.1 = OPT_OK
   /\ stored res.2 (_T "Settings\Colors/Text") = None)
  /\ (let word d := {| rv_type := REG_DWORD; rv_data := [d; 0; 0; 0] |} in
      let settings := MkKey [ (_T "b/x", word 1); (_T "b\/x", word 2) ] [] in
      let hive :=
        MkKey [] [ (_T "Software",
          MkKey [] [ (_T "Thingamahoochie",
            MkKey [] [ (_T "WinMerge", MkKey [] [ (_T "Settings", settings) ]) ]) ]) ] in
      let src := IOHandler_new example_root (fresh_registry hive) in
      let file := (ExportAllUnloadedValues 2 ∅ ∅ src).2 in
      let dst := IOHandler_new example_root (fresh_registry empty_key) in
      let res := ImportAllUnloadedValues 2 file ∅ dst in
      (ExportAllUnloadedValues 2 ∅ ∅ src).1 = OPT_OK
      /\ ini_section file (_T "WinMerge") !! (_T "Settings/b/x") = Some (_T "1")
      /\ ini_section file (_T "WinMerge") !! (_T "Settings/b\/x") = Some (_T "2")
      /\ ini_section file (_T "WinMerge.TypeInfo") !! (_T "Settings/b/x") = Some (_T "int")
      /\ res.1 = OPT_OK
      /\ stored res.2 (_T "Settings/b/x") = Some (word 2)).
Proof. vm_compute. repeat split; reflexivity. Qed.

(* ------------------------------------------------------------------ *)
(** ** Names of well-formed keys are stored at distinct places *)

Lemma has_slash_app (a b : String) : has_slash (a ++ b) = has_slash a || has_slash b.
Proof. unfold has_slash. apply existsb_app. Qed.

Lemma SplitName_join (strPath vn : String) :
  has_slash vn = false -> SplitName (strPath ++ _T "/" ++ vn) = (strPath, vn).
Proof.
  intros Hvn. induction strPath as [|c p IH].
  - cbn [app SplitName _T]. change (_T "/" ++ vn) with (chr_slash :: vn).
    cbn [SplitName]. rewrite Hvn, Z.eqb_refl. reflexivity.
  - cbn [app SplitName]. rewrite has_slash_app.
    change (_T "/" ++ vn) with (chr_slash :: vn) in *.
    replace (has_slash (chr_slash :: vn)) with true by reflexivity.
    rewrite orb_true_r, IH. reflexivity.
Qed.

Lemma join_path_nonempty (c : String) (rest : list String) :
  c <> [] -> join_path (c :: rest) <> [].
Proof.
  intros Hc. cbn [join_path]. destruct rest; [exact Hc|].
  destruct c; [congruence | discriminate].
Qed.

Lemma join_path_snoc (comps : list String) (c : String) :
  Forall (fun n => wf_key_name n = true) comps ->
  join_path (comps ++ [c]) =
    if decide (join_path comps = []) then c
    else join_path comps ++ _T "\" ++ c.
Proof.
  induction 1 as [|a r Ha Hr IH].
  - reflexivity.
  - assert (Hne : a <> []).
    { unfold wf_key_name in Ha. apply andb_true_iff in Ha as [Ha _].
      apply negb_true_iff, bool_decide_eq_false in Ha. exact Ha. }
    destruct (decide (join_path (a :: r) = [])) as [Hj|_];
      [exfalso; exact (join_path_nonempty a r Hne Hj)|].
    destruct r as [|b r'].
    + reflexivity.
    + change (join_path ((a :: b :: r') ++ [c]))
        with (a ++ _T "\" ++ join_path ((b :: r') ++ [c])).
      rewrite IH.
      destruct (decide (join_path (b :: r') = [])) as [Hj|_].
      * exfalso. inversion Hr as [|? ? Hb _]; subst.
        unfold wf_key_name in Hb. apply andb_true_iff in Hb as [Hb _].
        apply negb_true_iff, bool_decide_eq_false in Hb.
        exact (join_path_nonempty b r' Hb Hj).
      * change (join_path (a :: b :: r')) with (a ++ _T "\" ++ join_path (b :: r')).
        rewrite <- !app_assoc. reflexivity.
Qed.

(** The names the export gives to the values below a well-formed key. *)
Lemma key_entries_names (k : RegKey) :
  wf_tree k = true ->
  forall comps name v,
    Forall (fun n => wf_key_name n = true) comps ->
    (name, v) ∈ key_entries k (join_path comps) ->
    exists comps' vn,
      Forall (fun n => wf_key_name n = true) comps'
      /\ has_slash vn = false
      /\ name = join_path comps' ++ _T "/" ++ vn.
Proof.
  induction k as [values subkeys IH] using RegKey_subkeys_ind.
  intros Hwf comps name v Hcomps Hin.
  cbn [wf_tree] in Hwf. apply andb_true_iff in Hwf as [Hvals Hsubs].
  cbn [key_entries] in Hin. apply elem_of_app in Hin as [Hin|Hin].
  - apply list_elem_of_fmap in Hin as ([vn v'] & Heq & Hin). cbn [fst snd] in Heq.
    injection Heq as -> ->. exists comps, vn. split; [exact Hcomps|]. split; [|reflexivity].
    rewrite forallb_forall in Hvals. apply list_elem_of_In in Hin.
    specialize (Hvals _ Hin). cbn [fst] in Hvals. apply negb_true_iff in Hvals. exact Hvals.
  - apply list_elem_of_In, in_flat_map in Hin as ([sn sk] & Hsub & Hin).
    cbn [fst snd] in Hin. apply list_elem_of_In in Hin.
    rewrite forallb_forall in Hsubs. pose proof (Hsubs _ Hsub) as Hw. cbn [fst snd] in Hw.
    apply andb_true_iff in Hw as [Hname Hwk].
    rewrite <- (join_path_snoc comps sn Hcomps) in Hin.
    rewrite Forall_forall in IH.
    apply (IH (sn, sk) (proj2 (list_elem_of_In _ _) Hsub) Hwk (comps ++ [sn]) name v);
      [|exact Hin].
    apply Forall_app. split; [exact Hcomps|]. constructor; [exact Hname | constructor].
Qed.

Lemma split_path_aux_app (a : String) :
  forall cur, exists pre cur',
    forall b, split_path_aux cur (a ++ b) = pre ++ split_path_aux cur' b.
Proof.
  induction a as [|c a IH]; intros cur.
  - exists [], cur. reflexivity.
  - cbn [app split_path_aux]. destruct (c =? chr_backslash).
    + destruct (IH []) as (pre & cur' & H). destruct cur as [|x cur].
      * exists pre, cur'. exact H.
      * exists (rev (x :: cur) :: pre), cur'. intros b. rewrite H. reflexivity.
    + apply IH.
Qed.

Lemma split_path_aux_name (c : String) :
  has_backslash c = false ->
  forall cur rest, split_path_aux cur (c ++ rest) = split_path_aux (rev c ++ cur) rest.
Proof.
  induction c as [|x c IH]; intros Hc cur rest; [reflexivity|].
  unfold has_backslash in Hc. cbn [existsb] in Hc. apply orb_false_iff in Hc as [Hx Hc].
  cbn [app split_path_aux]. rewrite Z.eqb_sym, Hx. rewrite (IH Hc).
  cbn [rev]. rewrite <- app_assoc. reflexivity.
Qed.

Lemma wf_key_name_inv (n : String) :
  wf_key_name n = true -> n <> [] /\ has_backslash n = false.
Proof.
  unfold wf_key_name. intros H. apply andb_true_iff in H as [H1 H2].
  apply negb_true_iff in H1, H2. apply bool_decide_eq_false in H1. auto.
Qed.

(** The components of a path made of well-formed key names, read after
    the characters [cur] of an unfinished component. *)
Lemma split_path_aux_join (comps : list String) :
  Forall (fun n => wf_key_name n = true) comps ->
  forall cur,
    split_path_aux cur (join_path comps) =
      match comps with
      | [] => match cur with [] => [] | _ => [rev cur] end
      | c :: rest => (rev cur ++ c) :: rest
      end.
Proof.
  induction 1 as [|a r Ha Hr IH]; intros cur; [reflexivity|].
  apply wf_key_name_inv in Ha as [Hne Hbs].
  assert (Hcur : rev a ++ cur <> []).
  { intros E. apply app_eq_nil in E as [E _]. apply Hne.
    rewrite <- (rev_involutive a), E. reflexivity. }
  assert (Hrev : rev (rev a ++ cur) = rev cur ++ a)
    by (rewrite rev_app_distr, rev_involutive; reflexivity).
  destruct r as [|b r'].
  - cbn [join_path]. rewrite <- (app_nil_r a) at 1.
    rewrite (split_path_aux_name a Hbs). cbn [split_path_aux].
    destruct (rev a ++ cur) eqn:E; [congruence|]. rewrite Hrev. reflexivity.
  - change (join_path (a :: b :: r')) with (a ++ chr_backslash :: join_path (b :: r')).
    rewrite (split_path_aux_name a Hbs). cbn [split_path_aux].
    rewrite Z.eqb_refl, IH.
    destruct (rev a ++ cur) eqn:E; [congruence|]. rewrite Hrev. reflexivity.
Qed.

Lemma split_path_join_inj (root : String) (cs1 cs2 : list String) :
  Forall (fun n => wf_key_name n = true) cs1 ->
  Forall (fun n => wf_key_name n = true) cs2 ->
  split_path (root ++ join_path cs1) = split_path (root ++ join_path cs2) ->
  cs1 = cs2.
Proof.
  intros H1 H2. unfold split_path.
  destruct (split_path_aux_app root []) as (pre & cur & H). rewrite !H.
  intros E. apply app_inv_head in E.
  rewrite (split_path_aux_join cs1 H1), (split_path_aux_join cs2 H2) in E.
  assert (Hnil : forall c r, wf_key_name c = true ->
            match cur with [] => [] | _ => [rev cur] end <> (rev cur ++ c) :: r).
  { intros c r Hc. apply wf_key_name_inv in Hc as [Hne _].
    destruct cur as [|x cur']; [discriminate|]. intros E'. injection E' as E' _.
    apply Hne. apply (app_inv_head (rev (x :: cur'))). rewrite app_nil_r. symmetry. exact E'. }
  destruct cs1 as [|c1 r1], cs2 as [|c2 r2].
  - reflexivity.
  - exfalso. inversion H2; subst. eapply Hnil; eassumption.
  - exfalso. inversion H1; subst. eapply Hnil; [eassumption | symmetry; exact E].
  - injection E as E ->. apply app_inv_head in E. congruence.
Qed.

(** The names of a file exported from a well-formed key are stored at
    pairwise distinct places, whatever the root of the importing handler. *)
Lemma wf_tree_distinct_places (sz : positive) (exportMap : OptionsMap) (src dst : Sys)
  (code : OptResult) (file : IniFile) :
  ExportAllUnloadedValues sz exportMap ∅ src = (code, file) ->
  (forall k, find_key (split_path (m_registryRoot (io src))) (reg_hive (reg src)) = Some k ->
             wf_tree k = true) ->
  forall n1 n2,
    is_Some (ini_section file (_T "WinMerge") !! n1) ->
    is_Some (ini_section file (_T "WinMerge") !! n2) ->
    location dst n1 = location dst n2 -> n1 = n2.
Proof.
  intros Hex Hwf n1 n2 [t1 Hn1] [t2 Hn2] Hloc.
  destruct (Export_names sz exportMap src code file Hex n1 t1 Hn1)
    as (_ & k1 & v1 & _ & Hk1 & Hin1 & _).
  destruct (Export_names sz exportMap src code file Hex n2 t2 Hn2)
    as (_ & k2 & v2 & _ & Hk2 & Hin2 & _).
  rewrite Hk1 in Hk2. injection Hk2 as <-. specialize (Hwf k1 Hk1).
  destruct (key_entries_names k1 Hwf [] n1 v1 (List.Forall_nil _) Hin1)
    as (cs1 & vn1 & Hcs1 & Hvn1 & ->).
  destruct (key_entries_names k1 Hwf [] n2 v2 (List.Forall_nil _) Hin2)
    as (cs2 & vn2 & Hcs2 & Hvn2 & ->).
  unfold location in Hloc. rewrite !SplitName_join in Hloc by assumption.
  cbn [fst snd] in Hloc. injection Hloc as Hp ->.
  unfold key_of in Hp. apply split_path_join_inj in Hp; [|assumption..].
  subst cs2. reflexivity.
Qed.

(* ================================================================== *)
(** * Further properties of the handler *)
(* ================================================================== *)

(** ** The write of the worker *)

(** The critical section of the worker on a sound cache: the key of the
    name exists afterwards, no key is lost, and the only value that
    changes is the one written. *)
Lemma Worker_write_spec (sz : positive) (pParam : AsyncWriterThreadParams) (s : Sys) :
  cache_ok s -> m_bCloseHandle (io s) = false ->
  let s' := (Worker_write sz pParam s).2 in
  cache_ok s' /\ config s' = config s
  /\ is_Some (find_key (location s (p_name pParam)).1 (reg_hive (reg s')))
  /\ (forall q, is_Some (find_key q (reg_hive (reg s))) ->
                is_Some (find_key q (reg_hive (reg s'))))
  /\ forall q m, value_at q m (reg_hive (reg s')) =
       match encode_value sz (p_value pParam) with
       | Some (type, data) =>
           if decide (q = (location s (p_name pParam)).1 /\ m = (location s (p_name pParam)).2)
           then Some {| rv_type := type; rv_data := data |}
           else value_at q m (reg_hive (reg s))
       | None => value_at q m (reg_hive (reg s))
       end.
Proof.
  intros Hc Hf. cbv zeta. rewrite Worker_write_eq. unfold location.
  destruct (SplitName (p_name pParam)) as [strPath vn]. cbn [fst snd].
  pose proof (OpenKey_ok strPath true s Hc) as Hopen. cbv zeta in Hopen.
  destruct (OpenKey strPath true s) as [hKey s1]. cbn [fst snd] in Hopen.
  destruct Hopen as (Hc1 & Hcfg1 & Hhive & Hat & _ & Hex).
  destruct (Hex eq_refl) as [k Hk]. specialize (Hat k Hk).
  assert (Hv1 : forall q m, value_at q m (reg_hive (reg s1)) = value_at q m (reg_hive (reg s))).
  { intros q m. rewrite Hhive. destruct (_ && _); [apply value_at_create | reflexivity]. }
  assert (Hk1 : forall q, is_Some (find_key q (reg_hive (reg s))) ->
                          is_Some (find_key q (reg_hive (reg s1)))).
  { intros q [kq Hq]. rewrite Hhive. destruct (_ && _); [|eauto].
    destruct (find_key_create_some (key_of s strPath) q _ kq Hq) as [kq' Hq']. eauto. }
  assert (Hf1 : m_bCloseHandle (io s1) = false) by (rewrite (config_flag _ _ Hcfg1); exact Hf).
  rewrite CloseKey_keep
    by (rewrite (config_flag _ _ (SaveValueToReg_config _ _ _ _ _)); exact Hf1).
  rewrite SaveValueToReg_eq.
  destruct (encode_value sz _) as [[type data]|].
  2:{ cbn [snd]. split; [exact Hc1|]. split; [exact Hcfg1|].
      split; [rewrite Hk; eauto|]. split; [exact Hk1 | exact Hv1]. }
  destruct (RegSetValueEx_value_at hKey vn type data (reg s1) _ _ Hat)
    as (_ & Hh' & Hn' & Hsome & Hval).
  destruct (RegSetValueEx hKey vn type data (reg s1)) as [code r]. cbn [snd] in *.
  split; [|split; [|split; [|split]]].
  - destruct Hc1 as [Hc1 Hn1]. split; cbn [io reg].
    + intros p h Hp. destruct (Hc1 p h Hp) as (n & kp & -> & Hhn & Hkp).
      assert (Hs : is_Some (find_key (key_of s1 p) (reg_hive r))).
      { apply Hsome. rewrite Hkp. eauto. }
      destruct Hs as [kp' Hkp']. exists n, kp'. rewrite Hh'. auto.
    + intros n hi. rewrite Hh', Hn'. apply Hn1.
  - exact Hcfg1.
  - cbn [reg]. apply Hsome. rewrite Hk. eauto.
  - intros q Hq. cbn [reg]. apply Hsome, Hk1, Hq.
  - intros q m. cbn [reg]. rewrite Hval, Hv1. reflexivity.
Qed.

(** X1.  On a handler whose cached handles are sound and that keeps its
    handles open, once the worker has applied the write of a value that
    has a registry encoding, the registry holds under the name exactly the
    type and the bytes of that encoding, and [Read] of the name reports
    success, the type, and a buffer that begins with those bytes, whatever
    the buffer it is given. *)
Theorem X1_write_then_read :
  forall (sz : positive) (pParam : AsyncWriterThreadParams) (s : Sys)
         (type : Z) (data buf : list BYTE),
    cache_ok s -> m_bCloseHandle (io s) = false ->
    encode_value sz (p_value pParam) = Some (type, data) ->
    let s' := (Worker_write sz pParam s).2 in
    cache_ok s'
    /\ stored s' (p_name pParam) = Some {| rv_type := type; rv_data := data |}
    /\ exists buf',
         (Read (p_name pParam) buf s').1 = (ERROR_SUCCESS, buf', type)
         /\ take (length data) buf' = data.
Proof.
  intros sz pParam s type data buf Hc Hf Henc. cbv zeta.
  destruct (Worker_write_spec sz pParam s Hc Hf) as (Hc' & Hcfg & _ & _ & Hval).
  rewrite Henc in Hval.
  assert (Hst : stored (Worker_write sz pParam s).2 (p_name pParam)
                = Some {| rv_type := type; rv_data := data |}).
  { rewrite stored_location, (location_config _ _ _ Hcfg), Hval.
    destruct (decide _) as [_|Hn]; [reflexivity | exfalso; apply Hn; auto]. }
  split; [exact Hc'|]. split; [exact Hst|].
  assert (Hf' : m_bCloseHandle (io (Worker_write sz pParam s).2) = false)
    by (rewrite (config_flag _ _ Hcfg); exact Hf).
  destruct (Read_ok (p_name pParam) buf _ Hc' Hf') as (_ & _ & _ & _ & Hfound).
  destruct (Hfound _ Hst) as (buf' & Hres & Htake). exists buf'. auto.
Qed.

Lemma X1_write_then_read_witness :
  let s := IOHandler_new example_root (fresh_registry example_hive) in
  let pParam := {| p_name := _T "Settings/Height"; p_value := VInt (-2) |} in
  let s' := (Worker_write 2 pParam s).2 in
  stored s' (_T "Settings/Height")
  = Some {| rv_type := REG_DWORD; rv_data := [254; 255; 255; 255] |}
  /\ exists buf',
       (Read (_T "Settings/Height") [] s').1 = (ERROR_SUCCESS, buf', REG_DWORD)
       /\ take 4 buf' = [254; 255; 255; 255].
Proof.
  intros s pParam s'.
  destruct (X1_write_then_read 2 pParam s REG_DWORD [254; 255; 255; 255] [])
    as (_ & Hst & Hread).
  - apply IOHandler_new_ok.
  - reflexivity.
  - reflexivity.
  - split; [exact Hst | exact Hread].
Defined.

(** X2.  On a handler whose cached handles are sound and that keeps its
    handles open, the write of the worker leaves every key of the registry
    in place, creates the key of the name when it is missing, and changes
    no value stored under another place; when the value has no registry
    encoding (a Null value) no value changes at all. *)
Theorem X2_write_frame :
  forall (sz : positive) (pParam : AsyncWriterThreadParams) (s : Sys),
    cache_ok s -> m_bCloseHandle (io s) = false ->
    let s' := (Worker_write sz pParam s).2 in
    is_Some (find_key (key_of s (SplitName (p_name pParam)).1) (reg_hive (reg s')))
    /\ (forall q, is_Some (find_key q (reg_hive (reg s))) ->
                  is_Some (find_key q (reg_hive (reg s'))))
    /\ (forall name, location s name <> location s (p_name pParam) ->
                     stored s' name = stored s name)
    /\ (encode_value sz (p_value pParam) = None ->
        forall name, stored s' name = stored s name).
Proof.
  intros sz pParam s Hc Hf. cbv zeta.
  destruct (Worker_write_spec sz pParam s Hc Hf) as (_ & Hcfg & Hkey & Hkeep & Hval).
  split; [exact Hkey|]. split; [exact Hkeep|]. split.
  - intros name Hne. rewrite !stored_location, (location_config _ _ _ Hcfg), Hval.
    destruct (encode_value sz _) as [[type data]|]; [|reflexivity].
    destruct (decide _) as [[H1 H2]|_]; [|reflexivity].
    exfalso. apply Hne.
    rewrite (surjective_pairing (location s name)),
            (surjective_pairing (location s (p_name pParam))). congruence.
  - intros Hnone name. rewrite !stored_location, (location_config _ _ _ Hcfg), Hval, Hnone.
    reflexivity.
Qed.

Lemma X2_write_frame_witness :
  let s := IOHandler_new example_root (fresh_registry example_hive) in
  let pParam := {| p_name := _T "Fonts/Size"; p_value := VInt 9 |} in
  let s' := (Worker_write 2 pParam s).2 in
  is_Some (find_key (key_of s (_T "Fonts")) (reg_hive (reg s')))
  /\ stored s' (_T "Settings/Width") = stored s (_T "Settings/Width").
Proof.
  intros s pParam s'.
  destruct (X2_write_frame 2 pParam s) as (Hkey & _ & Hframe & _).
  - apply IOHandler_new_ok.
  - reflexivity.
  - split; [exact Hkey|]. apply Hframe. vm_compute. discriminate.
Defined.

(* ------------------------------------------------------------------ *)
(** ** The value codec, there and back *)

Lemma encode_int sz (i : Z) :
  encode_value sz (VInt i) = Some (REG_DWORD, le_bytes 4 (to_DWORD i)).
Proof. reflexivity. Qed.

Lemma encode_bool sz (b : bool) :
  encode_value sz (VBool b) = Some (REG_DWORD, le_bytes 4 (if b then 1 else 0)).
Proof. reflexivity. Qed.

(** The bytes written for a value are decoded to that value. *)
Lemma LoadValueFromBuf_encoded :
  forall (sz : positive) (name : String) (value expected : VariantValue)
         (m : OptionsMap) (type : Z) (data rest : list BYTE),
    storable sz value ->
    GetType expected = GetType value ->
    encode_value sz value = Some (type, data) ->
    LoadValueFromBuf sz name type (data ++ rest) expected m = Set_ name value m.
Proof.
  intros sz name value expected m type data rest Hst Hty Henc.
  unfold LoadValueFromBuf. rewrite Hty.
  destruct value as [|i|b|str]; cbn [storable] in Hst; [contradiction| | |].
  - rewrite encode_int in Henc.
    assert (Hd : data = le_bytes 4 (to_DWORD i)) by congruence.
    assert (Ht : type = REG_DWORD) by congruence. subst data type. cbn [GetType].
    destruct (decide (REG_DWORD = REG_SZ /\ _)) as [[E _]|_]; [discriminate E|].
    destruct (decide (REG_DWORD = REG_DWORD)); [|congruence].
    destruct (decide (VT_INT = VT_INT)); [|congruence].
    rewrite read_DWORD_le_bytes by apply to_DWORD_range.
    unfold SetInt. rewrite to_int_to_DWORD by exact Hst. reflexivity.
  - rewrite encode_bool in Henc.
    assert (Hd : data = le_bytes 4 (if b then 1 else 0)) by congruence.
    assert (Ht : type = REG_DWORD) by congruence. subst data type. cbn [GetType].
    destruct (decide (REG_DWORD = REG_SZ /\ _)) as [[E _]|_]; [discriminate E|].
    destruct (decide (REG_DWORD = REG_DWORD)); [|congruence].
    destruct (decide (VT_BOOL = VT_INT)) as [E|_]; [discriminate E|].
    destruct (decide (VT_BOOL = VT_BOOL)); [|congruence].
    rewrite read_DWORD_le_bytes by (destruct b; lia).
    destruct b; reflexivity.
  - destruct Hst as [Hchars Hfit].
    rewrite encode_string in Henc by exact Hfit. injection Henc as <- <-. cbn [GetType].
    destruct (decide (REG_SZ = REG_SZ /\ VT_STRING = VT_STRING)) as [_|Hn];
      [|exfalso; apply Hn; auto].
    rewrite read_c_str_c_str by exact Hchars. reflexivity.
Qed.

(** X3.  For an [int], a [bool] and a string whose characters are not
    the terminator, fit [tchar_t] and whose byte count fits a [DWORD]:
    the type and the bytes [SaveValueToReg] writes for the value, handed
    to [LoadValueFromBuf] at the start of a buffer together with a value
    of the same type, make it set the option to exactly that value. *)
Theorem X3_codec_round_trip :
  forall (sz : positive) (name : String) (value expected : VariantValue)
         (m : OptionsMap) (type : Z) (data rest : list BYTE),
    storable sz value ->
    GetType expected = GetType value ->
    encode_value sz value = Some (type, data) ->
    LoadValueFromBuf sz name type (data ++ rest) expected m = Set_ name value m.
Proof. exact LoadValueFromBuf_encoded. Qed.

Lemma X3_codec_round_trip_witness :
  LoadValueFromBuf 2 (_T "Name") REG_SZ ([97; 0; 98; 0; 0; 0] ++ [7; 7]) (VString [])
    {[ _T "Name" := VString [] ]}
  = Set_ (_T "Name") (VString (_T "ab")) {[ _T "Name" := VString [] ]}.
Proof.
  apply (X3_codec_round_trip 2 (_T "Name") (VString (_T "ab")) (VString [])).
  - split; [repeat constructor; unfold tchar_ok; lia | vm_compute; reflexivity].
  - reflexivity.
  - reflexivity.
Defined.

(** X4.  The decoding follows the type the caller expects, not the type
    the value was written with.  The bytes written for an [int], decoded
    for a caller that expects a [bool], give true exactly when the [int]
    is not zero; the bytes written for a [bool], decoded for a caller that
    expects an [int], give 1 or 0.  Between a string and the two other
    types nothing is decoded: [LoadValueFromBuf] returns [OPT_WRONG_TYPE]
    and leaves the option table as it is, as it does for a caller that
    expects no type at all. *)
Theorem X4_decode_other_type :
  forall (sz : positive) (name : String) (value expected : VariantValue)
         (m : OptionsMap) (type : Z) (data rest : list BYTE),
    encode_value sz value = Some (type, data) ->
    (forall i, value = VInt i -> - 2 ^ 31 <= i < 2 ^ 31 -> GetType expected = VT_BOOL ->
       LoadValueFromBuf sz name type (data ++ rest) expected m
       = Set_ name (VBool (negb (i =? 0))) m)
    /\ (forall b, value = VBool b -> GetType expected = VT_INT ->
        LoadValueFromBuf sz name type (data ++ rest) expected m
        = Set_ name (VInt (if b then 1 else 0)) m)
    /\ (GetType value = VT_STRING -> GetType expected <> VT_STRING ->
        LoadValueFromBuf sz name type (data ++ rest) expected m = (OPT_WRONG_TYPE, m))
    /\ (GetType value <> VT_STRING -> GetType expected = VT_STRING ->
        LoadValueFromBuf sz name type (data ++ rest) expected m = (OPT_WRONG_TYPE, m))
    /\ (GetType expected = VT_NULL ->
        LoadValueFromBuf sz name type (data ++ rest) expected m = (OPT_WRONG_TYPE, m)).
Proof.
  intros sz name value expected m type data rest Henc.
  assert (Hsz : REG_DWORD <> REG_SZ) by discriminate.
  split; [|split; [|split; [|split]]].
  - intros i -> Hi Hty. rewrite encode_int in Henc.
    assert (Hd : data = le_bytes 4 (to_DWORD i)) by congruence.
    assert (Ht : type = REG_DWORD) by congruence. subst data type.
    unfold LoadValueFromBuf. rewrite Hty.
    destruct (decide (REG_DWORD = REG_SZ /\ _)) as [[E _]|_]; [discriminate E|].
    destruct (decide (REG_DWORD = REG_DWORD)); [|congruence].
    destruct (decide (VT_BOOL = VT_INT)) as [E|_]; [discriminate E|].
    destruct (decide (VT_BOOL = VT_BOOL)); [|congruence].
    rewrite read_DWORD_le_bytes by apply to_DWORD_range.
    unfold SetBool. do 2 f_equal.
    pose proof (to_DWORD_range i) as Hr.
    destruct (Z.eqb_spec i 0) as [->|Hne]; [reflexivity|]. cbn [negb].
    destruct (Z.ltb_spec 0 (to_DWORD i)) as [_|Hle]; [reflexivity|].
    exfalso. apply Hne. rewrite <- (to_int_to_DWORD i Hi).
    replace (to_DWORD i) with 0 by lia. reflexivity.
  - intros b -> Hty. rewrite encode_bool in Henc.
    assert (Hd : data = le_bytes 4 (if b then 1 else 0)) by congruence.
    assert (Ht : type = REG_DWORD) by congruence. subst data type.
    unfold LoadValueFromBuf. rewrite Hty.
    destruct (decide (REG_DWORD = REG_SZ /\ _)) as [[E _]|_]; [discriminate E|].
    destruct (decide (REG_DWORD = REG_DWORD)); [|congruence].
    destruct (decide (VT_INT = VT_INT)); [|congruence].
    rewrite read_DWORD_le_bytes by (destruct b; lia).
    destruct b; reflexivity.
  - intros Hv He. destruct value as [|i|b|str]; try discriminate Hv.
    assert (Ht : type = REG_SZ).
    { unfold encode_value in Henc. cbn [GetType] in Henc.
      destruct (_ <? _)%nat; congruence. }
    subst type. unfold LoadValueFromBuf.
    destruct (decide (REG_SZ = REG_SZ /\ _)) as [[_ E]|_]; [contradiction|].
    destruct (decide (REG_SZ = REG_DWORD)) as [E|_]; [discriminate E | reflexivity].
  - intros Hv He.
    assert (Ht : type = REG_DWORD).
    { destruct value as [|i|b|str]; try discriminate Henc;
        [rewrite encode_int in Henc | rewrite encode_bool in Henc | contradiction];
        congruence. }
    subst type. unfold LoadValueFromBuf. rewrite He.
    destruct (decide (REG_DWORD = REG_SZ /\ _)) as [[E _]|_]; [discriminate E|].
    destruct (decide (REG_DWORD = REG_DWORD)); [|congruence].
    destruct (decide (VT_STRING = VT_INT)) as [E|_]; [discriminate E|].
    destruct (decide (VT_STRING = VT_BOOL)) as [E|_]; [discriminate E | reflexivity].
  - intros He. unfold LoadValueFromBuf. rewrite He.
    destruct (decide (type = REG_SZ /\ _)) as [[_ E]|_]; [discriminate E|].
    destruct (decide (type = REG_DWORD)); [|reflexivity].
    destruct (decide (VT_NULL = VT_INT)) as [E|_]; [discriminate E|].
    destruct (decide (VT_NULL = VT_BOOL)) as [E|_]; [discriminate E | reflexivity].
Qed.

Lemma X4_decode_other_type_witness :
  LoadValueFromBuf 2 (_T "Flag") REG_DWORD (le_bytes 4 (to_DWORD (-3)) ++ []) (VBool false)
    {[ _T "Flag" := VBool false ]}
  = Set_ (_T "Flag") (VBool true) {[ _T "Flag" := VBool false ]}.
Proof.
  destruct (X4_decode_other_type 2 (_T "Flag") (VInt (-3)) (VBool false)
              {[ _T "Flag" := VBool false ]} REG_DWORD (le_bytes 4 (to_DWORD (-3))) [])
    as (H & _); [reflexivity|].
  apply (H (-3)); [reflexivity | lia | reflexivity].
Defined.

(** X5.  A string with a zero character inside is written in full, all
    its characters and a terminator, but it is read back only up to that
    zero character: [LoadValueFromBuf] sets the option to the part before
    it. *)
Theorem X5_string_embedded_nul :
  forall (sz : positive) (a b : String) (name : String) (expected : VariantValue)
         (m : OptionsMap) (rest : list BYTE),
    Forall (tchar_ok sz) a ->
    (Z.of_nat (length (a ++ 0 :: b)) + 1) * Z.pos sz < 2 ^ 32 ->
    GetType expected = VT_STRING ->
    exists data,
      encode_value sz (VString (a ++ 0 :: b)) = Some (REG_SZ, data)
      /\ Z.of_nat (length data) = (Z.of_nat (length (a ++ 0 :: b)) + 1) * Z.pos sz
      /\ LoadValueFromBuf sz name REG_SZ (data ++ rest) expected m
         = Set_ name (VString a) m.
Proof.
  intros sz a b name expected m rest Ha Hfit Hty.
  exists (c_str sz (a ++ 0 :: b)).
  split; [apply encode_string; exact Hfit|]. split.
  - rewrite length_c_str. pose proof (tchar_size_Z sz). nia.
  - unfold LoadValueFromBuf. rewrite Hty.
    destruct (decide (REG_SZ = REG_SZ /\ VT_STRING = VT_STRING)) as [_|Hn];
      [|exfalso; apply Hn; auto].
    unfold c_str. rewrite <- app_assoc. cbn [app].
    rewrite tchars_bytes_app, <- app_assoc.
    change (tchars_bytes sz (0 :: b ++ [0]))
      with (tchar_bytes sz 0 ++ tchars_bytes sz (b ++ [0])).
    rewrite <- app_assoc, read_c_str_terminated by exact Ha. reflexivity.
Qed.

Lemma X5_string_embedded_nul_witness :
  exists data,
    encode_value 2 (VString (_T "ab" ++ 0 :: _T "cd")) = Some (REG_SZ, data)
    /\ Z.of_nat (length data) = 12
    /\ LoadValueFromBuf 2 (_T "Name") REG_SZ (data ++ []) (VString [])
         {[ _T "Name" := VString [] ]}
       = Set_ (_T "Name") (VString (_T "ab")) {[ _T "Name" := VString [] ]}.
Proof.
  apply (X5_string_embedded_nul 2 (_T "ab") (_T "cd") (_T "Name") (VString [])).
  - repeat constructor; unfold tchar_ok; lia.
  - vm_compute. reflexivity.
  - reflexivity.
Defined.

(* ------------------------------------------------------------------ *)
(** ** Reading *)

Lemma storable_encodes (sz : positive) (value : VariantValue) :
  storable sz value -> exists type data, encode_value sz value = Some (type, data).
Proof.
  destruct value as [|i|b|str]; cbn [storable]; intros H; [contradiction| | |].
  - eexists _, _. apply encode_int.
  - eexists _, _. apply encode_bool.
  - eexists _, _. apply encode_string, H.
Qed.

Lemma OpenKey_hive (strPath : String) (s : Sys) :
  reg_hive (reg (OpenKey strPath false s).2) = reg_hive (reg s).
Proof.
  rewrite OpenKey_eq. destruct (m_hKeys (io s) !! strPath); [reflexivity|].
  unfold RegOpenKeyEx. destruct (resolve _ _); [destruct (decide _); reflexivity|].
  destruct (find_key _ _); cbn; destruct (decide _); reflexivity.
Qed.

Lemma CloseKey_hive (hKey : HKEY) (strPath : String) (s : Sys) :
  reg_hive (reg (CloseKey hKey strPath s).2) = reg_hive (reg s).
Proof.
  rewrite CloseKey_eq. destruct (m_bCloseHandle (io s)); [|reflexivity].
  cbn [snd reg]. destruct (decide _); [|reflexivity]. destruct hKey; reflexivity.
Qed.

Lemma Read_hive (name : String) (buf : list BYTE) (s : Sys) :
  reg_hive (reg (Read name buf s).2) = reg_hive (reg s).
Proof.
  rewrite Read_eq. destruct (SplitName name) as [strPath vn].
  pose proof (OpenKey_hive strPath s) as H.
  destruct (OpenKey strPath false s) as [hKey s1]. cbn [snd] in *.
  rewrite CloseKey_hive. exact H.
Qed.

Lemma InitOption_hive (sz : positive) (name : String) (defaultValue : VariantValue)
  (this : CRegOptionsMgr) :
  reg_hive (reg (m_pIOHandler (InitOption sz name defaultValue this).2))
  = reg_hive (reg (m_pIOHandler this)).
Proof.
  unfold InitOption. destruct (decide _); [reflexivity|].
  destruct (negb _).
  - destruct (AddOption _ _ _). reflexivity.
  - destruct (AddOption _ _ _) as [retVal m]. destruct (decide _); [|reflexivity].
    pose proof (Read_hive name (replicate 256 0) (m_pIOHandler (with_map m this))) as H.
    destruct (Read name _ _) as [[[retValReg dataBuf] type] s]. cbn [snd] in H.
    destruct (decide _); [|exact H].
    destruct (LoadValueFromBuf _ _ _ _ _ _). exact H.
Qed.

(** X6.  [Read] and the [InitOption] functions only look at the
    registry: whatever the name, the buffer, the default value and the
    state of the handler, the keys and the values of the registry are
    afterwards what they were before.  In particular a key that does not
    exist is not created by reading below it, and a default value is
    never written to the registry. *)
Theorem X6_reading_changes_nothing :
  (forall (name : String) (buf : list BYTE) (s : Sys),
     reg_hive (reg (Read name buf s).2) = reg_hive (reg s))
  /\ (forall (sz : positive) (name : String) (defaultValue : VariantValue)
             (this : CRegOptionsMgr),
        reg_hive (reg (m_pIOHandler (InitOption sz name defaultValue this).2))
        = reg_hive (reg (m_pIOHandler this)))
  /\ (forall (sz : positive) (name : String) (defaultValue : Z) (serializable : bool)
             (this : CRegOptionsMgr),
        reg_hive (reg (m_pIOHandler (InitOption_int sz name defaultValue serializable this).2))
        = reg_hive (reg (m_pIOHandler this))).
Proof.
  split; [exact Read_hive|]. split; [exact InitOption_hive|].
  intros sz name d b this. unfold InitOption_int. destruct b; [apply InitOption_hive|].
  destruct (AddOption _ _ _). reflexivity.
Qed.

(** X7.  On a handler whose cached handles are sound and that keeps its
    handles open, [Read] reports [ERROR_SUCCESS] exactly when the registry
    holds a value under the name; it then returns the type of that value
    and a buffer that begins with all the bytes of the value, however long
    the value and however short the buffer it was given. *)
Theorem X7_read_success :
  forall (name : String) (buf : list BYTE) (s : Sys),
    cache_ok s -> m_bCloseHandle (io s) = false ->
    ((Read name buf s).1.1.1 = ERROR_SUCCESS <-> is_Some (stored s name))
    /\ forall v, stored s name = Some v ->
         exists buf', (Read name buf s).1 = (ERROR_SUCCESS, buf', rv_type v)
                      /\ take (length (rv_data v)) buf' = rv_data v.
Proof.
  intros name buf s Hc Hf.
  destruct (Read_ok name buf s Hc Hf) as (_ & _ & _ & Hnone & Hsome).
  split; [|exact Hsome]. split.
  - intros Hok. destruct (stored s name) as [v|]; [eauto|].
    exfalso. exact (Hnone eq_refl Hok).
  - intros [v Hv]. destruct (Hsome v Hv) as (buf' & -> & _). reflexivity.
Qed.

Lemma X7_read_success_witness :
  let s := IOHandler_new example_root (fresh_registry example_hive) in
  ((Read (_T "Settings/Name") [] s).1.1.1 = ERROR_SUCCESS
   <-> is_Some (stored s (_T "Settings/Name")))
  /\ (Read (_T "Settings/Missing") [] s).1.1.1 <> ERROR_SUCCESS.
Proof.
  intros s.
  destruct (X7_read_success (_T "Settings/Name") [] s) as [Hiff _];
    [apply IOHandler_new_ok | reflexivity |].
  destruct (X7_read_success (_T "Settings/Missing") [] s) as [Hmiss _];
    [apply IOHandler_new_ok | reflexivity |].
  split; [exact Hiff|]. intros Hok. apply Hmiss in Hok. destruct Hok as [v Hv].
  vm_compute in Hv. discriminate Hv.
Defined.

(** [InitOption] finds the value whose encoding the registry holds. *)
Lemma InitOption_restores (sz : positive) (name : String) (value defaultValue : VariantValue)
  (this : CRegOptionsMgr) (type : Z) (data : list BYTE) :
  m_serializing this = true ->
  cache_ok (m_pIOHandler this) ->
  m_bCloseHandle (io (m_pIOHandler this)) = false ->
  storable sz value ->
  GetType defaultValue = GetType value ->
  encode_value sz value = Some (type, data) ->
  stored (m_pIOHandler this) name = Some {| rv_type := type; rv_data := data |} ->
  let res := InitOption sz name defaultValue this in
  res.1 = OPT_OK
  /\ Get name (m_optionsMap res.2) = value
  /\ forall other, other <> name ->
       m_optionsMap res.2 !! other = m_optionsMap this !! other.
Proof.
  intros Hser Hc Hf Hst Hty Henc Hstored. cbv zeta.
  destruct (Read_ok name (replicate 256 0) _ Hc Hf) as (_ & _ & _ & _ & Hfound).
  destruct (Hfound _ Hstored) as (buf' & Hres & Htake). cbn [rv_type rv_data] in Hres, Htake.
  assert (Hnn : GetType defaultValue <> VT_NULL).
  { rewrite Hty. destruct value; cbn in Hst |- *; [contradiction | discriminate..]. }
  unfold InitOption.
  destruct (decide (GetType defaultValue = VT_NULL)) as [E|_]; [contradiction|].
  rewrite Hser. cbn [negb].
  unfold AddOption.
  destruct (decide (GetType defaultValue = VT_NULL)) as [E|_]; [contradiction|].
  destruct (decide (OPT_OK = OPT_OK)); [|congruence].
  cbn [with_map with_handler m_pIOHandler m_serializing m_optionsMap].
  destruct (Read name (replicate 256 0) (m_pIOHandler this))
    as [[[retValReg dataBuf] type'] s2].
  cbn [fst] in Hres. injection Hres as -> -> ->.
  destruct (decide (ERROR_SUCCESS = ERROR_SUCCESS)); [|congruence].
  rewrite <- (take_drop (length data) buf'), Htake.
  rewrite (LoadValueFromBuf_encoded sz name value defaultValue _ type data _ Hst Hty Henc).
  rewrite (Get_Set_same name defaultValue value (m_optionsMap this) Hty).
  cbn [fst snd m_optionsMap with_map]. split; [reflexivity|]. split.
  - unfold Get. rewrite lookup_insert_eq. reflexivity.
  - intros other Hne. rewrite lookup_insert_ne by congruence. reflexivity.
Qed.

(** X8.  A value written by the worker is found again by [InitOption]:
    on a serializing manager whose handler has sound cached handles and
    keeps them open, after the write of an [int], a [bool] or a string
    that the registry encoding keeps in full, [InitOption] of the same
    name with a default value of the same type returns [OPT_OK] and the
    option table holds the value written, not the default; the other
    options of the table are as before. *)
Theorem X8_restore_after_write :
  forall (sz : positive) (name : String) (value defaultValue : VariantValue)
         (this : CRegOptionsMgr),
    m_serializing this = true ->
    cache_ok (m_pIOHandler this) ->
    m_bCloseHandle (io (m_pIOHandler this)) = false ->
    storable sz value ->
    GetType defaultValue = GetType value ->
    let s' := (Worker_write sz {| p_name := name; p_value := value |} (m_pIOHandler this)).2 in
    let res := InitOption sz name defaultValue (with_handler s' this) in
    res.1 = OPT_OK
    /\ Get name (m_optionsMap res.2) = value
    /\ forall other, other <> name ->
         m_optionsMap res.2 !! other = m_optionsMap this !! other.
Proof.
  intros sz name value defaultValue this Hser Hc Hf Hst Hty. cbv zeta.
  destruct (storable_encodes sz value Hst) as (type & data & Henc).
  set (pParam := {| p_name := name; p_value := value |}).
  destruct (Worker_write_spec sz pParam (m_pIOHandler this) Hc Hf)
    as (Hc' & Hcfg & _ & _ & Hval).
  set (s' := (Worker_write sz pParam (m_pIOHandler this)).2) in *.
  cbn [p_value p_name pParam] in Hval. rewrite Henc in Hval.
  assert (Hstored : stored s' name = Some {| rv_type := type; rv_data := data |}).
  { rewrite stored_location, (location_config _ _ _ Hcfg), Hval.
    destruct (decide _) as [_|Hn]; [reflexivity | exfalso; apply Hn; auto]. }
  assert (Hf' : m_bCloseHandle (io s') = false) by (rewrite (config_flag _ _ Hcfg); exact Hf).
  apply (InitOption_restores sz name value defaultValue (with_handler s' this) type data);
    assumption.
Qed.

Lemma X8_restore_after_write_witness :
  let this := CRegOptionsMgr_new example_root (fresh_registry example_hive) in
  let s' := (Worker_write 2 {| p_name := _T "Settings/Title"; p_value := VString (_T "ok") |}
               (m_pIOHandler this)).2 in
  let res := InitOption 2 (_T "Settings/Title") (VString []) (with_handler s' this) in
  res.1 = OPT_OK /\ Get (_T "Settings/Title") (m_optionsMap res.2) = VString (_T "ok").
Proof.
  intros this s' res.
  destruct (X8_restore_after_write 2 (_T "Settings/Title") (VString (_T "ok")) (VString []) this)
    as (H1 & H2 & _).
  - reflexivity.
  - apply IOHandler_new_ok.
  - reflexivity.
  - split; [repeat constructor; unfold tchar_ok; lia | vm_compute; reflexivity].
  - reflexivity.
  - split; [exact H1 | exact H2].
Defined.

(* ------------------------------------------------------------------ *)
(** ** Remove *)

Lemma RegDeleteValue_value_at (hKey : HKEY) (n : String) (r : Registry)
  (p : list String) (k : RegKey) :
  key_at hKey r = inr (p, k) ->
  let res := RegDeleteValue hKey n r in
  reg_handles res.2 = reg_handles r /\ reg_next res.2 = reg_next r
  /\ (forall q, is_Some (find_key q (reg_hive res.2)) <-> is_Some (find_key q (reg_hive r)))
  /\ forall q m, value_at q m (reg_hive res.2) =
       if decide (q = p /\ m = n) then None else value_at q m (reg_hive r).
Proof.
  intros Hk. cbv zeta. unfold RegDeleteValue. rewrite Hk.
  apply key_at_inv in Hk as [_ Hfind].
  destruct (assoc_find n (key_values k)) as [v|] eqn:Ev; cbn [fst snd with_hive reg_hive
    reg_handles reg_next].
  - pose proof (fun q => find_key_update_values (del_value n) p q (reg_hive r)
                           (fun k0 => eq_refl)) as Hupd.
    split; [reflexivity|]. split; [reflexivity|]. split.
    + intros q. specialize (Hupd q). rewrite <- !fmap_is_Some with (f := key_values).
      rewrite Hupd. destruct (decide (q = p)); [|reflexivity].
      rewrite !fmap_is_Some. reflexivity.
    + intros q m. specialize (Hupd q). unfold value_at.
      destruct (decide (q = p)) as [->|Hq].
      * rewrite Hfind in *. cbn in Hupd.
        destruct (find_key p (update_key p _ (reg_hive r))) as [k1|]; [|discriminate].
        injection Hupd as ->.
        destruct (decide (p = p /\ m = n)) as [[_ ->]|Hn].
        -- apply assoc_find_del_eq.
        -- apply assoc_find_del_ne. intros ->. apply Hn. auto.
      * destruct (decide (q = p /\ m = n)) as [[-> _]|_]; [contradiction|].
        destruct (find_key q (update_key p _ (reg_hive r))) as [k1|],
                 (find_key q (reg_hive r)) as [k0|]; cbn in Hupd; try discriminate.
        -- injection Hupd as ->. reflexivity.
        -- reflexivity.
  - split; [reflexivity|]. split; [reflexivity|]. split; [reflexivity|].
    intros q m. destruct (decide (q = p /\ m = n)) as [[-> ->]|_]; [|reflexivity].
    unfold value_at. rewrite Hfind. exact Ev.
Qed.

(** What is left of the tree when a key is emptied. *)
Lemma find_key_wipe (p q : list String) (k kp : RegKey) :
  find_key p k = Some kp ->
  key_values <$> find_key q (update_key p (fun _ => empty_key) k) =
    if is_prefix p q then (if decide (q = p) then Some [] else None)
    else key_values <$> find_key q k.
Proof.
  revert q k. induction p as [|c p IH]; intros q k Hp.
  - cbn [update_key is_prefix]. destruct q as [|d q].
    + destruct (decide ([] = [])); [reflexivity | congruence].
    + destruct (decide (d :: q = [])); [discriminate | reflexivity].
  - cbn [find_key] in Hp. cbn [update_key].
    destruct (assoc_find c (key_subkeys k)) as [k'|] eqn:E; [|discriminate].
    destruct q as [|d q]; [reflexivity|].
    cbn [find_key key_subkeys is_prefix].
    destruct (decide (c = d)) as [->|Hne].
    + rewrite assoc_find_set_eq, E, (IH q k' Hp).
      destruct (is_prefix p q); [|reflexivity].
      destruct (decide (q = p)) as [->|Hq].
      * destruct (decide (d :: p = d :: p)); [reflexivity | congruence].
      * destruct (decide (d :: q = d :: p)); [congruence | reflexivity].
    + rewrite assoc_find_set_ne by exact Hne. reflexivity.
Qed.

Lemma RegDeleteTree_value_at (hKey : HKEY) (r : Registry) (p : list String) (k : RegKey) :
  key_at hKey r = inr (p, k) ->
  let res := RegDeleteTree hKey r in
  reg_handles res.2 = kill_below p <$> reg_handles r
  /\ find_key p (reg_hive res.2) = Some empty_key
  /\ (forall q, strict_below p q = true -> find_key q (reg_hive res.2) = None)
  /\ (forall q, is_prefix p q = false ->
        (is_Some (find_key q (reg_hive res.2)) <-> is_Some (find_key q (reg_hive r))))
  /\ forall q m, value_at q m (reg_hive res.2) =
       if is_prefix p q then None else value_at q m (reg_hive r).
Proof.
  intros Hk. cbv zeta. unfold RegDeleteTree. rewrite Hk. cbn [snd reg_hive reg_handles].
  apply key_at_inv in Hk as [_ Hfind].
  pose proof (fun q => find_key_wipe p q (reg_hive r) k Hfind) as Hw.
  split; [reflexivity|]. split; [|split; [|split]].
  - rewrite find_key_update_eq, Hfind. reflexivity.
  - intros q Hq. specialize (Hw q). unfold strict_below in Hq.
    apply andb_true_iff in Hq as [Hpre Hlen]. rewrite Hpre in Hw.
    destruct (decide (q = p)) as [->|_].
    + rewrite Nat.eqb_refl in Hlen. discriminate Hlen.
    + destruct (find_key q _); [discriminate Hw | reflexivity].
  - intros q Hq. specialize (Hw q). rewrite Hq in Hw.
    rewrite <- !fmap_is_Some with (f := key_values). rewrite Hw. reflexivity.
  - intros q m. specialize (Hw q). unfold value_at.
    destruct (is_prefix p q).
    + destruct (decide (q = p)).
      * destruct (find_key q _) as [k1|]; [|reflexivity].
        injection Hw as ->. reflexivity.
      * destruct (find_key q _); [discriminate Hw | reflexivity].
    + destruct (find_key q (update_key p _ (reg_hive r))) as [k1|],
               (find_key q (reg_hive r)) as [k0|]; cbn in Hw; try discriminate.
      * injection Hw as ->. reflexivity.
      * reflexivity.
Qed.

(** [Remove] of the name of a value. *)
Lemma Remove_value_spec :
  forall (name : String) (s : Sys),
    cache_ok s -> m_bCloseHandle (io s) = false -> m_dwQueueCount (io s) = 0 ->
    (SplitName name).2 <> [] ->
    exists s',
      Remove name s = Some (OPT_OK, s')
      /\ cache_ok s'
      /\ stored s' name = None
      /\ (forall other, location s other <> location s name ->
            stored s' other = stored s other)
      /\ is_Some (find_key (key_of s (SplitName name).1) (reg_hive (reg s')))
      /\ (forall q, is_Some (find_key q (reg_hive (reg s))) ->
                    is_Some (find_key q (reg_hive (reg s')))).
Proof.
  intros name s Hc Hf Hzero Hvn.
  unfold Remove, queue_is_empty. rewrite Hzero, Z.eqb_refl.
  pose proof (Remove_locked_config name s) as Hcfg.
  rewrite Remove_locked_eq in *. unfold stored, location.
  destruct (SplitName name) as [strPath vn]. cbn [fst snd] in *.
  pose proof (OpenKey_ok strPath true s Hc) as Hopen. cbv zeta in Hopen.
  destruct (OpenKey strPath true s) as [hKey s1]. cbn [fst snd] in Hopen.
  destruct Hopen as (Hc1 & Hcfg1 & Hhive & Hat & _ & Hex).
  destruct (Hex eq_refl) as [k Hk]. specialize (Hat k Hk).
  assert (Hv1 : forall q m, value_at q m (reg_hive (reg s1)) = value_at q m (reg_hive (reg s))).
  { intros q m. rewrite Hhive. destruct (_ && _); [apply value_at_create | reflexivity]. }
  assert (Hk1 : forall q, is_Some (find_key q (reg_hive (reg s))) ->
                          is_Some (find_key q (reg_hive (reg s1)))).
  { intros q [kq Hq]. rewrite Hhive. destruct (_ && _); [|eauto].
    destruct (find_key_create_some (key_of s strPath) q _ kq Hq) as [kq' Hq']. eauto. }
  assert (Hf1 : m_bCloseHandle (io s1) = false) by (rewrite (config_flag _ _ Hcfg1); exact Hf).
  destruct (decide (vn = [])) as [E|_]; [contradiction|].
  destruct (RegDeleteValue_value_at hKey vn (reg s1) _ _ Hat) as (Hh' & Hn' & Hsome & Hval).
  set (r := (RegDeleteValue hKey vn (reg s1)).2) in *.
  rewrite CloseKey_keep in * by exact Hf1.
  eexists. split; [reflexivity|]. cbn [io reg].
  assert (Hroot : forall p', key_of {| io := io s1; reg := r |} p' = key_of s p').
  { intros p'. apply (key_of_config {| io := io s1; reg := r |} s p'). exact Hcfg. }
  split; [|split; [|split; [|split]]].
  - destruct Hc1 as [Hc1 Hn1]. split; cbn [io reg].
    + intros p h Hp. destruct (Hc1 p h Hp) as (n & kp & -> & Hhn & Hkp).
      assert (Hs : is_Some (find_key (key_of s1 p) (reg_hive r))).
      { apply Hsome. rewrite Hkp. eauto. }
      destruct Hs as [kp' Hkp']. exists n, kp'. rewrite Hh'. auto.
    + intros n hi. rewrite Hh', Hn'. apply Hn1.
  - rewrite Hroot, Hval. destruct (decide _) as [_|Hn]; [reflexivity|].
    exfalso. apply Hn. auto.
  - intros other Hne. rewrite Hroot, Hval, Hv1.
    destruct (decide _) as [[H1 H2]|_]; [|reflexivity].
    exfalso. apply Hne. congruence.
  - apply Hsome. rewrite Hk. eauto.
  - intros q Hq. apply Hsome, Hk1, Hq.
Qed.

(** X9.  [Remove] of the name of a value, on a handler with sound cached
    handles that keeps them open and has no write under way: it returns
    [OPT_OK] whether or not there was a value to delete, afterwards the
    registry holds no value under the name and every value stored at
    another place is unchanged; no key is lost, and the key of the name
    exists afterwards even if it did not before, since it is opened with
    creation. *)
Theorem X9_remove_value :
  forall (name : String) (s : Sys),
    cache_ok s -> m_bCloseHandle (io s) = false -> m_dwQueueCount (io s) = 0 ->
    (SplitName name).2 <> [] ->
    exists s',
      Remove name s = Some (OPT_OK, s')
      /\ cache_ok s'
      /\ stored s' name = None
      /\ (forall other, location s other <> location s name ->
            stored s' other = stored s other)
      /\ is_Some (find_key (key_of s (SplitName name).1) (reg_hive (reg s')))
      /\ (forall q, is_Some (find_key q (reg_hive (reg s))) ->
                    is_Some (find_key q (reg_hive (reg s')))).
Proof. exact Remove_value_spec. Qed.

Lemma X9_remove_value_witness :
  let s := IOHandler_new example_root (fresh_registry example_hive) in
  exists s',
    Remove (_T "Settings/Width") s = Some (OPT_OK, s')
    /\ stored s' (_T "Settings/Width") = None
    /\ stored s' (_T "Settings/Name") = stored s (_T "Settings/Name").
Proof.
  intros s.
  destruct (X9_remove_value (_T "Settings/Width") s) as (s' & Hr & _ & Hgone & Hframe & _).
  - apply IOHandler_new_ok.
  - reflexivity.
  - reflexivity.
  - vm_compute. discriminate.
  - exists s'. split; [exact Hr|]. split; [exact Hgone|].
    apply Hframe. vm_compute. discriminate.
Defined.

(** X10.  [Remove] of a name with an empty value name (a key path
    followed by a slash), on a handler with sound cached handles that
    keeps them open and has no write under way: it returns [OPT_OK]; the
    key of the path is still there afterwards, but empty; every key
    strictly below it is gone; a name whose key is that key or a key
    below it has no value any more, and every other name has the value it
    had; no key outside is lost. *)
Theorem X10_remove_key :
  forall (name : String) (s : Sys),
    cache_ok s -> m_bCloseHandle (io s) = false -> m_dwQueueCount (io s) = 0 ->
    (SplitName name).2 = [] ->
    let p := key_of s (SplitName name).1 in
    exists s',
      Remove name s = Some (OPT_OK, s')
      /\ find_key p (reg_hive (reg s')) = Some empty_key
      /\ (forall q, strict_below p q = true -> find_key q (reg_hive (reg s')) = None)
      /\ (forall other,
            stored s' other =
              if is_prefix p (location s other).1 then None else stored s other)
      /\ (forall q, is_prefix p q = false ->
            is_Some (find_key q (reg_hive (reg s))) ->
            is_Some (find_key q (reg_hive (reg s')))).
Proof.
  intros name s Hc Hf Hzero Hvn. cbv zeta.
  unfold Remove, queue_is_empty. rewrite Hzero, Z.eqb_refl.
  pose proof (Remove_locked_config name s) as Hcfg.
  rewrite Remove_locked_eq in *. unfold stored, location.
  destruct (SplitName name) as [strPath vn]. cbn [fst snd] in *. subst vn.
  pose proof (OpenKey_ok strPath true s Hc) as Hopen. cbv zeta in Hopen.
  destruct (OpenKey strPath true s) as [hKey s1]. cbn [fst snd] in Hopen.
  destruct Hopen as (Hc1 & Hcfg1 & Hhive & Hat & _ & Hex).
  destruct (Hex eq_refl) as [k Hk]. specialize (Hat k Hk).
  assert (Hv1 : forall q m, value_at q m (reg_hive (reg s1)) = value_at q m (reg_hive (reg s))).
  { intros q m. rewrite Hhive. destruct (_ && _); [apply value_at_create | reflexivity]. }
  assert (Hk1 : forall q, is_Some (find_key q (reg_hive (reg s))) ->
                          is_Some (find_key q (reg_hive (reg s1)))).
  { intros q [kq Hq]. rewrite Hhive. destruct (_ && _); [|eauto].
    destruct (find_key_create_some (key_of s strPath) q _ kq Hq) as [kq' Hq']. eauto. }
  assert (Hf1 : m_bCloseHandle (io s1) = false) by (rewrite (config_flag _ _ Hcfg1); exact Hf).
  destruct (decide ([] = [])) as [_|E]; [|congruence].
  destruct (RegDeleteTree_value_at hKey (reg s1) _ _ Hat)
    as (_ & Hempty & Hbelow & Hother & Hval).
  set (r := (RegDeleteTree hKey (reg s1)).2) in *.
  rewrite CloseKey_keep in * by exact Hf1.
  eexists. split; [reflexivity|]. cbn [io reg].
  assert (Hroot : forall p', key_of {| io := io s1; reg := r |} p' = key_of s p').
  { intros p'. apply (key_of_config {| io := io s1; reg := r |} s p'). exact Hcfg. }
  split; [exact Hempty|]. split; [exact Hbelow|]. split.
  - intros other. rewrite Hroot, Hval, Hv1. reflexivity.
  - intros q Hq Hsome. apply Hother; [exact Hq|]. apply Hk1, Hsome.
Qed.

Lemma X10_remove_key_witness :
  let s := IOHandler_new example_root (fresh_registry example_hive) in
  exists s',
    Remove (_T "Settings/") s = Some (OPT_OK, s')
    /\ find_key (key_of s (_T "Settings")) (reg_hive (reg s')) = Some empty_key
    /\ stored s' (_T "Settings/Width") = None
    /\ stored s' (_T "Settings\Colors/Text") = None.
Proof.
  intros s.
  destruct (X10_remove_key (_T "Settings/") s) as (s' & Hr & Hkey & _ & Hval & _).
  - apply IOHandler_new_ok.
  - reflexivity.
  - reflexivity.
  - vm_compute. reflexivity.
  - exists s'. split; [exact Hr|]. split; [exact Hkey|].
    split; rewrite Hval; reflexivity.
Defined.

(* ------------------------------------------------------------------ *)
(** ** Cached handles of deleted keys *)

Lemma Sys_eta (s : Sys) : {| io := io s; reg := reg s |} = s.
Proof. destruct s; reflexivity. Qed.

Lemma SplitName_key (strPath : String) : SplitName (strPath ++ _T "/") = (strPath, []).
Proof.
  rewrite <- (app_nil_r (_T "/")). apply SplitName_join. reflexivity.
Qed.

(** The handle of a key below an emptied key is dead afterwards. *)
Lemma Remove_key_kills (P Q : String) (s : Sys) (h : HKEY) :
  cache_ok s -> m_bCloseHandle (io s) = false ->
  m_hKeys (io s) !! Q = Some h ->
  strict_below (key_of s P) (key_of s Q) = true ->
  let s1 := (Remove_locked (P ++ _T "/") s).2 in
  config s1 = config s
  /\ (forall vn, value_at (key_of s Q) vn (reg_hive (reg s1)) = None)
  /\ exists n, m_hKeys (io s1) !! Q = Some (Handle n)
               /\ resolve (Handle n) (reg s1) = inl ERROR_KEY_DELETED.
Proof.
  intros Hc Hf HQ Hbelow. cbv zeta.
  pose proof (Remove_locked_config (P ++ _T "/") s) as Hcfg.
  rewrite Remove_locked_eq in *. rewrite SplitName_key in *.
  pose proof (OpenKey_ok P true s Hc) as Hopen. cbv zeta in Hopen.
  pose proof (OpenKey_mono P Q true s h HQ) as HQ1.
  destruct (OpenKey P true s) as [hKey s1]. cbn [fst snd] in Hopen, HQ1.
  destruct Hopen as (Hc1 & Hcfg1 & _ & Hat & _ & Hex).
  destruct (Hex eq_refl) as [k Hk]. specialize (Hat k Hk).
  assert (Hf1 : m_bCloseHandle (io s1) = false) by (rewrite (config_flag _ _ Hcfg1); exact Hf).
  destruct (decide ([] = [])) as [_|E]; [|congruence].
  destruct (RegDeleteTree_value_at hKey (reg s1) _ _ Hat) as (Hh & _ & _ & _ & Hval).
  set (r := (RegDeleteTree hKey (reg s1)).2) in *. cbv zeta in Hcfg |- *.
  rewrite CloseKey_keep in * by exact Hf1. cbn [snd io reg] in Hcfg |- *.
  assert (Hpre : is_prefix (key_of s P) (key_of s Q) = true).
  { unfold strict_below in Hbelow. apply andb_true_iff in Hbelow as [H _]. exact H. }
  split; [exact Hcfg|]. split.
  - intros vn. rewrite Hval, Hpre. reflexivity.
  - destruct Hc1 as [Hc1 _]. destruct (Hc1 Q h HQ1) as (n & kq & -> & Hn & _).
    exists n. split; [exact HQ1|].
    unfold resolve. rewrite Hh, lookup_fmap, Hn. cbn [fmap option_fmap option_map].
    unfold kill_below. cbn [h_path].
    fold (key_of s1 Q). rewrite (key_of_config _ _ _ Hcfg1), Hbelow. reflexivity.
Qed.

(** X11.  Cached handles are not checked again.  On a handler with
    sound cached handles that keeps them open, let the handle of a key
    be cached and a key above it be emptied by the critical section of
    [Remove].  Then the write of the worker for a name in the lower key
    changes nothing at all: the cached handle designates a deleted key,
    the write fails, and the result of [SaveValueToReg] is not looked at.
    The registry holds no value under the name, and [Read] of the name
    does not report success. *)
Theorem X11_write_through_stale_handle :
  forall (sz : positive) (P Q vn : String) (value : VariantValue) (s : Sys) (h : HKEY),
    cache_ok s -> m_bCloseHandle (io s) = false ->
    m_hKeys (io s) !! Q = Some h ->
    strict_below (key_of s P) (key_of s Q) = true ->
    has_slash vn = false ->
    let s1 := (Remove_locked (P ++ _T "/") s).2 in
    let pParam := {| p_name := Q ++ _T "/" ++ vn; p_value := value |} in
    Worker_write sz pParam s1 = (tt, s1)
    /\ stored s1 (p_name pParam) = None
    /\ forall buf, (Read (p_name pParam) buf s1).1.1.1 <> ERROR_SUCCESS.
Proof.
  intros sz P Q vn value s h Hc Hf HQ Hbelow Hvn. cbv zeta.
  destruct (Remove_key_kills P Q s h Hc Hf HQ Hbelow) as (Hcfg & Hgone & n & Hn & Hdead).
  set (s1 := (Remove_locked (P ++ _T "/") s).2) in *.
  assert (Hf1 : m_bCloseHandle (io s1) = false) by (rewrite (config_flag _ _ Hcfg); exact Hf).
  assert (Hkey : forall A (x : A), key_at (Handle n) (reg s1) = inl ERROR_KEY_DELETED).
  { intros _ _. unfold key_at. rewrite Hdead. reflexivity. }
  cbn [p_name]. split; [|split].
  - rewrite Worker_write_eq. cbn [p_name p_value]. rewrite SplitName_join by exact Hvn.
    rewrite OpenKey_eq, Hn. rewrite SaveValueToReg_eq.
    destruct (encode_value sz value) as [[type data]|].
    + unfold RegSetValueEx. rewrite (Hkey unit tt). cbn [snd].
      rewrite Sys_eta, CloseKey_eq, Hf1. reflexivity.
    + cbn [snd]. rewrite CloseKey_eq, Hf1. reflexivity.
  - unfold stored. rewrite SplitName_join by exact Hvn. cbn [fst snd].
    rewrite (key_of_config _ _ _ Hcfg). apply Hgone.
  - intros buf. rewrite Read_eq, SplitName_join by exact Hvn.
    rewrite OpenKey_eq, Hn. cbn [fst].
    apply Read_query_missing. rewrite (Hkey unit tt). exact I.
Qed.

Lemma X11_write_through_stale_handle_witness :
  let s0 := IOHandler_new example_root (fresh_registry example_hive) in
  let s := (Read (_T "Settings\Colors/Text") [] s0).2 in
  let s1 := (Remove_locked (_T "Settings" ++ _T "/") s).2 in
  let pParam := {| p_name := _T "Settings\Colors" ++ _T "/" ++ _T "Text";
                   p_value := VInt 1 |} in
  Worker_write 2 pParam s1 = (tt, s1)
  /\ stored s1 (p_name pParam) = None
  /\ forall buf, (Read (p_name pParam) buf s1).1.1.1 <> ERROR_SUCCESS.
Proof.
  intros s0 s.
  assert (Hs0 : cache_ok s0 /\ m_bCloseHandle (io s0) = false)
    by (split; [apply IOHandler_new_ok | reflexivity]).
  destruct (Read_ok (_T "Settings\Colors/Text") [] s0 (proj1 Hs0) (proj2 Hs0))
    as (Hc & Hcfg & _).
  apply (X11_write_through_stale_handle 2 (_T "Settings") (_T "Settings\Colors") (_T "Text")
           (VInt 1) s (Handle 2)).
  - exact Hc.
  - exact (eq_trans (config_flag _ _ Hcfg) (proj2 Hs0)).
  - vm_compute. reflexivity.
  - vm_compute. reflexivity.
  - reflexivity.
Defined.

Lemma close_all_hive (m : gmap String HKEY) (r : Registry) :
  reg_hive (map_fold (fun _ hKey r => RegCloseKey hKey r) r m) = reg_hive r.
Proof.
  apply (map_fold_weak_ind (fun r' _ => reg_hive r' = reg_hive r)); [reflexivity|].
  intros p h m' r' _ IH. rewrite <- IH. destruct h; reflexivity.
Qed.

Lemma CloseKeys_hive (s : Sys) : reg_hive (reg (CloseKeys s).2) = reg_hive (reg s).
Proof. unfold CloseKeys. munfold. cbn [snd reg]. apply close_all_hive. Qed.

Lemma IOHandler_new_wf (path : String) (hive : RegKey) :
  cache_wf (IOHandler_new path (fresh_registry hive)).
Proof.
  destruct (IOHandler_new_ok path hive) as (_ & _ & _ & Hk0 & Hh0). split.
  - intros p h. rewrite Hk0, lookup_empty. discriminate.
  - intros n hi. rewrite Hh0, lookup_empty. discriminate.
Qed.

(** X12.  [CloseKeys] makes the handler sound again.  Whenever the cache
    and the open handles match (as they do in every state the handler
    reaches), after [CloseKeys] no handle is cached and none is open, the
    keys and values of the registry are what they were, and the next write
    of the worker is stored under its name, even if cached handles had
    come to designate deleted keys before. *)
Theorem X12_close_keys_recovers :
  forall (sz : positive) (s : Sys) (pParam : AsyncWriterThreadParams)
         (type : Z) (data : list BYTE),
    cache_wf s -> m_bCloseHandle (io s) = false ->
    encode_value sz (p_value pParam) = Some (type, data) ->
    let s' := (CloseKeys s).2 in
    reg_hive (reg s') = reg_hive (reg s)
    /\ m_hKeys (io s') = ∅ /\ reg_handles (reg s') = ∅
    /\ cache_ok s'
    /\ stored (Worker_write sz pParam s').2 (p_name pParam)
       = Some {| rv_type := type; rv_data := data |}.
Proof.
  intros sz s pParam type data Hwf Hf Henc. cbv zeta.
  destruct (CloseKeys_wf s Hwf) as (Hk & Hh & _).
  assert (Hc : cache_ok (CloseKeys s).2).
  { split.
    - intros p h. rewrite Hk, lookup_empty. discriminate.
    - intros n hi. rewrite Hh, lookup_empty. discriminate. }
  assert (Hf' : m_bCloseHandle (io (CloseKeys s).2) = false)
    by (rewrite (config_flag _ _ (CloseKeys_config s)); exact Hf).
  split; [apply CloseKeys_hive|]. split; [exact Hk|]. split; [exact Hh|].
  split; [exact Hc|].
  destruct (Worker_write_spec sz pParam _ Hc Hf') as (_ & Hcfg & _ & _ & Hval).
  rewrite Henc in Hval.
  rewrite stored_location, (location_config _ _ _ Hcfg), Hval.
  destruct (decide _) as [_|Hn]; [reflexivity | exfalso; apply Hn; auto].
Qed.

Lemma X12_close_keys_recovers_witness :
  let s0 := IOHandler_new example_root (fresh_registry example_hive) in
  let s := (Read (_T "Settings\Colors/Text") [] s0).2 in
  let s1 := (Remove_locked (_T "Settings/") s).2 in
  let pParam := {| p_name := _T "Settings\Colors/Text"; p_value := VInt 1 |} in
  stored (Worker_write 2 pParam s1).2 (_T "Settings\Colors/Text") = None
  /\ stored (Worker_write 2 pParam (CloseKeys s1).2).2 (_T "Settings\Colors/Text")
     = Some {| rv_type := REG_DWORD; rv_data := [1; 0; 0; 0] |}.
Proof.
  intros s0 s s1 pParam.
  assert (Hf0 : m_bCloseHandle (io s0) = false) by reflexivity.
  destruct (Read_wf (_T "Settings\Colors/Text") [] s0 Hf0 (IOHandler_new_wf _ _)) as [Hwf _].
  assert (Hf : m_bCloseHandle (io s) = false) by reflexivity.
  destruct (Remove_locked_wf (_T "Settings/") s Hf Hwf) as [Hwf1 _].
  assert (Hf1 : m_bCloseHandle (io s1) = false) by reflexivity.
  destruct (X12_close_keys_recovers 2 s1 pParam REG_DWORD [1; 0; 0; 0] Hwf1 Hf1 eq_refl)
    as (_ & _ & _ & _ & Hst).
  split; [vm_compute; reflexivity | exact Hst].
Defined.

(* ------------------------------------------------------------------ *)
(** ** The root path and the keys of the options *)

Lemma split_path_aux_sep (r b : String) :
  forall cur,
    split_path_aux cur (r ++ chr_backslash :: b) =
      split_path_aux cur (r ++ [chr_backslash]) ++ split_path_aux [] b.
Proof.
  induction r as [|x r IH]; intros cur.
  - cbn [app split_path_aux]. rewrite Z.eqb_refl.
    destruct cur; [reflexivity|]. reflexivity.
  - cbn [app split_path_aux]. destruct (x =? chr_backslash).
    + destruct cur; [apply IH|]. rewrite IH. reflexivity.
    + apply IH.
Qed.



(** With a root that ends in a backslash the keys of the options are the
    keys below the root key. *)
Lemma key_of_below_root (s : Sys) (r : String) (cs : list String) :
  m_registryRoot (io s) = r ++ [chr_backslash] ->
  Forall (fun n => wf_key_name n = true) cs ->
  key_of s (join_path cs) = split_path (m_registryRoot (io s)) ++ cs.
Proof.
  intros Hroot Hcs. unfold key_of, split_path. rewrite Hroot, <- app_assoc.
  cbn [app]. rewrite split_path_aux_sep, (split_path_aux_join cs Hcs).
  destruct cs; reflexivity.
Qed.



(* ------------------------------------------------------------------ *)
(** ** The names of the export *)

Lemma assoc_find_NoDup {A} (n : String) (a : A) (l : list (String * A)) :
  NoDup (map fst l) -> (n, a) ∈ l -> assoc_find n l = Some a.
Proof.
  induction l as [|[m b] l IH]; intros Hnd Hin; [inversion Hin|].
  cbn [map fst] in Hnd. apply NoDup_cons in Hnd as [Hnot Hnd].
  cbn [assoc_find]. apply elem_of_cons in Hin as [Heq|Hin].
  - injection Heq as -> ->. destruct (decide (m = m)); [reflexivity | congruence].
  - destruct (decide (m = n)) as [->|Hne]; [|apply IH; assumption].
    exfalso. apply Hnot. apply list_elem_of_fmap. exists (n, a). auto.
Qed.

Lemma find_key_app (p q : list String) (k : RegKey) :
  find_key (p ++ q) k =
    match find_key p k with
    | Some k' => find_key q k'
    | None => None
    end.
Proof.
  revert k. induction p as [|c p IH]; intros k; [reflexivity|].
  cbn [app find_key]. destruct (assoc_find c (key_subkeys k)); [apply IH | reflexivity].
Qed.

(** Below a key with well-formed, unique names every name of the export
    leads back to the value it stands for. *)
Lemma key_entries_resolve (hive : RegKey) (base : list String) (k : RegKey) :
  wf_tree k = true -> unique_names k = true ->
  forall comps name v,
    Forall (fun n => wf_key_name n = true) comps ->
    find_key (base ++ comps) hive = Some k ->
    (name, v) ∈ key_entries k (join_path comps) ->
    exists comps' vn,
      Forall (fun n => wf_key_name n = true) comps'
      /\ has_slash vn = false
      /\ name = join_path comps' ++ _T "/" ++ vn
      /\ value_at (base ++ comps') vn hive = Some v.
Proof.
  induction k as [values subkeys IH] using RegKey_subkeys_ind.
  intros Hwf Hun comps name v Hcomps Hfind Hin.
  cbn [wf_tree] in Hwf. apply andb_true_iff in Hwf as [Hvals Hsubs].
  cbn [unique_names] in Hun. apply andb_true_iff in Hun as [Hun Hunsub].
  apply andb_true_iff in Hun as [Hndv Hnds].
  apply bool_decide_eq_true in Hndv, Hnds.
  cbn [key_entries] in Hin. apply elem_of_app in Hin as [Hin|Hin].
  - apply list_elem_of_fmap in Hin as ([vn v'] & Heq & Hin). cbn [fst snd] in Heq.
    injection Heq as -> ->. exists comps, vn. split; [exact Hcomps|].
    split; [|split; [reflexivity|]].
    + rewrite forallb_forall in Hvals.
      pose proof (Hvals _ (proj1 (list_elem_of_In _ _) Hin)) as Hv. cbn [fst] in Hv.
      apply negb_true_iff in Hv. exact Hv.
    + unfold value_at. rewrite Hfind. cbn [key_values].
      apply assoc_find_NoDup; assumption.
  - apply list_elem_of_In, in_flat_map in Hin as ([sn sk] & Hsub & Hin).
    cbn [fst snd] in Hin. apply list_elem_of_In in Hin.
    rewrite forallb_forall in Hsubs, Hunsub.
    pose proof (Hsubs _ Hsub) as Hw. cbn [fst snd] in Hw.
    apply andb_true_iff in Hw as [Hname Hwk].
    pose proof (Hunsub _ Hsub) as Huk. cbn [snd] in Huk.
    rewrite <- (join_path_snoc comps sn Hcomps) in Hin.
    rewrite Forall_forall in IH.
    apply (IH (sn, sk) (proj2 (list_elem_of_In _ _) Hsub) Hwk Huk (comps ++ [sn]) name v);
      [| |exact Hin].
    + apply Forall_app. split; [exact Hcomps|]. constructor; [exact Hname | constructor].
    + rewrite app_assoc, find_key_app, Hfind. cbn [find_key key_subkeys].
      rewrite (assoc_find_NoDup sn sk subkeys Hnds (proj2 (list_elem_of_In _ _) Hsub)).
      reflexivity.
Qed.

(** A name of the export designates the value it was made for. *)
Lemma export_name_stored :
  forall (s : Sys) (r : String) (k : RegKey) (name : String) (v : RegValue),
    m_registryRoot (io s) = r ++ [chr_backslash] ->
    find_key (split_path (m_registryRoot (io s))) (reg_hive (reg s)) = Some k ->
    wf_tree k = true -> unique_names k = true ->
    (name, v) ∈ key_entries k [] ->
    stored s name = Some v.
Proof.
  intros s r k name v Hroot Hfind Hwf Hun Hin.
  destruct (key_entries_resolve (reg_hive (reg s)) (split_path (m_registryRoot (io s))) k
              Hwf Hun [] name v (List.Forall_nil _))
    as (cs & vn & Hcs & Hvn & -> & Hval).
  - rewrite app_nil_r. exact Hfind.
  - exact Hin.
  - unfold stored. rewrite SplitName_join by exact Hvn. cbn [fst snd].
    rewrite (key_of_below_root s r cs Hroot Hcs). exact Hval.
Qed.

(** X14.  What the export writes can be read back by name.  Let the root
    end in a backslash, let the names below the root key be well formed
    (key names not empty and without backslash, value names without
    slash) and unique, and let the cached handles of the handler be sound
    and kept open.  Then every name that [ExportAllUnloadedValues] has
    written into an empty file is absent from the option table, and
    [Read] of that name on the same registry reports [ERROR_SUCCESS] and
    returns the type and the data of a value of which the text and the
    type name of the file under that name are the exported form. *)
Theorem X14_export_names_resolve :
  forall (sz : positive) (optionsMap : OptionsMap) (s : Sys) (r : String) (k : RegKey)
         (code : OptResult) (file : IniFile) (name text : String) (buf : list BYTE),
    m_registryRoot (io s) = r ++ [chr_backslash] ->
    find_key (split_path (m_registryRoot (io s))) (reg_hive (reg s)) = Some k ->
    wf_tree k = true -> unique_names k = true ->
    cache_ok s -> m_bCloseHandle (io s) = false ->
    ExportAllUnloadedValues sz optionsMap ∅ s = (code, file) ->
    ini_section file (_T "WinMerge") !! name = Some text ->
    optionsMap !! name = None
    /\ exists v tag buf',
         ini_section file (_T "WinMerge.TypeInfo") !! name = Some tag
         /\ exported_as sz v text tag
         /\ (Read name buf s).1 = (ERROR_SUCCESS, buf', rv_type v)
         /\ take (length (rv_data v)) buf' = rv_data v.
Proof.
  intros sz optionsMap s r k code file name text buf Hroot Hk Hwf Hun Hc Hf Hex Hname.
  destruct (Export_names sz optionsMap s code file Hex name text Hname)
    as (Hm & k' & v & tag & Hk' & Hin & Htag & Has).
  rewrite Hk in Hk'. injection Hk' as <-.
  pose proof (export_name_stored s r k name v Hroot Hk Hwf Hun Hin) as Hst.
  destruct (Read_ok name buf s Hc Hf) as (_ & _ & _ & _ & Hsome).
  destruct (Hsome v Hst) as (buf' & Hread & Hdata).
  split; [exact Hm|]. exists v, tag, buf'. auto.
Qed.

Lemma X14_export_names_resolve_witness :
  let s := IOHandler_new example_root (fresh_registry example_hive) in
  let file := (ExportAllUnloadedValues 2 ∅ ∅ s).2 in
  exists v tag buf',
    ini_section file (_T "WinMerge.TypeInfo") !! (_T "Settings\Colors/Text") = Some tag
    /\ exported_as 2 v (_T "7") tag
    /\ (Read (_T "Settings\Colors/Text") [] s).1 = (ERROR_SUCCESS, buf', rv_type v)
    /\ take (length (rv_data v)) buf' = rv_data v.
Proof.
  intros s file.
  apply (X14_export_names_resolve 2 ∅ s (_T "Software\Thingamahoochie\WinMerge")
           (MkKey [] [(_T "Settings", example_settings)]) OPT_OK file
           (_T "Settings\Colors/Text") (_T "7") []).
  - vm_compute. reflexivity.
  - vm_compute. reflexivity.
  - vm_compute. reflexivity.
  - vm_compute. reflexivity.
  - apply IOHandler_new_ok.
  - reflexivity.
  - vm_compute. reflexivity.
  - vm_compute. reflexivity.
Defined.

(* ------------------------------------------------------------------ *)
(** ** When the export succeeds *)

Lemma export_values_ok (sz : positive) (values : list (String * RegValue)) (strPath : String)
  (optionsMap : OptionsMap) :
  forallb (fun e => Z.of_nat (length (rv_data e.2)) <? 2 ^ 31) values = true ->
  forall data file,
    (export_values sz values strPath optionsMap data file).1 = Some tt
    <-> forallb (fun e => Z.of_nat (length e.1) <? MAX_PATH) values = true.
Proof.
  induction values as [|entry values IH]; intros Hsmall data file.
  - cbn. tauto.
  - cbn [forallb] in Hsmall. apply andb_true_iff in Hsmall as [Hneed Hsmall].
    apply Z.ltb_lt in Hneed. specialize (IH Hsmall).
    cbn [export_values forallb]. unfold RegEnumValue.
    destruct (Z.ltb_spec (Z.of_nat (length entry.1)) MAX_PATH) as [Hshort|Hlong].
    + replace (MAX_PATH <=? Z.of_nat (length entry.1)) with false
        by (symmetry; apply Z.leb_gt; exact Hshort).
      cbn [orb andb].
      destruct (_ <? Z.of_nat (length (rv_data entry.2))) eqn:Efirst.
      * destruct (decide (ERROR_MORE_DATA = ERROR_MORE_DATA)); [|congruence].
        replace (to_DWORD (Z.of_nat (length (rv_data entry.2)) * 2)
                 <? Z.of_nat (length (rv_data entry.2))) with false.
        2:{ symmetry. apply Z.ltb_ge. rewrite to_DWORD_small by lia. lia. }
        destruct (decide (ERROR_SUCCESS = ERROR_SUCCESS)); [|congruence]. apply IH.
      * destruct (decide (ERROR_SUCCESS = ERROR_MORE_DATA)) as [E|_]; [discriminate E|].
        destruct (decide (ERROR_SUCCESS = ERROR_SUCCESS)); [|congruence]. apply IH.
    + replace (MAX_PATH <=? Z.of_nat (length entry.1)) with true
        by (symmetry; apply Z.leb_le; exact Hlong).
      cbn [orb andb].
      destruct (decide (ERROR_MORE_DATA = ERROR_MORE_DATA)); [|congruence].
      destruct (decide (ERROR_MORE_DATA = ERROR_SUCCESS)) as [E|_]; [discriminate E|].
      destruct (decide (ERROR_MORE_DATA = ERROR_NO_MORE_ITEMS)) as [E|_]; [discriminate E|].
      cbn [fst]. split; discriminate.
Qed.

Lemma export_subkeys_ok (recurse : RegKey -> String -> IniFile -> OptResult * IniFile)
  (strPath : String) (subkeys : list (String * RegKey)) :
  Forall (fun sub => forall p f, (recurse sub.2 p f).1 = OPT_OK <-> short_names sub.2 = true)
         subkeys ->
  forall file,
    (export_subkeys recurse strPath subkeys file).1 = OPT_OK
    <-> forallb (fun sub => (Z.of_nat (length sub.1) <? MAX_PATH) && short_names sub.2)
          subkeys = true.
Proof.
  induction 1 as [|sub subkeys Hsub Hrest IH]; intros file.
  - cbn. tauto.
  - cbn [export_subkeys forallb].
    destruct (Z.ltb_spec (Z.of_nat (length sub.1)) MAX_PATH) as [Hshort|Hlong].
    + replace (MAX_PATH <=? Z.of_nat (length sub.1)) with false
        by (symmetry; apply Z.leb_gt; exact Hshort).
      cbn [andb]. specialize (Hsub (if decide (strPath = []) then sub.1
                                    else strPath ++ _T "\" ++ sub.1) file).
      destruct (recurse sub.2 _ file) as [retVal file']. cbn [fst] in Hsub.
      destruct (decide (retVal <> OPT_OK)) as [Hne|Heq].
      * cbn [fst]. split; [intros E; contradiction|].
        intros E. apply andb_true_iff in E as [E _]. apply Hsub in E. contradiction.
      * assert (retVal = OPT_OK) as ->
          by (destruct (decide (retVal = OPT_OK)); [assumption | contradiction]).
        rewrite (proj1 Hsub eq_refl). cbn [andb]. apply IH.
    + replace (MAX_PATH <=? Z.of_nat (length sub.1)) with true
        by (symmetry; apply Z.leb_le; exact Hlong).
      cbn [fst andb]. split; discriminate.
Qed.

Lemma export_key_ok (sz : positive) (optionsMap : OptionsMap) (k : RegKey) :
  small_data k = true ->
  forall strPath file,
    (ExportAllUnloadedValues_key sz k strPath optionsMap file).1 = OPT_OK
    <-> short_names k = true.
Proof.
  induction k as [values subkeys IH] using RegKey_subkeys_ind.
  intros Hsmall strPath file. cbn [small_data] in Hsmall.
  apply andb_true_iff in Hsmall as [Hvals Hsubs].
  cbn [ExportAllUnloadedValues_key short_names].
  pose proof (export_values_ok sz values strPath optionsMap Hvals
                (replicate (Z.to_nat MAX_PATH) 0) file) as Hv.
  destruct (export_values sz values strPath optionsMap _ file) as [[[]|] file1];
    cbn [fst] in Hv.
  - rewrite (proj1 Hv eq_refl). cbn [andb].
    apply export_subkeys_ok. rewrite Forall_forall in IH |- *.
    intros sub Hin p f. apply IH; [exact Hin|].
    rewrite forallb_forall in Hsubs. apply Hsubs, list_elem_of_In, Hin.
  - cbn [fst]. split; [discriminate|].
    intros E. apply andb_true_iff in E as [E _]. apply Hv in E. discriminate E.
Qed.

(** X15.  When no value below the root key has 2^31 bytes of data or
    more, [ExportAllUnloadedValues] returns [OPT_OK] exactly when the root
    key can be opened and every value name and every key name below it is
    shorter than [MAX_PATH] characters; with one longer name anywhere
    below the root key it returns an error, whatever the option table. *)
Theorem X15_export_succeeds_iff :
  forall (sz : positive) (optionsMap : OptionsMap) (file : IniFile) (s : Sys),
    (forall k, find_key (split_path (m_registryRoot (io s))) (reg_hive (reg s)) = Some k ->
               small_data k = true) ->
    (ExportAllUnloadedValues sz optionsMap file s).1 = OPT_OK
    <-> exists k,
          find_key (split_path (m_registryRoot (io s))) (reg_hive (reg s)) = Some k
          /\ short_names k = true.
Proof.
  intros sz optionsMap file s Hsmall. unfold ExportAllUnloadedValues.
  destruct (find_key _ _) as [k|].
  - rewrite (export_key_ok sz optionsMap k (Hsmall k eq_refl)). split.
    + intros H. exists k. auto.
    + intros (k' & Hk & H). injection Hk as <-. exact H.
  - cbn [fst]. split; [discriminate|]. intros (k & Hk & _). discriminate Hk.
Qed.

Lemma X15_export_succeeds_iff_witness :
  let s := IOHandler_new example_root (fresh_registry example_hive) in
  (ExportAllUnloadedValues 2 ∅ ∅ s).1 = OPT_OK.
Proof.
  intros s. apply (X15_export_succeeds_iff 2 ∅ ∅ s).
  - intros k Hk. vm_compute in Hk. injection Hk as <-. vm_compute. reflexivity.
  - eexists. split; vm_compute; reflexivity.
Defined.

(* ------------------------------------------------------------------ *)
(** ** The order of the writes *)

Lemma fifo_inv (sz : positive) (limit : nat) (tr : list Event) :
  forall w w',
    run sz limit tr w = Some w' ->
    taken w ++ w_queue w ++ posted_params (pending_of w) tr
    = applied_params sz limit tr w ++ taken w' ++ w_queue w'.
Proof.
  induction tr as [|e tr IH]; intros w w' Hrun.
  - cbn in Hrun. injection Hrun as <-. cbn [posted_params applied_params app].
    rewrite app_nil_r. reflexivity.
  - cbn [run] in Hrun. cbn [applied_params].
    destruct (step sz limit e w) as [w1|] eqn:Hstep; [|discriminate].
    specialize (IH w1 w' Hrun). revert IH.
    destruct w as [s q c wk]. unfold taken, pending_of.
    cbn [w_sys w_queue w_caller w_worker] in *.
    step_cases Hstep; unfold with_caller, with_worker, with_queue, with_io, with_sys;
      cbn [w_sys w_queue w_caller w_worker posted_params app];
      intros IH; rewrite <- ?IH, <- ?app_assoc; try reflexivity.
    all: try (destruct wk; cbn [app]; rewrite <- ?IH; reflexivity).
Qed.

(** X16.  The worker applies the writes in the order in which they were
    posted, none twice and none skipped: in every run from the
    construction of the handler, the writes posted so far are the writes
    applied so far, followed by the message the worker holds and has not
    applied yet, followed by the queue.  Hence whenever
    [WaitForQueueFlush] can return, every write posted has been applied. *)
Theorem X16_writes_applied_in_order :
  forall (sz : positive) (limit : nat) (path : String) (r : Registry)
         (tr : list Event) (w : World),
    run sz limit tr (World_new path r) = Some w ->
    posted_params None tr
    = applied_params sz limit tr (World_new path r) ++ taken w ++ w_queue w
    /\ (Z.of_nat limit + 2 < 2 ^ 32 ->
        forall w', step sz limit E_Flush_return w = Some w' ->
                   applied_params sz limit tr (World_new path r) = posted_params None tr).
Proof.
  intros sz limit path r tr w Hrun.
  pose proof (fifo_inv sz limit tr _ _ Hrun) as H.
  cbn [World_new taken pending_of w_worker w_queue w_caller app] in H.
  split; [exact H|].
  intros Hlim w' Hstep. rewrite H.
  pose proof (run_inv sz limit tr _ _ Hlim (World_new_inv limit path r) Hrun)
    as (Hcount & _).
  destruct w as [s q c wk]. unfold in_flight, taken in *.
  cbn [w_sys w_queue w_caller w_worker] in *.
  step_cases Hstep.
  match goal with
  | E : queue_is_empty _ = true |- _ => unfold queue_is_empty in E; apply Z.eqb_eq in E;
                                        rewrite E in Hcount
  end.
  destruct q; [|cbn [length] in Hcount; lia].
  destruct wk; [|lia..]. rewrite !app_nil_r. reflexivity.
Qed.

Lemma X16_writes_applied_in_order_witness :
  let p1 := {| p_name := _T "Settings/Width"; p_value := VInt 1 |} in
  let p2 := {| p_name := _T "Settings/Width"; p_value := VInt 2 |} in
  let tr := [E_WriteAsync_inc p1; E_WriteAsync_posted; E_WriteAsync_inc p2;
             E_Worker_get; E_WriteAsync_posted; E_Worker_apply; E_Worker_done;
             E_Flush_call; E_Flush_spin; E_Worker_get; E_Worker_apply; E_Worker_done] in
  applied_params 2 4 tr (World_new example_root (fresh_registry example_hive)) = [p1; p2].
Proof.
  intros p1 p2 tr.
  set (W0 := World_new example_root (fresh_registry example_hive)).
  assert (Hrun : exists w, run 2 4 tr W0 = Some w
                           /\ exists w', step 2 4 E_Flush_return w = Some w').
  { eexists. split; [vm_compute; reflexivity|]. eexists. vm_compute. reflexivity. }
  destruct Hrun as (w & Hrun & w' & Hstep).
  destruct (X16_writes_applied_in_order 2 4 example_root (fresh_registry example_hive) tr w Hrun)
    as [_ H].
  exact (H ltac:(vm_compute; reflexivity) w' Hstep).
Defined.

(* ------------------------------------------------------------------ *)
(** ** Write, flush, read *)

Lemma with_count_self (s : Sys) : with_count (m_dwQueueCount (io s)) s = s.
Proof. destruct s as [[root flag keys count] r]. reflexivity. Qed.

Lemma Worker_write_count (sz : positive) (pParam : AsyncWriterThreadParams) (c : Z) (s : Sys) :
  (Worker_write sz pParam (with_count c s)).2 = with_count c (Worker_write sz pParam s).2.
Proof.
  rewrite !Worker_write_eq. destruct (SplitName (p_name pParam)) as [strPath vn].
  rewrite !OpenKey_eq. cbn [with_count io reg set_QueueCount m_hKeys m_registryRoot].
  destruct (m_hKeys (io s) !! strPath) as [hKey|].
  - rewrite !SaveValueToReg_eq. cbn [with_count io reg].
    destruct (encode_value sz _) as [[type data]|].
    + destruct (RegSetValueEx _ _ _ _ _) as [code r]. cbn [snd].
      rewrite !CloseKey_eq. cbn [io m_bCloseHandle set_QueueCount].
      destruct (m_bCloseHandle (io s)); reflexivity.
    + cbn [snd]. rewrite !CloseKey_eq. cbn [with_count io m_bCloseHandle set_QueueCount].
      destruct (m_bCloseHandle (io s)); reflexivity.
  - destruct (RegCreateKeyEx _ _ _) as [[retValReg hKey] r].
    destruct (decide _).
    + rewrite !SaveValueToReg_eq. cbn [io reg].
      destruct (encode_value sz _) as [[type data]|].
      * destruct (RegSetValueEx _ _ _ _ _) as [code r']. cbn [snd].
        rewrite !CloseKey_eq. cbn [io m_bCloseHandle set_QueueCount].
        destruct (m_bCloseHandle (io s)); reflexivity.
      * cbn [snd]. rewrite !CloseKey_eq. cbn [io m_bCloseHandle set_QueueCount].
        destruct (m_bCloseHandle (io s)); reflexivity.
    + rewrite !SaveValueToReg_eq. cbn [io reg].
      destruct (encode_value sz _) as [[type data]|].
      * destruct (RegSetValueEx _ _ _ _ _) as [code r']. cbn [snd].
        rewrite !CloseKey_eq. cbn [io m_bCloseHandle set_QueueCount with_hKeys].
        destruct (m_bCloseHandle (io s)); reflexivity.
      * cbn [snd]. rewrite !CloseKey_eq.
        cbn [io m_bCloseHandle set_QueueCount with_hKeys].
        destruct (m_bCloseHandle (io s)); reflexivity.
Qed.

Lemma settle_count (sz : positive) (l : list AsyncWriterThreadParams) (c : Z) :
  forall s, settle sz l (with_count c s) = with_count c (settle sz l s).
Proof.
  induction l as [|pParam l IH]; intros s; [reflexivity|].
  unfold settle in *. cbn [fold_left]. rewrite Worker_write_count. apply IH.
Qed.

Lemma settle_sound (sz : positive) (l : list AsyncWriterThreadParams) :
  forall s, cache_ok s -> m_bCloseHandle (io s) = false ->
    cache_ok (settle sz l s) /\ config (settle sz l s) = config s.
Proof.
  induction l as [|pParam l IH]; intros s Hc Hf; [split; [exact Hc | reflexivity]|].
  unfold settle in *. cbn [fold_left].
  destruct (Worker_write_spec sz pParam s Hc Hf) as (Hc1 & Hcfg1 & _).
  destruct (IH _ Hc1 (eq_trans (config_flag _ _ Hcfg1) Hf)) as [Hc2 Hcfg2].
  split; [exact Hc2 | congruence].
Qed.

(** A quiet step leaves the handler that the writes still to be applied
    lead to as it is, up to the counter. *)
Lemma quiet_step (sz : positive) (limit : nat) (e : Event) (w w' : World) :
  step sz limit e w = Some w' -> is_quiet e = true ->
  exists c, settle sz (awaiting w') (w_sys w') = with_count c (settle sz (awaiting w) (w_sys w)).
Proof.
  intros Hstep Hq. destruct w as [s q c wk]. unfold awaiting, taken, pending_of.
  cbn [w_sys w_queue w_caller w_worker] in *.
  step_cases Hstep; try discriminate Hq;
    unfold with_caller, with_worker, with_queue, with_io, with_sys;
    cbn [w_sys w_queue w_caller w_worker app io reg].
  all: try (eexists; rewrite ?app_nil_r, <- ?app_assoc; symmetry; apply with_count_self).
  eexists. unfold InterlockedDecrement.
  change {| io := set_QueueCount ?c0 (io s); reg := reg s |} with (with_count c0 s).
  apply settle_count.
Qed.

Lemma quiet_run (sz : positive) (limit : nat) (tr : list Event) :
  Forall (fun e => is_quiet e = true) tr ->
  forall w w', run sz limit tr w = Some w' ->
    exists c, settle sz (awaiting w') (w_sys w')
              = with_count c (settle sz (awaiting w) (w_sys w)).
Proof.
  induction 1 as [|e tr He Htr IH]; intros w w' Hrun.
  - cbn in Hrun. injection Hrun as <-. eexists. symmetry. apply with_count_self.
  - cbn [run] in Hrun. destruct (step sz limit e w) as [w1|] eqn:Hstep; [|discriminate].
    destruct (quiet_step sz limit e w w1 Hstep He) as [c1 H1].
    destruct (IH w1 w' Hrun) as [c2 H2].
    exists c2. rewrite H2, H1. reflexivity.
Qed.

(** A write that is posted and flushed is in the registry. *)
Lemma write_flush_read :
  forall (sz : positive) (limit : nat) (path : String) (hive : RegKey)
         (tr1 tr2 : list Event) (w1 w2 : World) (pParam : AsyncWriterThreadParams)
         (type : Z) (data buf : list BYTE),
    Z.of_nat limit + 2 < 2 ^ 32 ->
    run sz limit tr1 (World_new path (fresh_registry hive)) = Some w1 ->
    cache_ok (w_sys w1) ->
    Forall (fun e => is_quiet e = true) tr2 ->
    run sz limit (E_WriteAsync_inc pParam :: tr2 ++ [E_Flush_return]) w1 = Some w2 ->
    encode_value sz (p_value pParam) = Some (type, data) ->
    w_caller w2 = Idle /\ w_queue w2 = [] /\ w_worker w2 = Worker_idle
    /\ cache_ok (w_sys w2)
    /\ stored (w_sys w2) (p_name pParam) = Some {| rv_type := type; rv_data := data |}
    /\ exists buf',
         (Read (p_name pParam) buf (w_sys w2)).1 = (ERROR_SUCCESS, buf', type)
         /\ take (length data) buf' = data.
Proof.
  intros sz limit path hive tr1 tr2 w1 w2 pParam type data buf Hlim Hrun1 Hc1 Hq Hrun Henc.
  pose proof (run_inv sz limit tr1 _ _ Hlim (World_new_inv limit path _) Hrun1) as Hinv1.
  cbn [run] in Hrun.
  destruct (step sz limit (E_WriteAsync_inc pParam) w1) as [wa|] eqn:Hinc; [|discriminate].
  apply run_snoc in Hrun as (w3 & Hrun2 & Hret).
  pose proof (step_inv sz limit _ _ _ Hlim Hinv1 Hinc) as Hinva.
  pose proof (run_inv sz limit tr2 _ _ Hlim Hinva Hrun2) as Hinv3.
  destruct (quiet_run sz limit tr2 Hq wa w3 Hrun2) as [c Hsettle].
  (* the state after the increment *)
  assert (Ha : awaiting wa = (taken w1 ++ w_queue w1) ++ [pParam]
               /\ exists c0, w_sys wa = with_count c0 (w_sys w1)).
  { destruct w1 as [s q cl wk]. unfold awaiting, taken, pending_of.
    cbn [w_sys w_queue w_caller w_worker] in *.
    step_cases Hinc. unfold with_caller, with_io, with_sys.
    cbn [w_sys w_queue w_caller w_worker]. split; [rewrite <- app_assoc; reflexivity|].
    eexists. reflexivity. }
  destruct Ha as [Haw (c0 & Hsa)].
  (* the state when the flush returns *)
  assert (H3 : awaiting w3 = [] /\ w_sys w2 = w_sys w3 /\ w_caller w2 = Idle
               /\ w_queue w2 = [] /\ w_worker w2 = Worker_idle).
  { destruct Hinv3 as (Hcount & _).
    destruct w3 as [s q cl wk]. unfold awaiting, taken, pending_of, in_flight in *.
    cbn [w_sys w_queue w_caller w_worker] in *.
    step_cases Hret.
    match goal with
    | E : queue_is_empty _ = true |- _ => unfold queue_is_empty in E; apply Z.eqb_eq in E;
                                          rewrite E in Hcount
    end.
    destruct q; [|cbn [length] in Hcount; lia].
    destruct wk; [|lia..]. unfold with_caller. cbn. auto. }
  destruct H3 as (Haw3 & Hsys & Hidle & Hqueue & Hworker).
  rewrite Haw3, Haw, Hsa in Hsettle. unfold settle in Hsettle.
  cbn [fold_left] in Hsettle. rewrite fold_left_app in Hsettle. cbn [fold_left] in Hsettle.
  fold (settle sz (taken w1 ++ w_queue w1) (with_count c0 (w_sys w1))) in Hsettle.
  set (mid := settle sz (taken w1 ++ w_queue w1) (with_count c0 (w_sys w1))) in *.
  assert (Hf1 : m_bCloseHandle (io (w_sys w1)) = false) by (apply Hinv1).
  destruct (settle_sound sz (taken w1 ++ w_queue w1) (with_count c0 (w_sys w1)) Hc1 Hf1)
    as [Hcm Hcfgm].
  fold mid in Hcm, Hcfgm.
  assert (Hfm : m_bCloseHandle (io mid) = false)
    by (rewrite (config_flag _ _ Hcfgm); exact Hf1).
  destruct (Worker_write_spec sz pParam mid Hcm Hfm) as (Hc' & Hcfg' & _ & _ & Hval).
  rewrite Henc in Hval.
  assert (Hst : stored (with_count c (Worker_write sz pParam mid).2) (p_name pParam)
                = Some {| rv_type := type; rv_data := data |}).
  { change (stored (with_count c (Worker_write sz pParam mid).2) (p_name pParam))
      with (stored (Worker_write sz pParam mid).2 (p_name pParam)).
    rewrite stored_location, (location_config _ _ _ Hcfg'), Hval.
    destruct (decide _) as [_|Hn]; [reflexivity | exfalso; apply Hn; auto]. }
  rewrite Hsys, Hsettle.
  assert (Hcf : cache_ok (with_count c (Worker_write sz pParam mid).2)) by exact Hc'.
  split; [exact Hidle|]. split; [exact Hqueue|]. split; [exact Hworker|].
  split; [exact Hcf|]. split; [exact Hst|].
  assert (Hff : m_bCloseHandle (io (with_count c (Worker_write sz pParam mid).2)) = false)
    by (exact (eq_trans (config_flag _ _ Hcfg') Hfm)).
  destruct (Read_ok (p_name pParam) buf _ Hcf Hff) as (_ & _ & _ & _ & Hfound).
  destruct (Hfound _ Hst) as (buf' & Hres & Htake). exists buf'. auto.
Qed.

(** X17.  Write, flush, read.  From any state the handler has reached
    in which its cached handles are sound, let [WriteAsync] be called for
    a value that has a registry encoding, the post succeed, and
    [WaitForQueueFlush] be called and return, the worker taking its steps
    in between in any order.  Then, whatever writes were still under way
    before, the registry holds under the name exactly the encoding of the
    value, [Read] of the name returns it, and the cached handles are
    still sound. *)
Theorem X17_write_flush_read :
  forall (sz : positive) (limit : nat) (path : String) (hive : RegKey)
         (tr1 tr2 : list Event) (w1 w2 : World) (pParam : AsyncWriterThreadParams)
         (type : Z) (data buf : list BYTE),
    Z.of_nat limit + 2 < 2 ^ 32 ->
    run sz limit tr1 (World_new path (fresh_registry hive)) = Some w1 ->
    cache_ok (w_sys w1) ->
    Forall (fun e => is_quiet e = true) tr2 ->
    run sz limit (E_WriteAsync_inc pParam :: tr2 ++ [E_Flush_return]) w1 = Some w2 ->
    encode_value sz (p_value pParam) = Some (type, data) ->
    w_caller w2 = Idle /\ w_queue w2 = [] /\ w_worker w2 = Worker_idle
    /\ cache_ok (w_sys w2)
    /\ stored (w_sys w2) (p_name pParam) = Some {| rv_type := type; rv_data := data |}
    /\ exists buf',
         (Read (p_name pParam) buf (w_sys w2)).1 = (ERROR_SUCCESS, buf', type)
         /\ take (length data) buf' = data.
Proof. exact write_flush_read. Qed.

Lemma X17_write_flush_read_witness :
  let W0 := World_new example_root (fresh_registry example_hive) in
  let pParam := {| p_name := _T "Settings/Width"; p_value := VInt 640 |} in
  let tr2 := [E_WriteAsync_posted; E_Flush_call; E_Flush_spin; E_Worker_get;
              E_Worker_apply; E_Flush_spin; E_Worker_done] in
  exists w2,
    run 2 4 (E_WriteAsync_inc pParam :: tr2 ++ [E_Flush_return]) W0 = Some w2
    /\ stored (w_sys w2) (_T "Settings/Width")
       = Some {| rv_type := REG_DWORD; rv_data := le_bytes 4 640 |}.
Proof.
  intros W0 pParam tr2.
  assert (Hrun : exists w2,
             run 2 4 (E_WriteAsync_inc pParam :: tr2 ++ [E_Flush_return]) W0 = Some w2)
    by (eexists; vm_compute; reflexivity).
  destruct Hrun as [w2 Hrun]. exists w2. split; [exact Hrun|].
  destruct (X17_write_flush_read 2 4 example_root example_hive [] tr2 W0 w2 pParam
              REG_DWORD (le_bytes 4 640) []) as (_ & _ & _ & _ & Hst & _).
  - vm_compute. reflexivity.
  - reflexivity.
  - apply IOHandler_new_ok.
  - repeat constructor.
  - exact Hrun.
  - reflexivity.
  - exact Hst.
Defined.

(* ------------------------------------------------------------------ *)
(** ** Saving an option *)

Lemma SaveOption_value_request (name : String) (value : VariantValue)
  (this this' : CRegOptionsMgr) (retVal : OptResult) (pParam : AsyncWriterThreadParams) :
  SaveOption_value name value this = (retVal, this', Some pParam) ->
  retVal = OPT_OK /\ m_serializing this = true
  /\ (Set_ name value (m_optionsMap this)).1 = OPT_OK
  /\ m_optionsMap this' = (Set_ name value (m_optionsMap this)).2
  /\ pParam = {| p_name := name; p_value := Get name (m_optionsMap this') |}
  /\ GetType (Get name (m_optionsMap this')) <> VT_NULL.
Proof.
  unfold SaveOption_value.
  destruct (Set_ name value (m_optionsMap this)) as [rc m].
  destruct (decide (rc = OPT_OK)) as [->|_]; [|discriminate].
  unfold SaveOption. cbn [with_map m_serializing m_optionsMap].
  destruct (m_serializing this); cbn [negb]; [|discriminate].
  destruct (decide (GetType (Get name m) = VT_NULL)) as [E|Hn].
  - destruct (decide (OPT_NOTFOUND = OPT_OK)); discriminate.
  - destruct (decide (OPT_OK = OPT_OK)); [|congruence].
    intros H. injection H as <- <- <-. cbn [with_map m_optionsMap fst snd].
    repeat split; try reflexivity. exact Hn.
Qed.

(** X18.  An option that is saved and flushed is found again later.
    Let [SaveOption(name, value)] return [OPT_OK] and call [WriteAsync],
    for a value the registry encoding keeps in full; let the post succeed
    and [WaitForQueueFlush] return, the worker running in between in any
    order, from a reached state whose cached handles are sound (the queue
    taking fewer than 2^32 - 2 messages).  Then the option table
    holds the value, and for a manager that starts later with an empty
    option table on the handler as it is then, [InitOption] of the name
    with a default value of the same type returns [OPT_OK] and yields the
    value saved, not the default. *)
Theorem X18_saved_option_survives :
  forall (sz : positive) (limit : nat) (path : String) (hive : RegKey)
         (tr1 tr2 : list Event) (w1 w2 : World) (name : String)
         (value defaultValue : VariantValue) (this this' : CRegOptionsMgr)
         (pParam : AsyncWriterThreadParams),
    Z.of_nat limit + 2 < 2 ^ 32 ->
    run sz limit tr1 (World_new path (fresh_registry hive)) = Some w1 ->
    cache_ok (w_sys w1) ->
    SaveOption_value name value this = (OPT_OK, this', Some pParam) ->
    Forall (fun e => is_quiet e = true) tr2 ->
    run sz limit (E_WriteAsync_inc pParam :: tr2 ++ [E_Flush_return]) w1 = Some w2 ->
    storable sz value ->
    GetType defaultValue = GetType value ->
    Get name (m_optionsMap this') = value
    /\ let later := {| m_serializing := true; m_optionsMap := ∅;
                       m_pIOHandler := w_sys w2 |} in
       let res := InitOption sz name defaultValue later in
       res.1 = OPT_OK /\ Get name (m_optionsMap res.2) = value.
Proof.
  intros sz limit path hive tr1 tr2 w1 w2 name value defaultValue this this' pParam
         Hlim Hrun1 Hc1 Hsave Hq Hrun Hst Hty.
  destruct (SaveOption_value_request _ _ _ _ _ _ Hsave) as (_ & _ & Hset & Hm & Hp & _).
  assert (Hget : Get name (m_optionsMap this') = value).
  { rewrite Hm. unfold Set_ in *. destruct (m_optionsMap this !! name) as [old|];
      [|discriminate Hset].
    destruct (decide _); [|discriminate Hset].
    cbn [snd]. unfold Get. rewrite lookup_insert_eq. reflexivity. }
  split; [exact Hget|]. rewrite Hget in Hp. subst pParam.
  destruct (storable_encodes sz value Hst) as (type & data & Henc).
  destruct (write_flush_read sz limit path hive tr1 tr2 w1 w2 _ type data []
              Hlim Hrun1 Hc1 Hq Hrun Henc) as (_ & _ & _ & Hc2 & Hstored & _).
  cbn [p_name] in Hstored.
  assert (Hrun' : run sz limit
                    (tr1 ++ E_WriteAsync_inc {| p_name := name; p_value := value |}
                         :: tr2 ++ [E_Flush_return])
                    (World_new path (fresh_registry hive)) = Some w2).
  { rewrite run_app, Hrun1. exact Hrun. }
  pose proof (run_inv sz limit _ _ _ Hlim (World_new_inv limit path _) Hrun')
    as (_ & _ & Hf2 & _).
  cbv zeta.
  destruct (InitOption_restores sz name value defaultValue
              {| m_serializing := true; m_optionsMap := ∅; m_pIOHandler := w_sys w2 |}
              type data eq_refl Hc2 Hf2 Hst Hty Henc Hstored) as (H1 & H2 & _).
  split; [exact H1 | exact H2].
Qed.

Lemma X18_saved_option_survives_witness :
  let W0 := World_new example_root (fresh_registry example_hive) in
  let this := {| m_serializing := true;
                 m_optionsMap := {[ _T "Settings/Width" := VInt 250 ]};
                 m_pIOHandler := w_sys W0 |} in
  let pParam := {| p_name := _T "Settings/Width"; p_value := VInt 640 |} in
  let tr2 := [E_WriteAsync_posted; E_Worker_get; E_Worker_apply; E_Worker_done;
              E_Flush_call] in
  exists this' w2,
    SaveOption_value (_T "Settings/Width") (VInt 640) this = (OPT_OK, this', Some pParam)
    /\ run 2 4 (E_WriteAsync_inc pParam :: tr2 ++ [E_Flush_return]) W0 = Some w2
    /\ let later := {| m_serializing := true; m_optionsMap := ∅;
                       m_pIOHandler := w_sys w2 |} in
       let res := InitOption 2 (_T "Settings/Width") (VInt 0) later in
       res.1 = OPT_OK /\ Get (_T "Settings/Width") (m_optionsMap res.2) = VInt 640.
Proof.
  intros W0 this pParam tr2.
  assert (Hsave : exists this',
             SaveOption_value (_T "Settings/Width") (VInt 640) this
             = (OPT_OK, this', Some pParam))
    by (eexists; vm_compute; reflexivity).
  assert (Hrun : exists w2,
             run 2 4 (E_WriteAsync_inc pParam :: tr2 ++ [E_Flush_return]) W0 = Some w2)
    by (eexists; vm_compute; reflexivity).
  destruct Hsave as [this' Hsave]. destruct Hrun as [w2 Hrun].
  exists this', w2. split; [exact Hsave|]. split; [exact Hrun|].
  destruct (X18_saved_option_survives 2 4 example_root example_hive [] tr2 W0 w2
              (_T "Settings/Width") (VInt 640) (VInt 0) this this' pParam) as [_ H].
  - vm_compute. reflexivity.
  - reflexivity.
  - apply IOHandler_new_ok.
  - exact Hsave.
  - repeat constructor.
  - exact Hrun.
  - cbn. lia.
  - reflexivity.
  - exact H.
Defined.

(* ------------------------------------------------------------------ *)
(** ** Export and import of a well-formed registry *)

(** X19.  Export, then import, for a registry with well-formed names.
    Let the file be what [ExportAllUnloadedValues] wrote into an empty
    file from a root key below which key names are not empty and hold no
    backslash and value names hold no slash.  Then for any handler with
    sound cached handles that keeps them open, whatever its root,
    [ImportAllUnloadedValues] returns [OPT_OK] and stores under every name
    of the file that is not in its option table exactly the encoding of
    the value exported under that name, with the type of the registry
    value it was exported from. *)
Theorem X19_round_trip_well_formed :
  forall (sz : positive) (exportMap optionsMap : OptionsMap) (src dst : Sys)
         (code : OptResult) (file : IniFile),
    ExportAllUnloadedValues sz exportMap ∅ src = (code, file) ->
    (forall k, find_key (split_path (m_registryRoot (io src))) (reg_hive (reg src)) = Some k ->
               wf_tree k = true) ->
    cache_ok dst -> m_bCloseHandle (io dst) = false ->
    let res := ImportAllUnloadedValues sz file optionsMap dst in
    res.1 = OPT_OK
    /\ forall name text,
         ini_section file (_T "WinMerge") !! name = Some text ->
         optionsMap !! name = None ->
         exists k v value data,
           find_key (split_path (m_registryRoot (io src))) (reg_hive (reg src)) = Some k
           /\ (name, v) ∈ key_entries k []
           /\ exported_value sz v value
           /\ text_codec sz value
              = Some (text, default [] (ini_section file (_T "WinMerge.TypeInfo") !! name))
           /\ encode_value sz value = Some (rv_type v, data)
           /\ stored res.2 name = Some {| rv_type := rv_type v; rv_data := data |}.
Proof.
  intros sz exportMap optionsMap src dst code file Hex Hwf Hc Hf. cbv zeta.
  pose proof (wf_tree_distinct_places sz exportMap src dst code file Hex Hwf) as Hinj.
  destruct (Import_spec sz file optionsMap dst Hc Hf Hinj) as (Hok & _ & _ & Hown & _).
  split; [exact Hok|]. intros name text Hname Hnone.
  destruct (Export_names sz exportMap src code file Hex name text Hname)
    as (_ & k & v & tag & Hk & Hin & Htag & Has).
  destruct (exported_as_value sz v text tag Has) as (value & Hval & Hcodec).
  destruct (import_exported sz v value text tag Hval Hcodec) as (Himp & data & Henc & _).
  exists k, v, value, data.
  split; [exact Hk|]. split; [exact Hin|]. split; [exact Hval|].
  split; [rewrite Htag; exact Hcodec|]. split; [exact Henc|].
  rewrite (Hown name text Hname). unfold import_write.
  assert (Ht : ReadIniFile sz file (_T "WinMerge.TypeInfo") !! name
               = Some (UnescapeValue sz tag)).
  { unfold ini_section in Htag. unfold ReadIniFile.
    rewrite lookup_fmap, Htag. reflexivity. }
  rewrite Ht.
  change (default [] (Some (UnescapeValue sz tag))) with (UnescapeValue sz tag).
  destruct (decide _) as [_|Hn]; [|exfalso; apply Hn; split; [exact Hnone | discriminate]].
  rewrite Himp, Henc. reflexivity.
Qed.

Lemma X19_round_trip_well_formed_witness :
  let src := IOHandler_new example_root (fresh_registry example_hive) in
  let file := (ExportAllUnloadedValues 2 ∅ ∅ src).2 in
  let dst := IOHandler_new (_T "Other\") (fresh_registry empty_key) in
  let res := ImportAllUnloadedValues 2 file ∅ dst in
  res.1 = OPT_OK
  /\ exists v value data,
       text_codec 2 value = Some (_T "250", _T "int")
       /\ encode_value 2 value = Some (rv_type v, data)
       /\ stored res.2 (_T "Settings/Width") = Some {| rv_type := rv_type v; rv_data := data |}.
Proof.
  intros src file dst res.
  destruct (X19_round_trip_well_formed 2 ∅ ∅ src dst OPT_OK file) as [Hok H].
  - vm_compute. reflexivity.
  - intros k Hk. vm_compute in Hk. injection Hk as <-. vm_compute. reflexivity.
  - apply IOHandler_new_ok.
  - reflexivity.
  - split; [exact Hok|].
    destruct (H (_T "Settings/Width") (_T "250"))
      as (k & v & value & data & _ & _ & _ & Hcodec & Henc & Hst).
    + vm_compute. reflexivity.
    + reflexivity.
    + exists v, value, data. split; [|split; [exact Henc | exact Hst]].
      rewrite Hcodec. vm_compute. reflexivity.
Defined.

(* ------------------------------------------------------------------ *)
(** ** What the import creates *)

(** On a sound cache the import of an entry it takes up is the write of
    the worker for the value made from the entry. *)
Lemma import_entry_write (sz : positive) (optionsMap : OptionsMap)
  (types : gmap String String) (key strValue : String) (s : Sys) :
  cache_ok s ->
  optionsMap !! key = None -> types !! key <> None ->
  (import_entry sz optionsMap types key strValue s).2
  = (Worker_write sz {| p_name := key;
                        p_value := import_value (default [] (types !! key)) strValue |} s).2.
Proof.
  intros Hc Hm Ht. rewrite import_entry_eq, Worker_write_eq. cbn [p_name p_value].
  destruct (decide _) as [_|Hn]; [|exfalso; apply Hn; auto].
  destruct (SplitName key) as [strPath vn].
  pose proof (OpenKey_ok strPath true s Hc) as Hopen. cbv zeta in Hopen.
  destruct (OpenKey strPath true s) as [hKey s1]. cbn [fst snd] in Hopen.
  destruct Hopen as (_ & _ & _ & Hat & _ & Hex).
  destruct (Hex eq_refl) as [k Hk]. specialize (Hat k Hk).
  destruct (decide (hKey <> nullptr)) as [_|Hh]; [reflexivity|].
  destruct hKey; try (exfalso; apply Hh; discriminate); try discriminate Hat.
Qed.

Lemma import_entries_keys (sz : positive) (optionsMap : OptionsMap)
  (types : gmap String String) (entries : list (String * String)) :
  forall s : Sys,
    cache_ok s -> m_bCloseHandle (io s) = false ->
    let s' := (import_entries sz optionsMap types entries s).2 in
    cache_ok s' /\ config s' = config s
    /\ (forall q, is_Some (find_key q (reg_hive (reg s))) ->
                  is_Some (find_key q (reg_hive (reg s'))))
    /\ forall key text,
         (key, text) ∈ entries -> optionsMap !! key = None -> types !! key <> None ->
         is_Some (find_key (key_of s (SplitName key).1) (reg_hive (reg s'))).
Proof.
  induction entries as [|[key0 text0] rest IH]; intros s Hc Hf; cbv zeta.
  - cbn [import_entries ret snd]. split; [exact Hc|]. split; [reflexivity|].
    split; [auto|]. intros key text Hin. inversion Hin.
  - cbn [import_entries]. rewrite bind_snd.
    assert (H1 : let s1 := (import_entry sz optionsMap types key0 text0 s).2 in
                 cache_ok s1 /\ config s1 = config s
                 /\ (forall q, is_Some (find_key q (reg_hive (reg s))) ->
                               is_Some (find_key q (reg_hive (reg s1))))
                 /\ (optionsMap !! key0 = None -> types !! key0 <> None ->
                     is_Some (find_key (key_of s (SplitName key0).1) (reg_hive (reg s1))))).
    { cbv zeta.
      destruct (decide (optionsMap !! key0 = None /\ types !! key0 <> None)) as [[Hm Ht]|Hn].
      - rewrite (import_entry_write sz optionsMap types key0 text0 s Hc Hm Ht).
        destruct (Worker_write_spec sz
                    {| p_name := key0;
                       p_value := import_value (default [] (types !! key0)) text0 |} s Hc Hf)
          as (Hc1 & Hcfg1 & Hkey & Hkeep & _).
        cbn [p_name] in Hkey. auto.
      - rewrite import_entry_eq. destruct (decide _) as [E|_]; [contradiction|].
        cbn [snd]. split; [exact Hc|]. split; [reflexivity|]. split; [auto|].
        intros Hm Ht. exfalso. apply Hn. auto. }
    cbv zeta in H1. destruct H1 as (Hc1 & Hcfg1 & Hkeep1 & Hkey1).
    set (s1 := (import_entry sz optionsMap types key0 text0 s).2) in *.
    assert (Hf1 : m_bCloseHandle (io s1) = false) by (rewrite (config_flag _ _ Hcfg1); exact Hf).
    destruct (IH s1 Hc1 Hf1) as (Hc2 & Hcfg2 & Hkeep2 & Hkey2).
    split; [exact Hc2|]. split; [congruence|]. split; [auto|].
    intros key text Hin Hm Ht. apply elem_of_cons in Hin as [Heq|Hin].
    + injection Heq as -> ->. apply Hkeep2, Hkey1; assumption.
    + rewrite <- (key_of_config _ _ _ Hcfg1). apply (Hkey2 key text Hin Hm Ht).
Qed.

(** X20.  What the import leaves behind.  On a handler with sound
    cached handles that keeps them open, [ImportAllUnloadedValues] removes
    no key, and for every entry of the file that is not in the option
    table and has a type name the key of the entry exists afterwards: it
    is opened with creation before the type name is looked at.  When the
    type name is none of bool, int and string no value is written for
    the entry, so that (the names of the file being stored at pairwise
    distinct places) the registry holds under its name what it held
    before, possibly in a key that is new and empty. *)
Theorem X20_import_creates_keys :
  forall (sz : positive) (file : IniFile) (optionsMap : OptionsMap) (dst : Sys),
    cache_ok dst -> m_bCloseHandle (io dst) = false ->
    let values := ini_section file (_T "WinMerge") in
    let types := ini_section file (_T "WinMerge.TypeInfo") in
    let res := ImportAllUnloadedValues sz file optionsMap dst in
    (forall q, is_Some (find_key q (reg_hive (reg dst))) ->
               is_Some (find_key q (reg_hive (reg res.2))))
    /\ (forall name, is_Some (values !! name) -> optionsMap !! name = None ->
                     is_Some (types !! name) ->
          is_Some (find_key (key_of dst (SplitName name).1) (reg_hive (reg res.2))))
    /\ ((forall n1 n2, is_Some (values !! n1) -> is_Some (values !! n2) ->
           location dst n1 = location dst n2 -> n1 = n2) ->
        forall name tag,
          is_Some (values !! name) -> types !! name = Some tag ->
          tcsicmp_eq (UnescapeValue sz tag) (_T "bool") = false ->
          tcsicmp_eq (UnescapeValue sz tag) (_T "int") = false ->
          tcsicmp_eq (UnescapeValue sz tag) (_T "string") = false ->
          stored res.2 name = stored dst name).
Proof.
  intros sz file optionsMap dst Hc Hf. cbv zeta.
  assert (Hres : (ImportAllUnloadedValues sz file optionsMap dst).2
                 = (import_entries sz optionsMap (ReadIniFile sz file (_T "WinMerge.TypeInfo"))
                      (map_entries (ReadIniFile sz file (_T "WinMerge"))) dst).2).
  { unfold ImportAllUnloadedValues. rewrite bind_snd. reflexivity. }
  destruct (import_entries_keys sz optionsMap (ReadIniFile sz file (_T "WinMerge.TypeInfo"))
              (map_entries (ReadIniFile sz file (_T "WinMerge"))) dst Hc Hf)
    as (_ & _ & Hkeep & Hkey).
  rewrite <- Hres in Hkeep, Hkey.
  split; [exact Hkeep|]. split.
  - intros name [text Hv] Hm [tag Ht].
    apply (Hkey name (UnescapeValue sz text)); [|exact Hm|].
    + apply map_entries_elem. unfold ReadIniFile. unfold ini_section in Hv.
      rewrite lookup_fmap, Hv. reflexivity.
    + unfold ReadIniFile. unfold ini_section in Ht. rewrite lookup_fmap, Ht. discriminate.
  - intros Hinj name tag [text Hv] Ht Hb Hi Hs.
    destruct (Import_spec sz file optionsMap dst Hc Hf Hinj) as (_ & _ & _ & Hown & _).
    rewrite (Hown name text Hv). unfold import_write.
    destruct (decide _) as [_|_]; [|reflexivity].
    assert (Htag : ReadIniFile sz file (_T "WinMerge.TypeInfo") !! name
                   = Some (UnescapeValue sz tag)).
    { unfold ReadIniFile. unfold ini_section in Ht. rewrite lookup_fmap, Ht. reflexivity. }
    rewrite Htag.
    change (default [] (Some (UnescapeValue sz tag))) with (UnescapeValue sz tag).
    unfold import_value. rewrite Hb, Hi, Hs. reflexivity.
Qed.

Lemma X20_import_creates_keys_witness :
  let file : IniFile :=
    {[ _T "WinMerge" := {[ _T "Fonts/Size" := _T "9" ]};
       _T "WinMerge.TypeInfo" := {[ _T "Fonts/Size" := _T "float" ]} ]} in
  let dst := IOHandler_new example_root (fresh_registry example_hive) in
  let res := ImportAllUnloadedValues 2 file ∅ dst in
  find_key (key_of dst (_T "Fonts")) (reg_hive (reg dst)) = None
  /\ is_Some (find_key (key_of dst (_T "Fonts")) (reg_hive (reg res.2)))
  /\ stored res.2 (_T "Fonts/Size") = None.
Proof.
  intros file dst res.
  destruct (X20_import_creates_keys 2 file ∅ dst) as (_ & Hkey & Hunknown).
  - apply IOHandler_new_ok.
  - reflexivity.
  - split; [vm_compute; reflexivity|]. split.
    + apply (Hkey (_T "Fonts/Size")); [vm_compute; eauto | reflexivity | vm_compute; eauto].
    + rewrite (Hunknown) with (tag := _T "float"); try (vm_compute; reflexivity).
      * intros n1 n2 [t1 H1] [t2 H2] _.
        assert (E : forall n t, ini_section file (_T "WinMerge") !! n = Some t ->
                                n = _T "Fonts/Size").
        { intros n t H. unfold ini_section, file in H.
          rewrite lookup_insert_eq in H. cbn [default from_option id] in H.
          apply lookup_singleton_Some in H. symmetry. apply H. }
        rewrite (E _ _ H1), (E _ _ H2). reflexivity.
      * vm_compute. eauto.
Defined.

(* ------------------------------------------------------------------ *)
(** ** The default of an option *)

(** [InitOption] where the registry has nothing to offer. *)
Lemma InitOption_default :
  forall (sz : positive) (name : String) (defaultValue : VariantValue)
         (this : CRegOptionsMgr),
    let res := InitOption sz name defaultValue this in
    (GetType defaultValue = VT_NULL -> res = (OPT_ERR, this))
    /\ (GetType defaultValue <> VT_NULL -> m_serializing this = false ->
        res = (OPT_OK, with_map (<[name := defaultValue]> (m_optionsMap this)) this))
    /\ (GetType defaultValue <> VT_NULL -> m_serializing this = true ->
        cache_ok (m_pIOHandler this) -> m_bCloseHandle (io (m_pIOHandler this)) = false ->
        (stored (m_pIOHandler this) name = None ->
           res.1 = OPT_OK /\ Get name (m_optionsMap res.2) = defaultValue)
        /\ (forall v, stored (m_pIOHandler this) name = Some v ->
              ~ (rv_type v = REG_SZ /\ GetType defaultValue = VT_STRING) ->
              ~ (rv_type v = REG_DWORD
                 /\ (GetType defaultValue = VT_INT \/ GetType defaultValue = VT_BOOL)) ->
              res.1 = OPT_WRONG_TYPE /\ Get name (m_optionsMap res.2) = defaultValue)).
Proof.
  intros sz name defaultValue this. cbv zeta. unfold InitOption, AddOption.
  destruct (decide (GetType defaultValue = VT_NULL)) as [Hnull|Hnn].
  - split; [reflexivity|]. split; intros H; contradiction.
  - split; [intros H; contradiction|]. split.
    + intros _ Hser. rewrite Hser. reflexivity.
    + intros _ Hser Hc Hf. rewrite Hser. cbn [negb].
      destruct (decide (OPT_OK = OPT_OK)); [|congruence].
      cbn [with_map m_pIOHandler m_optionsMap m_serializing].
      destruct (Read_ok name (replicate 256 0) _ Hc Hf) as (_ & _ & _ & Hnone & Hsome).
      destruct (Read name (replicate 256 0) (m_pIOHandler this))
        as [[[retValReg dataBuf] type] s1]. cbn [fst] in Hnone, Hsome.
      split.
      * intros Hst. specialize (Hnone Hst).
        destruct (decide (retValReg = ERROR_SUCCESS)) as [E|_]; [contradiction|].
        cbn [fst snd with_handler with_map m_optionsMap]. split; [reflexivity|].
        unfold Get. rewrite lookup_insert_eq. reflexivity.
      * intros v Hst Hsz Hdw. destruct (Hsome v Hst) as (buf' & Hres & _).
        injection Hres as -> -> ->.
        destruct (decide (ERROR_SUCCESS = ERROR_SUCCESS)); [|congruence].
        unfold LoadValueFromBuf.
        destruct (decide (rv_type v = REG_SZ /\ _)) as [E|_]; [contradiction|].
        assert (Hget : Get name (<[name := defaultValue]> (m_optionsMap this)) = defaultValue)
          by (unfold Get; rewrite lookup_insert_eq; reflexivity).
        destruct (decide (rv_type v = REG_DWORD)) as [E|_];
          [|cbn [fst snd with_map m_optionsMap]; auto].
        destruct (decide (GetType defaultValue = VT_INT)) as [E1|_];
          [exfalso; apply Hdw; auto|].
        destruct (decide (GetType defaultValue = VT_BOOL)) as [E1|_];
          [exfalso; apply Hdw; auto|].
        cbn [fst snd with_map m_optionsMap]. auto.
Qed.

(** X22.  The default of an option, for every type.  [InitOption] with
    a Null default returns [OPT_ERR] and changes nothing.  With another
    default, on a manager that does not serialize, it enters the default
    in the option table and does not touch the handler.  On a serializing
    manager whose handler has sound cached handles and keeps them open:
    when the registry holds no value under the name it returns [OPT_OK]
    and the option has the default; when the registry holds a value whose
    type does not go with the type of the default (anything but [REG_SZ]
    for a string, anything but [REG_DWORD] for an [int] or a [bool]) it
    returns [OPT_WRONG_TYPE] and the option has the default. *)
Theorem X22_init_option_default :
  forall (sz : positive) (name : String) (defaultValue : VariantValue)
         (this : CRegOptionsMgr),
    let res := InitOption sz name defaultValue this in
    (GetType defaultValue = VT_NULL -> res = (OPT_ERR, this))
    /\ (GetType defaultValue <> VT_NULL -> m_serializing this = false ->
        res = (OPT_OK, with_map (<[name := defaultValue]> (m_optionsMap this)) this))
    /\ (GetType defaultValue <> VT_NULL -> m_serializing this = true ->
        cache_ok (m_pIOHandler this) -> m_bCloseHandle (io (m_pIOHandler this)) = false ->
        (stored (m_pIOHandler this) name = None ->
           res.1 = OPT_OK /\ Get name (m_optionsMap res.2) = defaultValue)
        /\ (forall v, stored (m_pIOHandler this) name = Some v ->
              ~ (rv_type v = REG_SZ /\ GetType defaultValue = VT_STRING) ->
              ~ (rv_type v = REG_DWORD
                 /\ (GetType defaultValue = VT_INT \/ GetType defaultValue = VT_BOOL)) ->
              res.1 = OPT_WRONG_TYPE /\ Get name (m_optionsMap res.2) = defaultValue)).
Proof. exact InitOption_default. Qed.

Lemma X22_init_option_default_witness :
  let this := CRegOptionsMgr_new example_root (fresh_registry example_hive) in
  let res := InitOption 2 (_T "Settings/Width") (VString (_T "wide")) this in
  res.1 = OPT_WRONG_TYPE
  /\ Get (_T "Settings/Width") (m_optionsMap res.2) = VString (_T "wide").
Proof.
  intros this res.
  destruct (X22_init_option_default 2 (_T "Settings/Width") (VString (_T "wide")) this)
    as (_ & _ & H).
  destruct H as [_ H]; [discriminate | reflexivity | apply IOHandler_new_ok | reflexivity |].
  apply (H {| rv_type := REG_DWORD; rv_data := [250; 0; 0; 0] |}).
  - vm_compute. reflexivity.
  - intros [E _]. discriminate E.
  - intros [_ [E|E]]; discriminate E.
Defined.

(* ------------------------------------------------------------------ *)
(** ** Removing an option *)

(** X23.  An option that is removed does not come back.  On a
    serializing manager whose handler has sound cached handles, keeps
    them open and has no write under way, [RemoveOption] of the name of a
    value (the value name not empty) returns; afterwards the name is
    neither in the option table nor in the registry, and [InitOption] of
    the name with a default value that is not Null returns [OPT_OK] and
    yields that default value. *)
Theorem X23_removed_option_gets_default :
  forall (sz : positive) (name : String) (defaultValue : VariantValue)
         (this : CRegOptionsMgr),
    m_serializing this = true ->
    cache_ok (m_pIOHandler this) ->
    m_bCloseHandle (io (m_pIOHandler this)) = false ->
    m_dwQueueCount (io (m_pIOHandler this)) = 0 ->
    (SplitName name).2 <> [] ->
    GetType defaultValue <> VT_NULL ->
    exists retVal this',
      RemoveOption name this = Some (retVal, this')
      /\ m_optionsMap this' !! name = None
      /\ stored (m_pIOHandler this') name = None
      /\ (InitOption sz name defaultValue this').1 = OPT_OK
      /\ Get name (m_optionsMap (InitOption sz name defaultValue this').2) = defaultValue.
Proof.
  intros sz name defaultValue this Hser Hc Hf Hzero Hvn Hnn.
  destruct (Remove_value_spec name (m_pIOHandler this) Hc Hf Hzero Hvn)
    as (s' & Hrem & Hc' & Hgone & _).
  assert (Hf' : m_bCloseHandle (io s') = false).
  { pose proof (Remove_locked_config name (m_pIOHandler this)) as Hcfg.
    unfold Remove in Hrem. destruct (queue_is_empty _); [|discriminate].
    injection Hrem as Hrem. rewrite Hrem in Hcfg. cbn [snd] in Hcfg.
    exact (eq_trans (config_flag _ _ Hcfg) Hf). }
  unfold RemoveOption, RemoveOption_table.
  destruct (SplitName name) as [strPath vn]. cbn [snd] in Hvn.
  destruct (decide (vn <> [])) as [_|E]; [|contradiction].
  assert (Htable : exists rc m, COptionsMgr_RemoveOption name (m_optionsMap this) = (rc, m)
                                /\ m !! name = None).
  { unfold COptionsMgr_RemoveOption. destruct (m_optionsMap this !! name) eqn:E.
    - eexists _, _. split; [reflexivity | apply lookup_delete_eq].
    - eexists _, _. split; [reflexivity | exact E]. }
  destruct Htable as (rc & m & -> & Hm).
  cbn [with_map m_pIOHandler]. rewrite Hrem.
  eexists _, _. split; [reflexivity|].
  cbn [with_handler with_map m_optionsMap m_pIOHandler].
  split; [exact Hm|]. split; [exact Hgone|].
  destruct (InitOption_default sz name defaultValue
              {| m_serializing := m_serializing this; m_optionsMap := m;
                 m_pIOHandler := s' |}) as (_ & _ & H).
  destruct (H Hnn Hser Hc' Hf') as [H0 _]. exact (H0 Hgone).
Qed.

Lemma X23_removed_option_gets_default_witness :
  let this := {| m_serializing := true;
                 m_optionsMap := {[ _T "Settings/Width" := VInt 250 ]};
                 m_pIOHandler := IOHandler_new example_root (fresh_registry example_hive) |} in
  exists retVal this',
    RemoveOption (_T "Settings/Width") this = Some (retVal, this')
    /\ m_optionsMap this' !! (_T "Settings/Width") = None
    /\ stored (m_pIOHandler this') (_T "Settings/Width") = None
    /\ (InitOption 2 (_T "Settings/Width") (VInt 100) this').1 = OPT_OK
    /\ Get (_T "Settings/Width") (m_optionsMap (InitOption 2 (_T "Settings/Width") (VInt 100) this').2)
       = VInt 100.
Proof.
  intros this.
  apply (X23_removed_option_gets_default 2 (_T "Settings/Width") (VInt 100) this).
  - reflexivity.
  - apply IOHandler_new_ok.
  - reflexivity.
  - reflexivity.
  - vm_compute. discriminate.
  - discriminate.
Defined.

(* ------------------------------------------------------------------ *)
(** ** Reading while a write is queued *)

Lemma Read_count (name : String) (buf : list BYTE) (c : Z) (s : Sys) :
  (Read name buf (with_count c s)).1 = (Read name buf s).1.
Proof.
  rewrite !Read_eq. destruct (SplitName name) as [strPath vn].
  rewrite !OpenKey_eq. cbn [with_count io reg set_QueueCount m_hKeys m_registryRoot].
  destruct (m_hKeys (io s) !! strPath) as [hKey|]; [reflexivity|].
  destruct (RegOpenKeyEx _ _ _) as [[retValReg hKey] r].
  destruct (decide _); reflexivity.
Qed.

(** X24.  [Read] does not wait for the queue.  Once [WriteAsync] has
    counted and posted a write, the write is in the queue and the caller
    is free to call [Read]; until the worker applies the write the
    registry holds under every name what it held before, and [Read]
    returns for every name and buffer what it would have returned before
    the call of [WriteAsync]. *)
Theorem X24_read_does_not_wait :
  forall (sz : positive) (limit : nat) (w1 wa w2 : World) (pParam : AsyncWriterThreadParams),
    step sz limit (E_WriteAsync_inc pParam) w1 = Some wa ->
    step sz limit E_WriteAsync_posted wa = Some w2 ->
    w_queue w2 = w_queue w1 ++ [pParam]
    /\ (forall name, stored (w_sys w2) name = stored (w_sys w1) name)
    /\ forall name buf,
         is_Some (step sz limit (E_Read name buf) w2)
         /\ (Read name buf (w_sys w2)).1 = (Read name buf (w_sys w1)).1.
Proof.
  intros sz limit w1 wa w2 pParam Hinc Hpost.
  destruct w1 as [s q c wk]. cbn [w_sys w_queue w_caller w_worker] in *.
  step_cases Hinc. unfold with_caller, with_io, with_sys in Hpost.
  cbn [w_sys w_queue w_caller w_worker] in Hpost.
  step_cases Hpost. unfold with_caller, with_queue.
  cbn [w_sys w_queue w_caller w_worker].
  split; [reflexivity|]. split; [reflexivity|].
  intros name buf. split.
  - unfold step. cbn [w_caller]. eauto.
  - unfold InterlockedIncrement.
    change {| io := set_QueueCount ?c0 (io s); reg := reg s |} with (with_count c0 s).
    apply Read_count.
Qed.

Lemma X24_read_does_not_wait_witness :
  let W0 := World_new example_root (fresh_registry example_hive) in
  let pParam := {| p_name := _T "Settings/Width"; p_value := VInt 640 |} in
  exists w2,
    run 2 4 [E_WriteAsync_inc pParam; E_WriteAsync_posted] W0 = Some w2
    /\ w_queue w2 = [pParam]
    /\ stored (w_sys w2) (_T "Settings/Width")
       = Some {| rv_type := REG_DWORD; rv_data := [250; 0; 0; 0] |}.
Proof.
  intros W0 pParam.
  assert (Ha : exists wa, step 2 4 (E_WriteAsync_inc pParam) W0 = Some wa
                          /\ exists w2, step 2 4 E_WriteAsync_posted wa = Some w2).
  { eexists. split; [vm_compute; reflexivity|]. eexists. vm_compute. reflexivity. }
  destruct Ha as (wa & Hinc & w2 & Hpost).
  destruct (X24_read_does_not_wait 2 4 W0 wa w2 pParam Hinc Hpost) as (Hq & Hst & _).
  exists w2. split; [cbn [run]; rewrite Hinc; cbn [run]; rewrite Hpost; reflexivity|].
  split; [exact Hq|]. rewrite Hst. vm_compute. reflexivity.
Defined.

(* ------------------------------------------------------------------ *)
(** ** The export misses nothing *)

Lemma assoc_find_in {A} (n : String) (a : A) (l : list (String * A)) :
  assoc_find n l = Some a -> (n, a) ∈ l.
Proof.
  induction l as [|[m b] l IH]; cbn [assoc_find]; [discriminate|].
  destruct (decide (m = n)) as [->|_].
  - intros [= ->]. left.
  - intros H. right. apply IH, H.
Qed.

(** The walk of the export reaches every value below the key it starts
    from. *)
Lemma key_entries_complete (cs : list String) :
  Forall (fun n => wf_key_name n = true) cs ->
  forall (k kq : RegKey) (cs0 : list String) (vn : String) (v : RegValue),
    Forall (fun n => wf_key_name n = true) cs0 ->
    find_key cs k = Some kq ->
    (vn, v) ∈ key_values kq ->
    (join_path (cs0 ++ cs) ++ _T "/" ++ vn, v) ∈ key_entries k (join_path cs0).
Proof.
  induction 1 as [|c cs Hc Hcs IH]; intros k kq cs0 vn v Hcs0 Hfind Hin.
  - cbn [find_key] in Hfind. injection Hfind as <-. rewrite app_nil_r.
    destruct k as [values subkeys]. cbn [key_entries key_values] in *.
    apply elem_of_app. left.
    apply list_elem_of_fmap. exists (vn, v). split; [reflexivity | exact Hin].
  - cbn [find_key] in Hfind.
    destruct (assoc_find c (key_subkeys k)) as [k'|] eqn:Ec; [|discriminate].
    apply assoc_find_in in Ec.
    destruct k as [values subkeys]. cbn [key_entries key_subkeys] in *.
    apply elem_of_app. right. apply list_elem_of_In, in_flat_map.
    exists (c, k'). split; [apply list_elem_of_In; exact Ec|]. cbn [fst snd].
    apply list_elem_of_In.
    rewrite <- (join_path_snoc cs0 c Hcs0).
    replace (cs0 ++ c :: cs) with ((cs0 ++ [c]) ++ cs) by (rewrite <- app_assoc; reflexivity).
    apply (IH k' kq (cs0 ++ [c]) vn v); [|exact Hfind | exact Hin].
    apply Forall_app. split; [exact Hcs0|]. constructor; [exact Hc | constructor].
Qed.

(** X25.  The export misses nothing.  Let the root end in a backslash,
    let the names below the root key be well formed and unique, and let
    [ExportAllUnloadedValues] into an empty file return [OPT_OK].  Then
    every value of type [REG_DWORD] or [REG_SZ] that the registry holds
    under a name made of well-formed key names and a value name without
    slash, and that is not in the option table, has its entry in both
    sections of the file under that very name, with the text and the type
    name made from that value. *)
Theorem X25_export_complete :
  forall (sz : positive) (optionsMap : OptionsMap) (s : Sys) (r : String) (k : RegKey)
         (cs : list String) (vn : String) (v : RegValue) (file : IniFile),
    m_registryRoot (io s) = r ++ [chr_backslash] ->
    find_key (split_path (m_registryRoot (io s))) (reg_hive (reg s)) = Some k ->
    wf_tree k = true -> unique_names k = true ->
    ExportAllUnloadedValues sz optionsMap ∅ s = (OPT_OK, file) ->
    Forall (fun n => wf_key_name n = true) cs -> has_slash vn = false ->
    let name := join_path cs ++ _T "/" ++ vn in
    optionsMap !! name = None ->
    stored s name = Some v ->
    exportable v = true ->
    exists text tag,
      ini_section file (_T "WinMerge") !! name = Some text
      /\ ini_section file (_T "WinMerge.TypeInfo") !! name = Some tag
      /\ exported_as sz v text tag.
Proof.
  intros sz optionsMap s r k cs vn v file Hroot Hk Hwf Hun Hex Hcs Hvn name Hm Hst Hexp.
  (* the value is among the entries of the walk *)
  assert (Hin : (name, v) ∈ key_entries k []).
  { unfold stored in Hst. unfold name in Hst. rewrite SplitName_join in Hst by exact Hvn.
    cbn [fst snd] in Hst. rewrite (key_of_below_root s r cs Hroot Hcs) in Hst.
    unfold value_at in Hst. rewrite find_key_app, Hk in Hst.
    destruct (find_key cs k) as [kq|] eqn:Ekq; [|discriminate].
    apply assoc_find_in in Hst.
    apply (key_entries_complete cs Hcs k kq [] vn v (List.Forall_nil _) Ekq Hst). }
  (* the walk got through all the entries *)
  unfold ExportAllUnloadedValues in Hex. rewrite Hk in Hex.
  destruct (export_key_inv sz optionsMap k [] ∅) as (done & rest & Hent & Hinv & Hall).
  change (_T "") with (@nil Z) in Hex. rewrite Hex in Hinv, Hall. cbn [fst snd] in Hinv, Hall.
  rewrite (Hall eq_refl), app_nil_r in Hent. subst done.
  specialize (Hinv name).
  assert (Ht : touched (key_entries k []) optionsMap name = true).
  { unfold touched. apply andb_true_iff. split; [apply bool_decide_eq_true; exact Hm|].
    apply existsb_exists. exists (name, v). split; [apply list_elem_of_In; exact Hin|].
    cbn [fst snd]. rewrite Hexp, andb_true_r. apply bool_decide_eq_true. reflexivity. }
  rewrite Ht in Hinv. destruct Hinv as (v' & text & tag & Hin' & _ & Hv & Htag & Has).
  pose proof (export_name_stored s r k name v' Hroot Hk Hwf Hun Hin') as Hst'.
  rewrite Hst in Hst'. injection Hst' as <-.
  exists text, tag. auto.
Qed.

Lemma X25_export_complete_witness :
  let s := IOHandler_new example_root (fresh_registry example_hive) in
  let file := (ExportAllUnloadedValues 2 ∅ ∅ s).2 in
  exists text tag,
    ini_section file (_T "WinMerge") !! (_T "Settings\Colors/Text") = Some text
    /\ ini_section file (_T "WinMerge.TypeInfo") !! (_T "Settings\Colors/Text") = Some tag
    /\ exported_as 2 {| rv_type := REG_DWORD; rv_data := [7; 0; 0; 0] |} text tag.
Proof.
  intros s file.
  apply (X25_export_complete 2 ∅ s (_T "Software\Thingamahoochie\WinMerge")
           (MkKey [] [(_T "Settings", example_settings)])
           [_T "Settings"; _T "Colors"] (_T "Text")).
  - vm_compute. reflexivity.
  - vm_compute. reflexivity.
  - vm_compute. reflexivity.
  - vm_compute. reflexivity.
  - vm_compute. reflexivity.
  - repeat constructor.
  - reflexivity.
  - reflexivity.
  - vm_compute. reflexivity.
  - reflexivity.
Defined.
